(** * TetraKlein local audit harness: the safety engines and their properties

    A shallow embedding of the audit scripts under
    [examples/tetraklein-local/tests]:

    - [tklocal_equivocation_audit.py]                ([EquivocationAudit])
    - [tklocal_epoch_finality_audit.py]              ([EpochFinalityAudit])
    - [tklocal_ivc_folding_equivocation_audit.py]    ([IvcFoldingAudit])
    - [tklocal_adversarial_audit.py]                 ([AdversarialAudit])
    - [tklocal_signed_equivocation_replay_audit.py]  ([SignedReplayAudit])
    - [tklocal_mega_coupled_stress_audit.py]         ([MegaCoupledStress])

    Conventions.  Python [int] is [Z]; counters and delays that start at a
    non-negative value and are only stepped by one are [nat]; a [dict] or
    [set] that is only read by key is a [gmap] or [gset]; a [dict] whose
    iteration order is observed is an insertion-ordered association list.
    Python [float] arithmetic goes through the interface [Arith]; its
    instance [binary64] is IEEE 754 doubles, what the interpreter computes.
    Calls into the outside world (tuple hashing, the signature scheme, the
    pseudo-random generator, key generation) are Section variables.

    The models come first, the properties after them. *)

From Stdlib Require Import ZArith QArith Floats Lia.
From stdpp Require Import gmap strings list.

Set Default Proof Using "Type".
Open Scope Z_scope.

(** ** Arithmetic on Python floats *)

(** The operations the scripts apply to floats.  [lit q] is the value of the
    decimal literal written [q] in the source; [fgt a b] is [a > b] and
    [fne a b] is [a != b]. *)
Class Arith (R : Type) := {
  lit : Q → R;
  fadd : R → R → R;
  fsub : R → R → R;
  fmul : R → R → R;
  fabs : R → R;
  fgt : R → R → bool;
  fne : R → R → bool
}.

(** An integer below [2^53] in magnitude as a double (exact). *)
Definition float_of_Z (z : Z) : float :=
  if z <? 0
  then PrimFloat.opp (PrimFloat.of_uint63 (Uint63.of_Z (- z)))
  else PrimFloat.of_uint63 (Uint63.of_Z z).

(** A decimal literal as the nearest double: numerator and denominator are
    exact, and IEEE division rounds their quotient to nearest, which is how
    the interpreter reads the literal. *)
Definition float_of_decimal (q : Q) : float :=
  PrimFloat.div (float_of_Z (Qnum q)) (float_of_Z (Zpos (Qden q))).

(** IEEE 754 binary64, the arithmetic of CPython's [float]. *)
#[export] Instance binary64 : Arith float := {|
  lit := float_of_decimal;
  fadd := PrimFloat.add;
  fsub := PrimFloat.sub;
  fmul := PrimFloat.mul;
  fabs := PrimFloat.abs;
  fgt a b := PrimFloat.ltb b a;
  fne a b := negb (PrimFloat.eqb a b)
|}.

(** Python's [max(a, b)]: the first argument unless the second is greater. *)
Definition fmax {R} `{Arith R} (a b : R) : R := if fgt b a then b else a.

(** ** tklocal_equivocation_audit.py *)

Module EquivocationAudit.

(** [@dataclass(frozen=True) class EpochCommitment] *)
Record EpochCommitment := mkCommitment {
  epoch : Z;
  parent_root : Z;
  state_root : Z
}.

(** [class EquivocationVerifier]: the fields [self.seen] and [self.ops]. *)
Record EquivocationVerifier := mkVerifier {
  seen : gmap (Z * Z) (Z * string);
  ops : nat
}.

(** [EquivocationVerifier.__init__] *)
Definition new_verifier : EquivocationVerifier :=
  {| seen := ∅; ops := 0 |}.

(** [key = (c.epoch, c.parent_root)] *)
Definition key_of (c : EpochCommitment) : Z * Z := (epoch c, parent_root c).

(** What [observe] returns: [(detected, epoch, offender)]. *)
Definition Verdict : Type := bool * option Z * option string.

(** [EquivocationVerifier.observe].  The counter is bumped first; a key
    already in [seen] whose recorded root differs returns early, every
    other path falls through to the store at the end. *)
Definition observe (c : EpochCommitment) (branch_name : string)
    (v : EquivocationVerifier) : Verdict * EquivocationVerifier :=
  let ops' := S (ops v) in
  let key := key_of c in
  let conflict :=
    match seen v !! key with
    | Some (prev_root, prev_branch) => bool_decide (prev_root ≠ state_root c)
    | None => false
    end in
  if conflict
  then ((true, Some (epoch c), Some branch_name),
        {| seen := seen v; ops := ops' |})
  else ((false, None, None),
        {| seen := <[key := (state_root c, branch_name)]> (seen v);
           ops := ops' |}).

(** A sequence of [observe] calls on one verifier; the state after the last
    one. *)
Fixpoint observe_all (calls : list (EpochCommitment * string))
    (v : EquivocationVerifier) : EquivocationVerifier :=
  match calls with
  | [] => v
  | (c, b) :: rest => observe_all rest (snd (observe c b v))
  end.

(** The state root carried by the first call of a sequence that uses the
    key [k]. *)
Fixpoint first_root (k : Z * Z) (calls : list (EpochCommitment * string))
    : option Z :=
  match calls with
  | [] => None
  | (c, _) :: rest =>
      if decide (key_of c = k) then Some (state_root c)
      else first_root k rest
  end.

(** The root, and the origin label, currently recorded for a key. *)
Definition recorded_root (v : EquivocationVerifier) (k : Z * Z) : option Z :=
  fst <$> seen v !! k.

Definition recorded_origin (v : EquivocationVerifier) (k : Z * Z)
    : option string :=
  snd <$> seen v !! k.

(** Case analysis on the lookup and the comparison inside [observe]. *)
Ltac observe_cases c v :=
  unfold observe;
  destruct (seen v !! key_of c) as [[? ?]|] eqn:?;
  [case_bool_decide|]; simpl.

(** Two commitments for epoch 1 on the same parent root with different
    state roots (the honest branch and the forced one), for running the
    verifier. *)
Definition sample_honest : EpochCommitment := mkCommitment 1 7 100.
Definition sample_forced : EpochCommitment := mkCommitment 1 7 200.

End EquivocationAudit.

(** ** tklocal_epoch_finality_audit.py *)

Module EpochFinalityAudit.

(** [@dataclass class EpochNode] *)
Record EpochNode := mkNode {
  epoch : Z;
  parent : option Z;
  root : Z;
  finalized : bool
}.

(** [node.finalized = True] *)
Definition set_finalized (n : EpochNode) : EpochNode :=
  {| epoch := epoch n; parent := parent n; root := root n;
     finalized := true |}.

(** [self.nodes: Dict[int, EpochNode]].  [finalize_up_to] walks the dict in
    insertion order, so the dict is kept as the list of its items in that
    order. *)

(** [k in d] and [d[k]]: the first item with the key. *)
Fixpoint dict_get (d : list (Z * EpochNode)) (k : Z) : option EpochNode :=
  match d with
  | [] => None
  | (k', n) :: rest => if decide (k' = k) then Some n else dict_get rest k
  end.

(** [d[k] = n]: an existing key keeps its position and gets the new value,
    a new key goes to the end. *)
Fixpoint dict_set (d : list (Z * EpochNode)) (k : Z) (n : EpochNode)
    : list (Z * EpochNode) :=
  match d with
  | [] => [(k, n)]
  | (k', n') :: rest =>
      if decide (k' = k) then (k, n) :: rest
      else (k', n') :: dict_set rest k n
  end.

(** [class EpochLedger] *)
Record EpochLedger := mkLedger {
  nodes : list (Z * EpochNode);
  final_root : option Z;
  verifier_ops : nat
}.

(** [EpochLedger.__init__] *)
Definition new_ledger : EpochLedger :=
  {| nodes := []; final_root := None; verifier_ops := 0 |}.

(** One turn of the loop of [finalize_up_to] over [self.nodes.items()]:
    [acc] holds the items already visited and the current [final_root]. *)
Definition finalize_item (upto : Z)
    (acc : list (Z * EpochNode) * option Z) (item : Z * EpochNode)
    : list (Z * EpochNode) * option Z :=
  let '(visited, fr) := acc in
  let '(e, node) := item in
  if bool_decide (e ≤ upto)
  then (visited ++ [(e, set_finalized node)], Some (root node))
  else (visited ++ [(e, node)], fr).

(** [EpochLedger.finalize_up_to] *)
Definition finalize_up_to (upto : Z) (L : EpochLedger) : EpochLedger :=
  let '(ns, fr) := fold_left (finalize_item upto) (nodes L) ([], final_root L) in
  {| nodes := ns; final_root := fr; verifier_ops := verifier_ops L |}.

(** The loop of [finalize_up_to] seen item by item: what it does to one
    item, and the [final_root] it leaves after a list of items. *)
Definition finalize_node (upto : Z) (item : Z * EpochNode) : Z * EpochNode :=
  if bool_decide (item.1 ≤ upto) then (item.1, set_finalized item.2) else item.

Definition last_root (upto : Z) (items : list (Z * EpochNode))
    (fr : option Z) : option Z :=
  fold_left
    (λ fr item, if bool_decide (item.1 ≤ upto) then Some (root item.2) else fr)
    items fr.

(** The node an insertion for epoch [e] with parent [p] stores, given the
    root computed for it. *)
Definition fresh_node (e : Z) (p : option Z) (r : Z) : EpochNode :=
  mkNode e p r false.

(** The same node up to its [finalized] flag. *)
Definition same_commitment (n n' : EpochNode) : Prop :=
  epoch n = epoch n' ∧ parent n = parent n' ∧ root n = root n'.

(** Every node sits under its own epoch (so it is in a ledger built by the
    three operations). *)
Definition keyed_by_epoch (d : list (Z * EpochNode)) : Prop :=
  Forall (λ item, epoch item.2 = item.1) d.

Section WithHash.

(** Python's [hash((epoch, parent))] on a pair of an int and an optional
    int. *)
Variable hash : Z → option Z → Z.

(** [EpochLedger.add_epoch] *)
Definition add_epoch (e : Z) (p : option Z) (L : EpochLedger)
    : Z * EpochLedger :=
  let r := hash e p in
  (r, {| nodes := dict_set (nodes L) e (fresh_node e p r);
         final_root := final_root L;
         verifier_ops := S (verifier_ops L) |}).

(** [EpochLedger.try_late_injection] *)
Definition try_late_injection (e : Z) (p : Z) (L : EpochLedger)
    : bool * EpochLedger :=
  let ops' := S (verifier_ops L) in
  let parent_final :=
    match dict_get (nodes L) p with
    | Some n => finalized n
    | None => false
    end in
  if parent_final
  then (false, {| nodes := nodes L; final_root := final_root L;
                  verifier_ops := ops' |})
  else (true, {| nodes := dict_set (nodes L) e
                            (fresh_node e (Some p) (hash e (Some p)));
                 final_root := final_root L;
                 verifier_ops := ops' |}).

(** The three operations of the ledger as data, and the ledger after a
    sequence of them. *)
Inductive Op :=
| AddEpoch (e : Z) (p : option Z)
| FinalizeUpTo (e : Z)
| TryLateInjection (e : Z) (p : Z).

Definition run_op (o : Op) (L : EpochLedger) : EpochLedger :=
  match o with
  | AddEpoch e p => snd (add_epoch e p L)
  | FinalizeUpTo e => finalize_up_to e L
  | TryLateInjection e p => snd (try_late_injection e p L)
  end.

Definition run_ops (os : list Op) (L : EpochLedger) : EpochLedger :=
  fold_left (λ L o, run_op o L) os L.

End WithHash.

(** A stand-in for the interpreter's tuple hash, for running the ledger on
    concrete inputs. *)
Definition sample_hash (e : Z) (p : option Z) : Z :=
  1000003 * e + match p with Some q => q + 1 | None => 0 end.

End EpochFinalityAudit.

(** ** tklocal_ivc_folding_equivocation_audit.py *)

Module IvcFoldingAudit.

Section Folding.

Context {R : Type} `{Arith R}.

(** [@dataclass class FoldState] *)
Record FoldState := mkFoldState {
  accumulator : R;
  residual : R
}.

(** [class FoldingEngine]: the fields [self.verifier_ops] and
    [self.max_residual]. *)
Record FoldingEngine := mkEngine {
  verifier_ops : nat;
  max_residual : R
}.

(** [FoldingEngine.__init__] *)
Definition new_engine : FoldingEngine :=
  {| verifier_ops := 0; max_residual := lit 0.0 |}.

(** [FoldingEngine.fold] *)
Definition fold (prev : FoldState) (witness : R) (eng : FoldingEngine)
    : FoldState * FoldingEngine :=
  let new_acc := fadd (fmul (lit 0.5) (accumulator prev))
                      (fmul (lit 0.5) witness) in
  let res := fabs (fsub new_acc (accumulator prev)) in
  ({| accumulator := new_acc; residual := res |},
   {| verifier_ops := S (verifier_ops eng);
      max_residual := fmax (max_residual eng) res |}).

(** A sequence of [fold] calls on one engine, each fed the state the
    previous one returned. *)
Fixpoint fold_all (witnesses : list R) (st : FoldState) (eng : FoldingEngine)
    : FoldState * FoldingEngine :=
  match witnesses with
  | [] => (st, eng)
  | w :: rest => let '(st1, eng1) := fold st w eng in fold_all rest st1 eng1
  end.

(** [@dataclass class AuditResult], without the wall-clock [runtime]. *)
Record AuditResult := mkResult {
  equivocation_detected : bool;
  detection_depth : Z;
  res_max_residual : R;
  res_verifier_ops : nat
}.

(** The loop of [run_ivc_folding_equivocation_audit], from [depth] on.
    [witnesses] are the honest draws [random.uniform(-1.0, 1.0)] still to
    come, one per depth; engine B gets the same witness, plus [delta] at
    depth [k]; the loop breaks at the first depth where the accumulators
    are more than [bound] apart. *)
Fixpoint audit_loop (k : nat) (delta bound : R) (witnesses : list R)
    (depth : nat) (engine_A engine_B : FoldingEngine)
    (state_A state_B : FoldState) : AuditResult :=
  match witnesses with
  | [] =>
      {| equivocation_detected := false;
         detection_depth := -1;
         res_max_residual := fmax (max_residual engine_A) (max_residual engine_B);
         res_verifier_ops := (verifier_ops engine_A + verifier_ops engine_B)%nat |}
  | witness_A :: rest =>
      let witness_B :=
        if decide (depth = k) then fadd witness_A delta else witness_A in
      let '(state_A, engine_A) := fold state_A witness_A engine_A in
      let '(state_B, engine_B) := fold state_B witness_B engine_B in
      if fgt (fabs (fsub (accumulator state_A) (accumulator state_B))) bound
      then
        {| equivocation_detected := true;
           detection_depth := Z.of_nat depth;
           res_max_residual := fmax (max_residual engine_A) (max_residual engine_B);
           res_verifier_ops := (verifier_ops engine_A + verifier_ops engine_B)%nat |}
      else audit_loop k delta bound rest (S depth) engine_A engine_B state_A state_B
  end.

(** The audit for a perturbation [delta] at depth [k] and a residual bound
    [bound]: both sequences start from the accumulator [0.0] and depths
    count from [1]. *)
Definition divergence_audit (k : nat) (delta bound : R) (witnesses : list R)
    : AuditResult :=
  audit_loop k delta bound witnesses 1 new_engine new_engine
    {| accumulator := lit 0.0; residual := lit 0.0 |}
    {| accumulator := lit 0.0; residual := lit 0.0 |}.

(** The detector's test stays silent on two equal accumulators. *)
Definition silent_on_equal (bound : R) : Prop :=
  ∀ x : R, fgt (fabs (fsub x x)) bound = false.

(** The configuration of the script. *)
Definition MAX_DEPTH : nat := 64.
Definition RESIDUAL_BOUND : R := lit 1e-6.

(** [run_ivc_folding_equivocation_audit], given the honest draws: the
    perturbation is [0.25] at depth [MAX_DEPTH // 2]. *)
Definition run_ivc_folding_equivocation_audit (draws : list R) : AuditResult :=
  divergence_audit (MAX_DEPTH / 2) (lit 0.25) RESIDUAL_BOUND
    (take MAX_DEPTH draws).

End Folding.

Arguments FoldState R : clear implicits.
Arguments FoldingEngine R : clear implicits.
Arguments AuditResult R : clear implicits.

End IvcFoldingAudit.

(** ** tklocal_adversarial_audit.py *)

Module AdversarialAudit.

Section Aggregation.

Context {R : Type} `{Arith R}.

(** [@dataclass class Frame] *)
Record Frame := mkFrame {
  index : Z;
  value : R;
  valid : bool;
  stale : bool
}.

(** [class Aggregator]: [self.state], [self.verifier_ops],
    [self.residuals]. *)
Record Aggregator := mkAggregator {
  state : R;
  verifier_ops : nat;
  residuals : list R
}.

(** [Aggregator.__init__] *)
Definition new_aggregator : Aggregator :=
  {| state := lit 0.0; verifier_ops := 0; residuals := [] |}.

(** [Aggregator.process] *)
Definition process (frame : Frame) (agg : Aggregator) : Aggregator :=
  let ops' := S (verifier_ops agg) in
  if negb (valid frame)
  then {| state := state agg; verifier_ops := ops';
          residuals := residuals agg |}
  else
    let prev := state agg in
    let st := fadd (fmul (lit 0.9) (state agg)) (fmul (lit 0.1) (value frame)) in
    {| state := st; verifier_ops := ops';
       residuals := residuals agg ++ [fabs (fsub st prev)] |}.

(** The frames of a delivered sequence processed in order. *)
Definition process_all (frames : list Frame) (agg : Aggregator) : Aggregator :=
  fold_left (λ a f, process f a) frames agg.

End Aggregation.

Arguments Frame R : clear implicits.
Arguments Aggregator R : clear implicits.

End AdversarialAudit.

(** ** A step that may raise *)

(** The outcome of code that either returns or raises [RuntimeError] with a
    message. *)
Inductive Result (A : Type) : Type :=
| Ok (a : A)
| Raise (msg : string).

Arguments Ok {A} a.
Arguments Raise {A} msg.

(** Sequencing: the first [Raise] ends the computation.  With this
    instance stdpp's [x ← r; k] reads as a statement followed by the rest
    of the block. *)
#[export] Instance result_bind : MBind Result := λ A B k r,
  match r with
  | Ok a => k a
  | Raise msg => Raise msg
  end.

(** ** tklocal_signed_equivocation_replay_audit.py *)

Module SignedReplayAudit.

Definition EPOCHS : nat := 64.
Definition REPLAY_EPOCH_GAP : Z := 10.

(** The three ways the delivery phase disposes of a frame whose delay has
    run out. *)
Inductive Outcome := Accepted | ReplayRejected | EquivocationRejected.

Section Detector.

(** The [state] of a frame (a float in the script) and its [signature]
    (bytes) enter the detector only through [==] and hashing, as members of
    a tuple in a set and as values of a dict; both are kept abstract, with
    decidable equality. *)
Context {State Sig : Type} `{Countable State} `{Countable Sig}.

(** [@dataclass(frozen=True) class SignedFrame] *)
Record SignedFrame := mkSignedFrame {
  epoch : Z;
  state : State;
  signature : Sig
}.

(** [verifier.verify(canonical_message(f.epoch, f.state), f.signature,
    pubkey)], the ML-DSA-87 verification of the external library. *)
Variable verify : Z → State → Sig → bool.

(** The tracking variables of [run_signed_equivocation_replay_audit]. *)
Record Tracker := mkTracker {
  seen_frames : gset (Z * State * Sig);
  seen_epochs : gmap Z State;
  equivocation_detected : bool;
  replay_detected : bool;
  detection_epoch : option Z;
  verifier_ops : nat
}.

Definition new_tracker : Tracker :=
  {| seen_frames := ∅; seen_epochs := ∅; equivocation_detected := false;
     replay_detected := false; detection_epoch := None; verifier_ops := 0 |}.

(** [frame_id = (f.epoch, f.state, f.signature)] *)
Definition frame_id (f : SignedFrame) : Z * State * Sig :=
  (epoch f, state f, signature f).

(** The body of the delivery loop for a frame whose delay is [0], in the
    outer epoch [now]. *)
Definition deliver_frame (now : Z) (f : SignedFrame) (t : Tracker)
    : Result (Outcome * Tracker) :=
  let ops' := S (verifier_ops t) in
  if negb (verify (epoch f) (state f) (signature f))
  then Raise "SIGNATURE VERIFICATION FAILURE"
  else if bool_decide (frame_id f ∈ seen_frames t)
  then Ok (ReplayRejected,
           {| seen_frames := seen_frames t; seen_epochs := seen_epochs t;
              equivocation_detected := equivocation_detected t;
              replay_detected := true;
              detection_epoch := detection_epoch t;
              verifier_ops := ops' |})
  else if match seen_epochs t !! epoch f with
          | Some s => bool_decide (s ≠ state f)
          | None => false
          end
  then Ok (EquivocationRejected,
           {| seen_frames := seen_frames t; seen_epochs := seen_epochs t;
              equivocation_detected := true;
              replay_detected := replay_detected t;
              detection_epoch := Some now;
              verifier_ops := ops' |})
  else Ok (Accepted,
           {| seen_frames := {[frame_id f]} ∪ seen_frames t;
              seen_epochs := <[epoch f := state f]> (seen_epochs t);
              equivocation_detected := equivocation_detected t;
              replay_detected := replay_detected t;
              detection_epoch := detection_epoch t;
              verifier_ops := ops' |}).

(** The delivery phase of one epoch: frames still delayed go to
    [next_inbox] with the delay decremented, the others are delivered.
    [log] records, in order, each delivered frame with its outcome (the
    script keeps no such record; it is there to state properties). *)
Fixpoint delivery_phase (now : Z) (inbox : list (SignedFrame * nat))
    (next_inbox : list (SignedFrame * nat))
    (log : list (SignedFrame * Outcome)) (t : Tracker)
    : Result (list (SignedFrame * nat) * list (SignedFrame * Outcome) * Tracker) :=
  match inbox with
  | [] => Ok (next_inbox, log, t)
  | (f, S d) :: rest =>
      delivery_phase now rest (next_inbox ++ [(f, d)]) log t
  | (f, O) :: rest =>
      '(o, t1) ← deliver_frame now f t;
      delivery_phase now rest next_inbox (log ++ [(f, o)]) t1
  end.

(** The epoch loop, for [n] more epochs from [now] on.  [arrivals e] are
    the frames appended to the inbox in epoch [e], each with the delay
    drawn for it; appending the honest frame is counted as one verifier
    operation. *)
Fixpoint epoch_loop (arrivals : Z → list (SignedFrame * nat)) (n : nat)
    (now : Z) (inbox : list (SignedFrame * nat))
    (log : list (SignedFrame * Outcome)) (t : Tracker)
    : Result (list (SignedFrame * nat) * list (SignedFrame * Outcome) * Tracker) :=
  match n with
  | O => Ok (inbox, log, t)
  | S n' =>
      let t0 :=
        {| seen_frames := seen_frames t; seen_epochs := seen_epochs t;
           equivocation_detected := equivocation_detected t;
           replay_detected := replay_detected t;
           detection_epoch := detection_epoch t;
           verifier_ops := S (verifier_ops t) |} in
      '(next_inbox, log1, t1) ←
        delivery_phase now (inbox ++ arrivals now) [] log t0;
      epoch_loop arrivals n' (now + 1) next_inbox log1 t1
  end.

(** A whole run over [n] epochs from the empty tracker. *)
Definition run_epochs (arrivals : Z → list (SignedFrame * nat)) (n : nat)
    : Result (list (SignedFrame * nat) * list (SignedFrame * Outcome) * Tracker) :=
  epoch_loop arrivals n 0 [] [] new_tracker.

(** Reading the delivery record: the frame identity [id] has an [Accepted]
    entry; and no identity that has one is given anything but
    [ReplayRejected] at a later entry. *)
Definition accepted_in (log : list (SignedFrame * Outcome))
    (id : Z * State * Sig) : Prop :=
  ∃ f, (f, Accepted) ∈ log ∧ frame_id f = id.

Definition replay_safe (log : list (SignedFrame * Outcome)) : Prop :=
  ∀ (i j : nat) (f g : SignedFrame) (o : Outcome),
    (i < j)%nat →
    log !! i = Some (f, Accepted) →
    log !! j = Some (g, o) →
    frame_id g = frame_id f →
    o = ReplayRejected.

(** What holds of the record and the tracker throughout a run:
    [seen_frames] holds exactly the identities with an [Accepted] entry,
    the record is replay-safe, every delivered frame passed verification,
    and every entry of [seen_epochs] comes from an accepted frame. *)
Definition consistent (log : list (SignedFrame * Outcome)) (t : Tracker)
    : Prop :=
  (∀ id, id ∈ seen_frames t ↔ accepted_in log id)
  ∧ replay_safe log
  ∧ (∀ f o, (f, o) ∈ log → verify (epoch f) (state f) (signature f) = true)
  ∧ (∀ e s, seen_epochs t !! e = Some s →
       ∃ f, (f, Accepted) ∈ log ∧ epoch f = e ∧ state f = s).

(** The frames the script itself produces.  [sign] is [signer.sign] on the
    canonical message, [evolve] is [state *= 0.9], [forge] is
    [state + 0.5], [initial] is [1.0], and [delay e i] is the [i]-th delay
    drawn in epoch [e]. *)
Variable sign : Z → State → Sig.
Variable evolve : State → State.
Variable forge : State → State.
Variable initial : State.
Variable delay : Z → nat → nat.

(** [state] after the update of epoch [e]. *)
Definition state_at (e : Z) : State :=
  Nat.iter (S (Z.to_nat e)) evolve initial.

(** [signed_history[e]] *)
Definition honest_frame (e : Z) : SignedFrame :=
  {| epoch := e; state := state_at e; signature := sign e (state_at e) |}.

Definition script_arrivals (e : Z) : list (SignedFrame * nat) :=
  [(honest_frame e, delay e 0)]
  ++ (if decide (e = 12)
      then [({| epoch := e; state := forge (state_at e);
                signature := sign e (forge (state_at e)) |}, delay e 1)]
      else [])
  ++ (if decide (e = 20)
      then [(honest_frame (e - REPLAY_EPOCH_GAP), delay e 1)]
      else []).

(** [run_signed_equivocation_replay_audit]: the epoch loop, then the two
    hard assertions. *)
Definition run_signed_equivocation_replay_audit : Result Tracker :=
  '(_, _, t) ← run_epochs script_arrivals EPOCHS;
  if negb (equivocation_detected t)
  then Raise "SIGNED EQUIVOCATION NOT DETECTED"
  else if negb (replay_detected t)
  then Raise "REPLAY NOT DETECTED"
  else Ok t.

End Detector.

Arguments SignedFrame State Sig : clear implicits.
Arguments Tracker State Sig {_ _ _ _}.

(** A small delivery schedule for running the detector: states and
    signatures are integers, every signature verifies.  Epoch 0 brings a
    frame for epoch 0; epoch 1 brings the same frame again and a second
    frame for epoch 0 with another state; epoch 2 brings a frame for
    epoch 2 that waits one round. *)
Definition sample_verify (e : Z) (s : Z) (sg : Z) : bool := true.

Definition sample_arrivals (e : Z) : list (SignedFrame Z Z * nat) :=
  if decide (e = 0) then [(mkSignedFrame 0 900 11, 0%nat)]
  else if decide (e = 1)
  then [(mkSignedFrame 0 900 11, 0%nat); (mkSignedFrame 0 1400 12, 0%nat)]
  else if decide (e = 2) then [(mkSignedFrame 2 729 13, 1%nat)]
  else [].

(** The record and the tracker that schedule leaves after four epochs. *)
Definition sample_log : list (SignedFrame Z Z * Outcome) :=
  [(mkSignedFrame 0 900 11, Accepted);
   (mkSignedFrame 0 900 11, ReplayRejected);
   (mkSignedFrame 0 1400 12, EquivocationRejected);
   (mkSignedFrame 2 729 13, Accepted)].

Definition sample_tracker : Tracker Z Z :=
  {| seen_frames := {[ (0, 900, 11); (2, 729, 13) ]};
     seen_epochs := {[ 0 := 900; 2 := 729 ]};
     equivocation_detected := true;
     replay_detected := true;
     detection_epoch := Some 1;
     verifier_ops := 8 |}.

End SignedReplayAudit.

(** ** tklocal_mega_coupled_stress_audit.py *)

Module MegaCoupledStress.

Definition Q_DIM : nat := 6.
Definition Q_NODES : Z := 2 ^ Z.of_nat Q_DIM.
Definition NODE_COUNT : nat := 8.
Definition IVC_DEPTH : nat := 96.
Definition GOSSIP_STEPS : nat := 128.
Definition EQUIVOCATION_DELAY : Z := 12.

(** [neighbors_q6]: [[n ^ (1 << i) for i in range(Q_DIM)]] *)
Definition neighbors_q6 (n : Z) : list Z :=
  (λ i, Z.lxor n (Z.shiftl 1 (Z.of_nat i))) <$> seq 0 Q_DIM.

Section Gossip.

Context {R : Type} `{Arith R}.

Definition DTC_ALPHA : R := lit 0.85.
Definition DTC_THRESHOLD : R := lit 1e-6.

(** [@dataclass class Node]; an inbox entry is [(sender, value, delay)]. *)
Record Node := mkNode {
  node_id : Z;
  ipv6 : string;
  q_node : Z;
  state : R;
  inbox : list (Z * R * nat);
  history : gmap Z R
}.

(** The variables of the run that both phases of a round update. *)
Record Flags := mkFlags {
  equivocation_detected : bool;
  equivocation_epoch : option Z;
  verifier_ops : nat
}.

(** The pseudo-random generator: [packet_lost] is the test
    [random.random() < PACKET_LOSS_PROB], [draw_delay] is
    [random.randint(0, MAX_DELAY)]; each returns the generator after the
    draw. *)
Variable Rng : Type.
Variable packet_lost : Rng → bool * Rng.
Variable draw_delay : Rng → nat * Rng.

(** [n.history[epoch] = v] *)
Definition record_history (epoch : Z) (v : R) (n : Node) : Node :=
  {| node_id := node_id n; ipv6 := ipv6 n; q_node := q_node n;
     state := state n; inbox := inbox n;
     history := <[epoch := v]> (history n) |}.

(** [m.inbox.append(msg)] *)
Definition enqueue (msg : Z * R * nat) (m : Node) : Node :=
  {| node_id := node_id m; ipv6 := ipv6 m; q_node := q_node m;
     state := state m; inbox := inbox m ++ [msg];
     history := history m |}.

(** The body of the inner send loop: the node at position [i] of the dict
    (which is [nodes[n.node_id]], the dict being built with
    [nodes[i].node_id = i]) sends to the hypercube slot [nb]. *)
Definition send_to (epoch : Z) (i : nat) (nb : Z) (acc : Rng * list Node)
    : Rng * list Node :=
  let '(rng, nodes) := acc in
  match nodes !! i with
  | None => acc
  | Some n =>
      let '(lost, rng) := packet_lost rng in
      if lost then (rng, nodes)
      else
        let '(delay, rng) := draw_delay rng in
        let nodes := alter (record_history epoch (state n)) i nodes in
        let value :=
          if bool_decide (epoch = EQUIVOCATION_DELAY ∧ node_id n = 0)
          then fadd (state n) (lit 0.5)
          else state n in
        let nodes := alter (record_history epoch value) i nodes in
        let nodes :=
          (λ m, if bool_decide (q_node m = nb)
                then enqueue (node_id n, value, delay) m else m) <$> nodes in
        (rng, nodes)
  end.

(** The send loop of one node: one turn per neighbour slot. *)
Definition send_from (epoch : Z) (acc : Rng * list Node) (i : nat)
    : Rng * list Node :=
  match acc.2 !! i with
  | None => acc
  | Some n =>
      fold_left (λ a nb, send_to epoch i nb a) (neighbors_q6 (q_node n)) acc
  end.

(** The send phase of a round, over [nodes.values()] in order. *)
Definition send_phase (epoch : Z) (rng : Rng) (nodes : list Node)
    : Rng * list Node :=
  fold_left (send_from epoch) (seq 0 (length nodes)) (rng, nodes).

(** The body of the receive loop of a node whose [history] is [hist]:
    [acc] is the node's state so far, its new inbox and the flags. *)
Definition receive_msg (epoch : Z) (hist : gmap Z R)
    (acc : R * list (Z * R * nat) * Flags) (msg : Z * R * nat)
    : R * list (Z * R * nat) * Flags :=
  let '(st, new_inbox, fl) := acc in
  let '(sender, value, delay) := msg in
  match delay with
  | S d => (st, new_inbox ++ [(sender, value, d)], fl)
  | O =>
      let mismatch :=
        match hist !! sender with
        | Some h => fne h value
        | None => false
        end in
      let detected :=
        if mismatch then true else equivocation_detected fl in
      let at_epoch :=
        if mismatch then Some epoch else equivocation_epoch fl in
      (fadd (fmul DTC_ALPHA st) (fmul (fsub (lit 1) DTC_ALPHA) value),
       new_inbox,
       {| equivocation_detected := detected;
          equivocation_epoch := at_epoch;
          verifier_ops := S (verifier_ops fl) |})
  end.

(** The receive loop of one node. *)
Definition receive_node (epoch : Z) (acc : list Node * Flags) (n : Node)
    : list Node * Flags :=
  let '(visited, fl) := acc in
  let '(st, new_inbox, fl) :=
    fold_left (receive_msg epoch (history n)) (inbox n) (state n, [], fl) in
  (visited ++ [{| node_id := node_id n; ipv6 := ipv6 n; q_node := q_node n;
                  state := st; inbox := new_inbox; history := history n |}],
   fl).

(** The receive phase of a round. *)
Definition receive_phase (epoch : Z) (nodes : list Node) (fl : Flags)
    : list Node * Flags :=
  fold_left (receive_node epoch) nodes ([], fl).

(** [n] more rounds of gossip from round [epoch] on. *)
Fixpoint gossip_loop (n : nat) (epoch : Z) (rng : Rng) (nodes : list Node)
    (fl : Flags) : Rng * list Node * Flags :=
  match n with
  | O => (rng, nodes, fl)
  | S n' =>
      let '(rng, nodes) := send_phase epoch rng nodes in
      let '(nodes, fl) := receive_phase epoch nodes fl in
      gossip_loop n' (epoch + 1) rng nodes fl
  end.

(** The local IVC recursion: [x = 1.0], then [x = 0.5 * x], [IVC_DEPTH]
    times. *)
Definition ivc_state : R := Nat.iter IVC_DEPTH (fmul (lit 0.5)) (lit 1.0).

(** [max(abs(n.state) for n in nodes.values())] ([None] for no node, where
    Python raises [ValueError]). *)
Definition max_abs_state (nodes : list Node) : option R :=
  match nodes with
  | [] => None
  | n :: rest =>
      Some (fold_left (λ m x, fmax m (fabs (state x))) rest (fabs (state n)))
  end.

(** What the run returns, without the ledger digest, the wall-clock time
    and the memory figure. *)
Record RunResult := mkRunResult {
  max_dtc_residual : R;
  res_equivocation_detected : bool;
  res_equivocation_epoch : option Z;
  res_verifier_ops : nat
}.

(** [run_mega_coupled_stress].  The key pairs come from the external
    library and are fresh in every run; what the run uses of them is, for
    node [i], the address [address i] and the integer [digest_prefix i]
    read off the first two bytes of the identity hash.  Phase 1 creates the
    nodes with state [1.0] and phase 2 overwrites it with the result of the
    local recursion before anything reads it, so the nodes are built with
    that state at once; the two phases count [2] and [IVC_DEPTH] operations
    per node, and the ledger commitment at the end counts one more. *)
Definition run_mega_coupled_stress (address : nat → string)
    (digest_prefix : nat → Z) (rng : Rng) : Result RunResult :=
  let nodes :=
    (λ i, {| node_id := Z.of_nat i; ipv6 := address i;
             q_node := digest_prefix i `mod` Q_NODES;
             state := ivc_state; inbox := []; history := ∅ |})
      <$> seq 0 NODE_COUNT in
  let ops := (2 * NODE_COUNT + IVC_DEPTH * NODE_COUNT)%nat in
  let '(_, nodes, fl) :=
    gossip_loop GOSSIP_STEPS 0 rng nodes
      {| equivocation_detected := false; equivocation_epoch := None;
         verifier_ops := ops |} in
  match max_abs_state nodes with
  | None => Raise "max() arg is an empty sequence"
  | Some max_residual =>
      if fgt max_residual DTC_THRESHOLD
      then Raise "DTC CONTRACTION FAILURE"
      else Ok {| max_dtc_residual := max_residual;
                 res_equivocation_detected := equivocation_detected fl;
                 res_equivocation_epoch := equivocation_epoch fl;
                 res_verifier_ops := S (verifier_ops fl) |}
  end.

(** No node sits on a slot that is a hypercube neighbour of another
    node's slot. *)
Definition no_adjacent_slots (slots : list Z) : bool :=
  forallb (λ a, forallb (λ b, bool_decide (b ∉ neighbors_q6 a)) slots) slots.

(** What a round can change of the other nodes' view of a node: its slot,
    its inbox and its state. *)
Definition wire (n : Node) : Z * list (Z * R * nat) * R :=
  (q_node n, inbox n, state n).

(** The two detection variables agree: either nothing was detected and no
    round is recorded, or something was and the recorded round is one of
    the rounds [0 .. hi - 1]. *)
Definition flags_agree (hi : Z) (detected : bool) (at_epoch : option Z)
    : Prop :=
  (detected = false ∧ at_epoch = None)
  ∨ (detected = true ∧ ∃ e, 0 ≤ e < hi ∧ at_epoch = Some e).

(** No slot of the list is a hypercube neighbour of the slot [q0]. *)
Definition no_neighbour_of (q0 : Z) (slots : list Z) : bool :=
  forallb (λ q, bool_decide (q ∉ neighbors_q6 q0)) slots.

(** A message that carries the value [s0] and whose sender id is not the
    round of the injection. *)
Definition plain_msg (s0 : R) (msg : Z * R * nat) : Prop :=
  msg.1.2 = s0 ∧ msg.1.1 ≠ EQUIVOCATION_DELAY.

(** A node untouched by the injected value, [q0] being the slot of node 0:
    its state is [s0], its inbox holds plain messages only, its history
    holds [s0] under every key but the round of the injection, and it does
    not sit on a neighbour slot of [q0]. *)
Definition calm_node (q0 : Z) (s0 : R) (n : Node) : Prop :=
  state n = s0
  ∧ node_id n ≠ EQUIVOCATION_DELAY
  ∧ (node_id n = 0 → q_node n = q0)
  ∧ (q_node n ∉ neighbors_q6 q0)
  ∧ Forall (plain_msg s0) (inbox n)
  ∧ (∀ k h, history n !! k = Some h → k ≠ EQUIVOCATION_DELAY → h = s0).

(** [no_adjacent_slots] as a proposition. *)
Definition isolated (slots : list Z) : Prop :=
  ∀ a b, a ∈ slots → b ∈ slots → b ∉ neighbors_q6 a.

End Gossip.

Arguments Node R : clear implicits.
Arguments RunResult R : clear implicits.

(** Sample inputs for running the audit: eight identity hashes whose slots
    [0, 3, 5, 6, 9, 10, 12, 15] all have an even number of bits set, so
    that no two of them differ in exactly one bit; and a generator, a
    counter that loses every fourth packet and cycles through the delays
    [0..8]. *)
Definition sample_digest_prefix (i : nat) : Z :=
  nth i [64; 3; 133; 6; 9; 74; 12; 15] 0.

Definition sample_address (i : nat) : string := "fd00::".

Definition sample_packet_lost (r : nat) : bool * nat :=
  (bool_decide (r `mod` 4 = 3)%nat, S r).

Definition sample_draw_delay (r : nat) : nat * nat := ((r `mod` 9)%nat, S r).

End MegaCoupledStress.

(** ** tklocal_epoch_finality_audit.py: the audit runner *)

Module EpochFinalityRun.

Import EpochFinalityAudit.

Definition MAX_EPOCHS : nat := 128.
Definition FINALITY_WINDOW : Z := 8.
Definition ADVERSARIAL_DELAY : Z := 32.

(** [@dataclass class AuditResult], without the wall-clock [runtime]. *)
Record AuditResult := mkAuditResult {
  safety_ok : bool;
  res_final_root : option Z;
  detection_epoch : option Z;
  rejected_parent : option Z;
  res_verifier_ops : nat
}.

(** The parent the honest build gives epoch [e]: [e - 1 if e > 0 else
    None]. *)
Definition honest_parent (e : Z) : option Z :=
  if bool_decide (e > 0) then Some (e - 1) else None.

Section WithHash.

Variable hash : Z → option Z → Z.

(** The loop "honest history build" of [run_epoch_finality_audit], for [n]
    more epochs from epoch [e] on, with the finality window [window]. *)
Fixpoint honest_build (window : Z) (n : nat) (e : Z) (ledger : EpochLedger)
    : EpochLedger :=
  match n with
  | O => ledger
  | S n' =>
      let ledger := (add_epoch hash e (honest_parent e) ledger).2 in
      let ledger :=
        if bool_decide (window ≤ e)
        then finalize_up_to (e - window) ledger
        else ledger in
      honest_build window n' (e + 1) ledger
  end.

(** [run_epoch_finality_audit], given the value [target_parent] drawn by
    [random.randint(0, MAX_EPOCHS - FINALITY_WINDOW - 1)]. *)
Definition run_epoch_finality_audit (target_parent : Z) : AuditResult :=
  let ledger := honest_build FINALITY_WINDOW MAX_EPOCHS 0 new_ledger in
  let final_root := final_root ledger in
  let delayed_epoch := Z.of_nat MAX_EPOCHS + ADVERSARIAL_DELAY in
  let '(accepted, ledger) :=
    try_late_injection hash delayed_epoch target_parent ledger in
  {| safety_ok := negb accepted;
     res_final_root := final_root;
     detection_epoch := if negb accepted then Some delayed_epoch else None;
     rejected_parent := if negb accepted then Some target_parent else None;
     res_verifier_ops := verifier_ops ledger |}.

(** [main]: the hard safety gate after the run. *)
Definition main (target_parent : Z) : Result AuditResult :=
  let result := run_epoch_finality_audit target_parent in
  if negb (safety_ok result) then Raise "FINALITY VIOLATION DETECTED"
  else Ok result.

(** The ledger the honest build leaves after the epochs [0 .. m - 1]: one
    node per epoch in ascending order, finalized up to [m - 1 - window]. *)
Definition built_node (window : Z) (m : nat) (e : nat) : Z * EpochNode :=
  (Z.of_nat e,
   mkNode (Z.of_nat e) (honest_parent (Z.of_nat e))
     (hash (Z.of_nat e) (honest_parent (Z.of_nat e)))
     (bool_decide (Z.of_nat e ≤ Z.of_nat m - 1 - window))).

Definition built (window : Z) (m : nat) : EpochLedger :=
  {| nodes := built_node window m <$> seq 0 m;
     final_root :=
       if bool_decide (window < Z.of_nat m)
       then Some (hash (Z.of_nat m - 1 - window)
                    (honest_parent (Z.of_nat m - 1 - window)))
       else None;
     verifier_ops := m |}.

(** The operations that bump [verifier_ops]: [add_epoch] and
    [try_late_injection]; [finalize_up_to] does not. *)
Definition counted (o : Op) : bool :=
  match o with
  | AddEpoch _ _ | TryLateInjection _ _ => true
  | FinalizeUpTo _ => false
  end.

End WithHash.

End EpochFinalityRun.

(** ** tklocal_equivocation_audit.py: the audit run *)

Module EquivocationRun.
Import EquivocationAudit.

Definition MAX_EPOCHS : nat := 64.

(** [@dataclass class AuditResult], without the wall-clock [runtime]. *)
Record AuditResult := mkResult {
  equivocation_detected : bool;
  detection_epoch : option Z;
  rejected_branch : option string;
  verifier_ops : nat;
  final_root : Z
}.

Section Run.

Context {R : Type} `{Arith R}.

(** [commit(epoch, parent, value)]: the interpreter's hash of the tuple
    [(epoch, parent, round(value, 8))]. *)
Variable commit : Z → Z → R → Z.

(** The value [random.uniform(-1.0, 1.0)] returns in the given epoch (one
    draw per epoch, in the adversarial call of [evolve_branch]). *)
Variable uniform : Z → R.

Definition CONTRACTIVITY : R := lit 0.9.

(** [@dataclass class BranchState] *)
Record BranchState := mkBranch {
  name : string;
  state_value : R;
  current_root : Z;
  history : list EpochCommitment
}.

(** [evolve_branch] *)
Definition evolve_branch (branch : BranchState) (epoch : Z)
    (forced_parent : option Z) (adversarial : bool) : BranchState :=
  let delta := if adversarial then uniform epoch else lit 0.5 in
  let new_state :=
    fadd (fmul CONTRACTIVITY (state_value branch))
         (fmul (fsub (lit 1) CONTRACTIVITY) delta) in
  let parent :=
    match forced_parent with
    | Some p => p
    | None => current_root branch
    end in
  let new_root := commit epoch parent new_state in
  {| name := name branch;
     state_value := new_state;
     current_root := new_root;
     history := history branch ++ [mkCommitment epoch parent new_root] |}.

(** [branch.history[-1]]; an empty list raises [IndexError]. *)
Definition history_last (branch : BranchState) : Result EpochCommitment :=
  match last (history branch) with
  | Some c => Ok c
  | None => Raise "IndexError: list index out of range"
  end.

(** [for branch in (branch_A, branch_B): ...]: the first detection breaks
    out of the loop. *)
Definition submit_both (branch_A branch_B : BranchState)
    (verifier : EquivocationVerifier) : Result (Verdict * EquivocationVerifier) :=
  c ← history_last branch_A;
  let r := observe c (name branch_A) verifier in
  if fst (fst (fst r)) then Ok r
  else
    c ← history_last branch_B;
    Ok (observe c (name branch_B) (snd r)).

(** The loop over the epochs of [run_equivocation_audit], and the result
    built after it. *)
Fixpoint epoch_loop (epochs : list Z) (branch_A branch_B : BranchState)
    (verifier : EquivocationVerifier) : Result AuditResult :=
  match epochs with
  | [] =>
      Ok {| equivocation_detected := false;
            detection_epoch := None;
            rejected_branch := None;
            verifier_ops := ops verifier;
            final_root := current_root branch_A |}
  | epoch :: rest =>
      let branch_A := evolve_branch branch_A epoch None false in
      c ← history_last branch_A;
      let forced_parent := parent_root c in
      let branch_B := evolve_branch branch_B epoch (Some forced_parent) true in
      '(detected, ep, offender, verifier) ←
        submit_both branch_A branch_B verifier;
      if detected : bool
      then Ok {| equivocation_detected := true;
                 detection_epoch := ep;
                 rejected_branch := offender;
                 verifier_ops := ops verifier;
                 final_root := current_root branch_A |}
      else epoch_loop rest branch_A branch_B verifier
  end.

Definition genesis_root : Z := commit 0 0 (lit 0.0).

(** [run_equivocation_audit] *)
Definition run_equivocation_audit : Result AuditResult :=
  epoch_loop (Z.of_nat <$> seq 1 MAX_EPOCHS)
    (mkBranch "Branch_A" (lit 0.0) genesis_root [])
    (mkBranch "Branch_B" (lit 0.0) genesis_root [])
    new_verifier.

(** [main]: the hard safety gate after the run. *)
Definition main : Result AuditResult :=
  result ← run_equivocation_audit;
  if negb (equivocation_detected result)
  then Raise "EQUIVOCATION NOT DETECTED — SAFETY FAILURE"
  else Ok result.

(** One step of the branch recurrence. *)
Definition next_state (s delta : R) : R :=
  fadd (fmul CONTRACTIVITY s) (fmul (fsub (lit 1) CONTRACTIVITY) delta).

(** The honest branch after [n] epochs: its state value and its root. *)
Fixpoint honest (n : nat) : R * Z :=
  match n with
  | O => (lit 0.0, genesis_root)
  | S k =>
      let s := next_state (honest k).1 (lit 0.5) in
      (s, commit (Z.of_nat (S k)) (honest k).2 s)
  end.

(** The state value of the forced branch after [n] epochs, and the root it
    commits to in epoch [n] on the honest parent. *)
Fixpoint forced_state (n : nat) : R :=
  match n with
  | O => lit 0.0
  | S k => next_state (forced_state k) (uniform (Z.of_nat (S k)))
  end.

Definition forced_root (n : nat) : Z :=
  commit (Z.of_nat n) (honest (pred n)).2 (forced_state n).

(** The first epoch of a list in which the two branches commit to different
    roots. *)
Definition first_divergence (epochs : list nat) : option nat :=
  head (filter (λ e, forced_root e ≠ (honest e).2) epochs).

(** What the run reports for the epochs [1 .. n], given the first
    divergence among them. *)
Definition report (n : nat) (d : option nat) : AuditResult :=
  match d with
  | Some e =>
      {| equivocation_detected := true;
         detection_epoch := Some (Z.of_nat e);
         rejected_branch := Some "Branch_B";
         verifier_ops := 2 * e;
         final_root := (honest e).2 |}
  | None =>
      {| equivocation_detected := false;
         detection_epoch := None;
         rejected_branch := None;
         verifier_ops := 2 * n;
         final_root := (honest n).2 |}
  end.

End Run.

Arguments BranchState R : clear implicits.

End EquivocationRun.

(** ** tklocal_ivc_folding_equivocation_audit.py: the entry point *)

Module IvcFoldingRun.
Import IvcFoldingAudit.

Section Run.

Context {R : Type} `{Arith R}.

(** [main], given the honest draws: the hard safety gate after the run. *)
Definition main (draws : list R) : Result (AuditResult R) :=
  let result := run_ivc_folding_equivocation_audit draws in
  if negb (equivocation_detected result)
  then Raise "IVC FOLDING EQUIVOCATION NOT DETECTED — SAFETY FAILURE"
  else Ok result.

End Run.

End IvcFoldingRun.

(** ** tklocal_adversarial_audit.py: scheduler, fault injector and run *)

Module AdversarialRun.
Import AdversarialAudit.

Definition MAX_FRAMES : nat := 2048.
Definition FAULT_FRACTION : float := float_of_decimal 0.15.
Definition MAX_DELAY : nat := 32.
Definition MAX_REPLAYS : nat := 64.
Definition MAX_RECOVERY_EPOCHS : nat := 32.
Definition MAX_VERIFIER_OPS : Z := 50000.

(** [int(x)] on a double: truncation toward zero.  On an infinity or a NaN
    the interpreter raises, and the model has [None]. *)
Definition int_of_float (x : float) : option Z :=
  match Prim2SF x with
  | S754_zero _ => Some 0
  | S754_finite s m e =>
      let v := if 0 <=? e then Zpos m * 2 ^ e else Zpos m / 2 ^ (- e) in
      Some (if s then - v else v)
  | _ => None
  end.

(** [int(fraction * n)] for a list length [n]: the product is a double
    product, whatever the arithmetic of the frame values.  (The product of
    a length and one of the script's fractions is finite, so the default
    is never used.) *)
Definition scaled_length (fraction : float) (n : nat) : nat :=
  from_option Z.to_nat 0%nat
    (int_of_float (PrimFloat.mul fraction (float_of_Z (Z.of_nat n)))).

(** [range(0, n, MAX_DELAY)] *)
Definition block_starts (n : nat) : list nat :=
  (λ k, k * MAX_DELAY)%nat <$> seq 0 ((n + MAX_DELAY - 1) / MAX_DELAY).

Section Scheduler.

Context {R : Type} `{Arith R}.

#[local] Abbreviation Frame := (Frame R).

(** [blocks = [self.buffer[i:i + MAX_DELAY] for i in range(...)]] *)
Definition blocks (buffer : list Frame) : list (list Frame) :=
  (λ i, take MAX_DELAY (drop i buffer)) <$> block_starts (length buffer).

(** [for block in blocks: scheduled.extend(reversed(block))] *)
Definition reverse_blocks (buffer : list Frame) : list Frame :=
  mjoin (reverse <$> blocks buffer).

(** [Frame(index=f.index, value=f.value, valid=True, stale=True)] *)
Definition stale_copy (f : Frame) : Frame :=
  {| index := index f; value := value f; valid := true; stale := true |}.

(** [scheduled.pop(i)] for each drawn position in turn. *)
Definition pop_all (positions : list nat) (scheduled : list Frame)
    : list Frame :=
  fold_left (λ l i, delete i l) positions scheduled.

(** [AdversarialScheduler.schedule] on the buffer [submit] has filled.
    [replay_positions] are the positions of the frames
    [random.sample(scheduled, k)] returns, in its order, and
    [pop_positions] the values of the successive
    [random.randrange(len(scheduled))] calls. *)
Definition schedule (buffer : list Frame)
    (replay_positions pop_positions : list nat) : list Frame :=
  let scheduled := reverse_blocks buffer in
  let k := Nat.min MAX_REPLAYS (length scheduled) in
  let replays := omap (λ i, scheduled !! i) (take k replay_positions) in
  let scheduled := scheduled ++ (stale_copy <$> replays) in
  let drops := scaled_length (float_of_decimal 0.05) (length scheduled) in
  pop_all (take drops pop_positions) scheduled.

(** [f.value += delta; f.valid = False] *)
Definition corrupt (delta : R) (f : Frame) : Frame :=
  {| index := index f; value := fadd (value f) delta; valid := false;
     stale := stale f |}.

(** [FaultInjector.inject].  [positions] are the positions of the frames
    [random.sample(frames, n)] returns, and [deltas] the successive
    [random.uniform(-1.0, 1.0)] draws.  The frames of the list are
    distinct objects, so the update in place touches one position. *)
Definition inject (fraction : float) (frames : list Frame)
    (positions : list nat) (deltas : list R) : list Frame :=
  let n := scaled_length fraction (length frames) in
  fold_left (λ fs p, alter (corrupt p.2) p.1 fs)
    (zip (take n positions) deltas) frames.

(** [@dataclass class AuditResult], without the wall-clock [runtime]. *)
Record AuditResult := mkResult {
  safety_ok : bool;
  liveness_ok : bool;
  max_residual : R;
  res_verifier_ops : nat;
  epochs_to_recover : nat
}.

Definition RESIDUAL_BOUND : R := lit 1e-2.

(** [recovered_epoch] after one more frame: set to [i] the first time the
    residual list is not empty and its last entry is below the bound. *)
Definition note_recovery (i : nat) (agg : Aggregator R)
    (recovered_epoch : option nat) : option nat :=
  match last (residuals agg) with
  | Some r =>
      if fgt RESIDUAL_BOUND r
      then match recovered_epoch with
           | None => Some i
           | Some _ => recovered_epoch
           end
      else recovered_epoch
  | None => recovered_epoch
  end.

(** [for i, frame in enumerate(corrupted): ...] *)
Fixpoint process_loop (frames : list Frame) (i : nat) (agg : Aggregator R)
    (recovered_epoch : option nat) : Aggregator R * option nat :=
  match frames with
  | [] => (agg, recovered_epoch)
  | frame :: rest =>
      let agg := process frame agg in
      let recovered_epoch := note_recovery i agg recovered_epoch in
      if bool_decide (MAX_VERIFIER_OPS < Z.of_nat (verifier_ops agg))
      then (agg, recovered_epoch)
      else process_loop rest (S i) agg recovered_epoch
  end.

(** [max(agg.residuals) if agg.residuals else 0.0] *)
Definition max_of (l : list R) : R :=
  match l with
  | [] => lit 0.0
  | x :: rest => fold_left fmax rest x
  end.

(** The part of [run_adversarial_audit] after the frames are made. *)
Definition audit_frames (frames : list Frame)
    (replay_positions pop_positions inject_positions : list nat)
    (deltas : list R) : AuditResult :=
  let scheduled := schedule frames replay_positions pop_positions in
  let corrupted := inject FAULT_FRACTION scheduled inject_positions deltas in
  let '(agg, recovered_epoch) :=
    process_loop corrupted 0 new_aggregator None in
  let recovered_epoch := default (length corrupted) recovered_epoch in
  {| safety_ok := bool_decide (recovered_epoch ≤ MAX_RECOVERY_EPOCHS)%nat;
     liveness_ok := true;
     max_residual := max_of (residuals agg);
     res_verifier_ops := verifier_ops agg;
     epochs_to_recover := recovered_epoch |}.

(** [run_adversarial_audit], given the draws: [values] are the frame values
    [random.uniform(-1, 1)], one per frame. *)
Definition run_adversarial_audit (values : list R)
    (replay_positions pop_positions inject_positions : list nat)
    (deltas : list R) : AuditResult :=
  let frames :=
    imap (λ i v, mkFrame (Z.of_nat i) v true false) (take MAX_FRAMES values) in
  audit_frames frames replay_positions pop_positions inject_positions deltas.

(** [main]: the hard safety gate after the run. *)
Definition main (values : list R)
    (replay_positions pop_positions inject_positions : list nat)
    (deltas : list R) : Result AuditResult :=
  let result :=
    run_adversarial_audit values replay_positions pop_positions
      inject_positions deltas in
  if negb (safety_ok result) then Raise "SAFETY VIOLATION DETECTED"
  else Ok result.

(** The draws [random.randrange(len(scheduled))] can return while the list
    shrinks from [n] elements: the [k]-th one is below [n - k]. *)
Definition pops_in_range (n : nat) (positions : list nat) : Prop :=
  ∀ k i, positions !! k = Some i → (i < n - k)%nat.

End Scheduler.

Arguments AuditResult R : clear implicits.

(** Sample frames and draws for running the scheduler and the audit: [n]
    frames of value [0.5], replays of the first positions, pops at the
    head of the list, and faults in the last 301 frames. *)
Definition sample_frames (n : nat) : list (AdversarialAudit.Frame float) :=
  imap (λ i v, mkFrame (Z.of_nat i) v true false) (replicate n (lit 0.5)).

Definition sample_values : list float := replicate 2048 (lit 0.5).
Definition sample_replays : list nat := seq 0 64.
Definition sample_pops : list nat := replicate 105 0%nat.
Definition sample_faults : list nat := seq 1706 301.
Definition sample_deltas : list float := replicate 301 (lit 0.25).

End AdversarialRun.

(** ** tklocal_signed_equivocation_replay_audit.py: the inbox by due epoch *)

Module SignedDelivery.
Import SignedReplayAudit.

Section Delivery.

Context {State Sig : Type} `{Countable State} `{Countable Sig}.

Variable verify : Z → State → Sig → bool.

#[local] Abbreviation Frame := (SignedFrame State Sig).
#[local] Abbreviation Log := (list (SignedFrame State Sig * Outcome)).

(** [verifier_ops += 1] at the top of an epoch. *)
Definition count_epoch (t : Tracker State Sig) : Tracker State Sig :=
  {| seen_frames := seen_frames t; seen_epochs := seen_epochs t;
     equivocation_detected := equivocation_detected t;
     replay_detected := replay_detected t;
     detection_epoch := detection_epoch t;
     verifier_ops := S (verifier_ops t) |}.

(** The body of the delivery loop on a list of frames, in order. *)
Fixpoint deliver_all (now : Z) (frames : list Frame) (log : Log)
    (t : Tracker State Sig) : Result (Log * Tracker State Sig) :=
  match frames with
  | [] => Ok (log, t)
  | f :: rest =>
      '(o, t1) ← deliver_frame verify now f t;
      deliver_all now rest (log ++ [(f, o)]) t1
  end.

(** The frames of an inbox whose delay has run out, and the others with
    the delay decremented. *)
Definition zero_delay (inbox : list (Frame * nat)) : list Frame :=
  inbox ≫= λ p, match p.2 with O => [p.1] | S _ => [] end.

Definition decremented (inbox : list (Frame * nat)) : list (Frame * nat) :=
  inbox ≫= λ p, match p.2 with O => [] | S d => [(p.1, d)] end.

Variable arrivals : Z → list (Frame * nat).

(** A frame that arrived in epoch [a] with delay [d], seen from epoch [k]:
    still waiting when [k ≤ a + d], with [a + d - k] rounds to go. *)
Definition waiting (k a : nat) (p : Frame * nat) : list (Frame * nat) :=
  if decide (k ≤ a + p.2)%nat then [(p.1, (a + p.2 - k)%nat)] else [].

(** The inbox at the start of epoch [k], before the frames of epoch [k]
    are appended, and the frames due in epoch [k]: in both, earlier
    arrivals come first, and the arrivals of one epoch keep their order. *)
Definition pending (k : nat) : list (Frame * nat) :=
  seq 0 k ≫= λ a, arrivals (Z.of_nat a) ≫= waiting k a.

Definition due (k : nat) : list Frame :=
  seq 0 (S k) ≫= λ a,
    arrivals (Z.of_nat a) ≫= λ p,
      if decide (a + p.2 = k)%nat then [p.1] else [].

(** The frames delivered in the epochs [0 .. n - 1], in delivery order. *)
Definition delivered (n : nat) : list Frame := seq 0 n ≫= due.

(** The epoch loop with the inbox replaced by the frames due: [n] epochs
    from epoch [k] on. *)
Fixpoint deliver_epochs (n k : nat) (log : Log) (t : Tracker State Sig)
    : Result (Log * Tracker State Sig) :=
  match n with
  | O => Ok (log, t)
  | S n' =>
      '(log1, t1) ← deliver_all (Z.of_nat k) (due k) log (count_epoch t);
      deliver_epochs n' (S k) log1 t1
  end.

(** The state of the first frame of a sequence that is for epoch [e]. *)
Definition first_state (frames : list Frame) (e : Z) : option State :=
  state <$> head (filter (λ f, epoch f = e) frames).

(** What ties the tracker to the sequence of frames delivered so far. *)
Definition tracks (frames : list Frame) (t : Tracker State Sig) : Prop :=
  (∀ e, seen_epochs t !! e = first_state frames e)
  ∧ (∀ id, id ∈ seen_frames t
           ↔ (∃ f, f ∈ frames ∧ frame_id f = id)
             ∧ first_state frames id.1.1 = Some id.1.2)
  ∧ (equivocation_detected t = true
     ↔ ∃ f g, f ∈ frames ∧ g ∈ frames
              ∧ epoch f = epoch g ∧ state f ≠ state g)
  ∧ (replay_detected t = true
     ↔ ∃ i j f g, (i < j)%nat
                  ∧ frames !! i = Some f ∧ frames !! j = Some g
                  ∧ frame_id f = frame_id g
                  ∧ first_state frames (epoch g) = Some (state g)).

End Delivery.

(** A run of the script with integers for states and signatures: a
    signature is the sum of epoch and state, the state shrinks by a tenth
    per epoch from [1000000], the forged state is [500] above the honest
    one, and the second frame appended in an epoch (the forged frame of
    epoch 12, the replay of epoch 20) waits two rounds where the honest
    frame waits five. *)
Definition sample_sign (e s : Z) : Z := e + s.
Definition sample_check (e s sg : Z) : bool := bool_decide (sg = e + s).
Definition sample_evolve (s : Z) : Z := s * 9 / 10.
Definition sample_forge (s : Z) : Z := s + 500.
Definition sample_initial : Z := 1000000.
Definition sample_delay (e : Z) (i : nat) : nat :=
  match i with O => 5%nat | S _ => 2%nat end.

End SignedDelivery.

(** ** tklocal_mega_coupled_stress_audit.py: address and slot of a node *)

Module Identity.
Import MegaCoupledStress.
Import Stdlib.Strings.Ascii.

(** [ULA_PREFIX = "fd00"] *)
Definition ULA_PREFIX : list ascii := String.list_ascii_of_string "fd00".

(** One hexadecimal digit, lower case, as [bytes.hex] writes it. *)
Definition hex_digit (n : nat) : ascii :=
  nth n (String.list_ascii_of_string "0123456789abcdef") "?"%char.

(** [bytes.hex()]: two digits per byte, high nibble first. *)
Definition hex_of_byte (b : Byte.byte) : list ascii :=
  let n := Byte.to_nat b in
  [hex_digit (n / 16); hex_digit (n mod 16)].

Definition hex (bs : list Byte.byte) : list ascii := bs ≫= hex_of_byte.

(** [l[-k:]] for [k > 0]: the last [k] items, or all of a shorter list. *)
Definition last_items {A} (k : nat) (l : list A) : list A :=
  drop (length l - k) l.

(** [l[i:j]] for indexes that are not negative. *)
Definition slice {A} (i j : nat) (l : list A) : list A :=
  take (j - i) (drop i l).

(** [sep.join(parts)] *)
Fixpoint join (sep : list ascii) (parts : list (list ascii)) : list ascii :=
  match parts with
  | [] => []
  | [p] => p
  | p :: rest => p ++ sep ++ join sep rest
  end.

(** [range(0, 30, 4)] *)
Definition group_starts : list nat := (λ k, 4 * k)%nat <$> seq 0 8.

(** The address written from the 30 hex digits:
    [f"{ULA_PREFIX}:{':'.join(groups)}"] with
    [groups = [hex_str[i:i+4] for i in range(0, 30, 4)]]. *)
Definition address_of_hex (hex_str : list ascii) : list ascii :=
  let groups := (λ i, slice i (i + 4) hex_str) <$> group_starts in
  ULA_PREFIX ++ [":"%char] ++ join [":"%char] groups.

(** [derive_ipv6] *)
Definition derive_ipv6 (h : list Byte.byte) : string :=
  let lower := last_items 15 h in
  let hex_str := hex lower in
  String.string_of_list_ascii (address_of_hex hex_str).

(** [int.from_bytes(bs, "big")] *)
Definition int_from_bytes_big (bs : list Byte.byte) : Z :=
  fold_left (λ acc b, 256 * acc + Z.of_nat (Byte.to_nat b)) bs 0.

(** [q_node = int.from_bytes(h[:2], "big") % Q_NODES] *)
Definition slot_of_digest (h : list Byte.byte) : Z :=
  int_from_bytes_big (slice 0 2 h) `mod` Q_NODES.

(** Reading an address back: the characters that are not separators. *)
Definition digits_of (address : list ascii) : list ascii :=
  filter (λ c, c ≠ ":"%char) address.

(** A sample digest: the bytes [0x00 .. 0x1f]. *)
Definition sample_digest : list Byte.byte :=
  omap (λ n, Byte.of_nat n) (seq 0 32).

(** Reading hex digits back, to tell addresses apart: the value of a digit
    and the byte two digits stand for. *)
Definition digit_value (c : ascii) : nat :=
  from_option fst 0%nat
    (list_find (λ d, d = c) (String.list_ascii_of_string "0123456789abcdef")).

Fixpoint unhex (digits : list ascii) : list Byte.byte :=
  match digits with
  | c1 :: c2 :: rest =>
      from_option (λ b, [b]) [] (Byte.of_nat (16 * digit_value c1 + digit_value c2))
      ++ unhex rest
  | _ => []
  end.

End Identity.

(** ** tklocal_mega_coupled_stress_audit.py: who can reach whom *)

Module GossipEdges.
Import MegaCoupledStress.

Section Edges.

Context {R : Type} `{Arith R}.

(** The id and the slot of every node, in dict order. *)
Definition directory (nodes : list (Node R)) : list (Z * Z) :=
  (λ n, (node_id n, q_node n)) <$> nodes.

(** Every entry of the inbox of [m] names a sender that sits, by the
    directory [D], on a slot of which the slot of [m] is a neighbour. *)
Definition along_edges (D : list (Z * Z)) (m : Node R) : Prop :=
  Forall (λ msg : Z * R * nat,
            ∃ q, (msg.1.1, q) ∈ D ∧ q_node m ∈ neighbors_q6 q)
    (inbox m).

End Edges.

(** Eight nodes on the slots [0 .. 7], with empty inboxes, for running the
    rounds in double arithmetic. *)
Definition sample_nodes : list (Node float) :=
  (λ i, {| node_id := Z.of_nat i; ipv6 := sample_address i;
           q_node := Z.of_nat i; state := ivc_state; inbox := [];
           history := ∅ |}) <$> seq 0 8.

End GossipEdges.

(** * Properties *)

(** ** Literals *)

(** In double arithmetic [lit] gives the doubles the interpreter reads the
    literals of the scripts as (written here in hexadecimal, as
    [float.hex] prints them). *)
Example binary64_literals :
  lit (R:=float) 0.9 = 0x1.ccccccccccccdp-1%float
  ∧ lit (R:=float) 0.1 = 0x1.999999999999ap-4%float
  ∧ lit (R:=float) 0.85 = 0x1.b333333333333p-1%float
  ∧ lit (R:=float) 1e-6 = 0x1.0c6f7a0b5ed8dp-20%float
  ∧ lit (R:=float) 0.5 = 0x1p-1%float
  ∧ lit (R:=float) 0.25 = 0x1p-2%float
  ∧ lit (R:=float) 0.0 = 0x0p+0%float
  ∧ lit (R:=float) 1.0 = 0x1p+0%float.
Proof. vm_compute. by repeat split. Qed.

(** ** The equivocation verifier *)

Module EquivocationFacts.

Import EquivocationAudit.

(** The two ways out of [observe], by what [seen] holds for the key. *)
Lemma observe_conflict c b v r o :
  seen v !! key_of c = Some (r, o) → r ≠ state_root c →
  observe c b v =
    ((true, Some (epoch c), Some b), {| seen := seen v; ops := S (ops v) |}).
Proof.
  intros Hk Hne. unfold observe. rewrite Hk.
  by rewrite bool_decide_eq_true_2.
Qed.

Lemma observe_store c b v :
  (∀ r o, seen v !! key_of c = Some (r, o) → r = state_root c) →
  observe c b v =
    ((false, None, None),
     {| seen := <[key_of c := (state_root c, b)]> (seen v);
        ops := S (ops v) |}).
Proof.
  intros Hk. unfold observe.
  destruct (seen v !! key_of c) as [[r o]|] eqn:E; [|done].
  rewrite bool_decide_eq_false_2; [done|].
  intros Hne. apply Hne. by eapply Hk.
Qed.

Lemma observe_ops c b v : ops (observe c b v).2 = S (ops v).
Proof. by observe_cases c v. Qed.

(** A recorded root survives any single call, whatever its key. *)
Lemma observe_keeps_root c b v k r :
  recorded_root v k = Some r → recorded_root (observe c b v).2 k = Some r.
Proof.
  unfold recorded_root. intros Hk.
  destruct (seen v !! k) as [[r' o]|] eqn:E; simplify_eq/=.
  destruct (decide (key_of c = k)) as [<-|Hne].
  - destruct (decide (r = state_root c)) as [->|Hr].
    + rewrite observe_store; [|intros; congruence].
      simpl. by rewrite lookup_insert_eq.
    + erewrite observe_conflict by done. simpl. by rewrite E.
  - observe_cases c v; rewrite ?lookup_insert_ne by done; by rewrite E.
Qed.

(** A call on an unrecorded key records the root it carries. *)
Lemma observe_first c b v :
  recorded_root v (key_of c) = None →
  recorded_root (observe c b v).2 (key_of c) = Some (state_root c).
Proof.
  unfold recorded_root. intros Hk.
  destruct (seen v !! key_of c) eqn:E; [done|].
  rewrite observe_store; [|intros; congruence].
  simpl. by rewrite lookup_insert_eq.
Qed.

(** A call leaves the other keys alone. *)
Lemma observe_other_key c b v k :
  key_of c ≠ k → seen (observe c b v).2 !! k = seen v !! k.
Proof.
  intros Hne. observe_cases c v; by rewrite ?lookup_insert_ne.
Qed.

Lemma observe_all_app pre post v :
  observe_all (pre ++ post) v = observe_all post (observe_all pre v).
Proof.
  revert v. induction pre as [|[c b] pre IH]; intros v; simpl; [done|].
  apply IH.
Qed.

Lemma observe_all_keeps_root calls v k r :
  recorded_root v k = Some r → recorded_root (observe_all calls v) k = Some r.
Proof.
  revert v. induction calls as [|[c b] calls IH]; intros v Hk; simpl; [done|].
  apply IH. by apply observe_keeps_root.
Qed.

(** What is recorded for a key after a sequence of calls is the root of
    the first call that used the key. *)
Lemma observe_all_first_root calls v k :
  recorded_root v k = None →
  recorded_root (observe_all calls v) k = first_root k calls.
Proof.
  revert v. induction calls as [|[c b] calls IH]; intros v Hk; simpl; [done|].
  destruct (decide (key_of c = k)) as [<-|Hne].
  - apply observe_all_keeps_root. by apply observe_first.
  - apply IH. unfold recorded_root in *. by rewrite observe_other_key.
Qed.

Lemma observe_all_ops calls v :
  ops (observe_all calls v) = (ops v + length calls)%nat.
Proof.
  revert v. induction calls as [|[c b] calls IH]; intros v; simpl; [lia|].
  rewrite IH, observe_ops. lia.
Qed.

(** C1.  Take any sequence [pre] of [observe] calls on a fresh verifier in
    which the key of [c] was first used with the state root [r], and let
    [c] carry a different state root.  Then observing [c] next reports
    equivocation (with the epoch of [c] and the caller's label), and the
    root recorded for the key is still [r], right after the call and after
    any further sequence [post] of calls. *)
Theorem observe_no_silent_equivocation
    (pre post : list (EpochCommitment * string))
    (c : EpochCommitment) (b : string) (r : Z) :
  first_root (key_of c) pre = Some r →
  state_root c ≠ r →
  let v := observe_all pre new_verifier in
  (observe c b v).1 = (true, Some (epoch c), Some b)
  ∧ recorded_root (observe c b v).2 (key_of c) = Some r
  ∧ recorded_root (observe_all (pre ++ (c, b) :: post) new_verifier) (key_of c)
    = Some r.
Proof.
  intros Hfirst Hne v.
  assert (Hrec : recorded_root v (key_of c) = Some r).
  { subst v. rewrite observe_all_first_root; [done|].
    unfold recorded_root, new_verifier. simpl. by rewrite lookup_empty. }
  split; [|split].
  - unfold recorded_root in Hrec.
    destruct (seen v !! key_of c) as [[r' o]|] eqn:E; simplify_eq/=.
    by erewrite observe_conflict.
  - by apply observe_keeps_root.
  - rewrite observe_all_app. simpl.
    apply observe_all_keeps_root. by apply observe_keeps_root.
Qed.

(** C10.  When the key of [c] is recorded with the very state root [c]
    carries, [observe] answers [(False, None, None)] and stores the entry
    again: the root stays, the origin label becomes the caller's. *)
Theorem observe_same_root_relabels
    (v : EquivocationVerifier) (c : EpochCommitment) (b o : string) :
  seen v !! key_of c = Some (state_root c, o) →
  observe c b v =
    ((false, None, None),
     {| seen := <[key_of c := (state_root c, b)]> (seen v);
        ops := S (ops v) |})
  ∧ recorded_root (observe c b v).2 (key_of c) = Some (state_root c)
  ∧ recorded_origin (observe c b v).2 (key_of c) = Some b.
Proof.
  intros Hk.
  assert (Hst : observe c b v =
    ((false, None, None),
     {| seen := <[key_of c := (state_root c, b)]> (seen v);
        ops := S (ops v) |})).
  { apply observe_store. intros r o' Hk'. congruence. }
  split; [done|]. rewrite Hst. unfold recorded_root, recorded_origin. simpl.
  by rewrite lookup_insert_eq.
Qed.

Lemma observe_no_silent_equivocation_witness :
  first_root (key_of sample_forced) [(sample_honest, "Branch_A")] = Some 100
  ∧ state_root sample_forced ≠ 100
  ∧ (observe sample_forced "Branch_B"
       (observe_all [(sample_honest, "Branch_A")] new_verifier)).1
    = (true, Some 1, Some "Branch_B")
  ∧ recorded_root
      (observe sample_forced "Branch_B"
         (observe_all [(sample_honest, "Branch_A")] new_verifier)).2
      (key_of sample_forced) = Some 100
  ∧ recorded_root
      (observe_all
         ([(sample_honest, "Branch_A")]
          ++ (sample_forced, "Branch_B")
             :: [(sample_forced, "Branch_C"); (sample_honest, "Branch_D")])
         new_verifier)
      (key_of sample_forced) = Some 100.
Proof.
  assert (Hfirst : first_root (key_of sample_forced)
                     [(sample_honest, "Branch_A")] = Some 100) by reflexivity.
  assert (Hne : state_root sample_forced ≠ 100) by (simpl; lia).
  split; [exact Hfirst|]. split; [exact Hne|].
  exact (observe_no_silent_equivocation
           [(sample_honest, "Branch_A")]
           [(sample_forced, "Branch_C"); (sample_honest, "Branch_D")]
           sample_forced "Branch_B" 100 Hfirst Hne).
Defined.

Lemma observe_same_root_relabels_witness :
  seen (observe_all [(sample_honest, "Branch_A")] new_verifier)
    !! key_of sample_honest = Some (state_root sample_honest, "Branch_A")
  ∧ (observe sample_honest "Branch_B"
       (observe_all [(sample_honest, "Branch_A")] new_verifier)).1
    = (false, None, None)
  ∧ recorded_root
      (observe sample_honest "Branch_B"
         (observe_all [(sample_honest, "Branch_A")] new_verifier)).2
      (key_of sample_honest) = Some 100
  ∧ recorded_origin
      (observe sample_honest "Branch_B"
         (observe_all [(sample_honest, "Branch_A")] new_verifier)).2
      (key_of sample_honest) = Some "Branch_B".
Proof.
  assert (Hseen :
    seen (observe_all [(sample_honest, "Branch_A")] new_verifier)
      !! key_of sample_honest = Some (state_root sample_honest, "Branch_A"))
    by (vm_compute; reflexivity).
  split; [exact Hseen|].
  destruct (observe_same_root_relabels
              (observe_all [(sample_honest, "Branch_A")] new_verifier)
              sample_honest "Branch_B" "Branch_A" Hseen) as (Hres & Hroot & Horigin).
  split; [by rewrite Hres|]. split; [exact Hroot|exact Horigin].
Defined.

End EquivocationFacts.

(** ** The epoch ledger *)

Module LedgerFacts.

Import EpochFinalityAudit.

Lemma dict_get_set_eq d k n : dict_get (dict_set d k n) k = Some n.
Proof.
  induction d as [|[k' n'] d IH]; simpl.
  - by rewrite decide_True.
  - destruct (decide (k' = k)) as [->|Hne]; simpl.
    + by rewrite decide_True.
    + by rewrite decide_False.
Qed.

Lemma dict_get_set_ne d k k' n :
  k ≠ k' → dict_get (dict_set d k n) k' = dict_get d k'.
Proof.
  intros Hne. induction d as [|[k0 n0] d IH]; simpl.
  - by rewrite decide_False.
  - destruct (decide (k0 = k)) as [->|Hk]; simpl.
    + by rewrite !decide_False.
    + destruct (decide (k0 = k')); [done|apply IH].
Qed.

(** Storing under a key never removes a key. *)
Lemma dict_set_keeps_keys d k n k' :
  is_Some (dict_get d k') → is_Some (dict_get (dict_set d k n) k').
Proof.
  intros Hk'. destruct (decide (k = k')) as [->|Hne].
  - rewrite dict_get_set_eq. eauto.
  - by rewrite dict_get_set_ne.
Qed.

(** The loop of [finalize_up_to], item by item. *)
Lemma finalize_fold upto items visited fr :
  fold_left (finalize_item upto) items (visited, fr) =
    (visited ++ (finalize_node upto <$> items), last_root upto items fr).
Proof.
  revert visited fr.
  induction items as [|[e node] items IH]; intros visited fr; simpl.
  - by rewrite app_nil_r.
  - unfold finalize_node at 1. simpl.
    case_bool_decide; simpl; by rewrite IH, <- app_assoc.
Qed.

Lemma finalize_up_to_eq upto L :
  finalize_up_to upto L =
    {| nodes := finalize_node upto <$> nodes L;
       final_root := last_root upto (nodes L) (final_root L);
       verifier_ops := verifier_ops L |}.
Proof. unfold finalize_up_to. by rewrite finalize_fold. Qed.

Lemma finalize_node_idemp upto item :
  finalize_node upto (finalize_node upto item) = finalize_node upto item.
Proof.
  destruct item as [e node]. unfold finalize_node. simpl.
  destruct (bool_decide (e ≤ upto)) eqn:E; simpl; by rewrite E.
Qed.

Lemma last_root_snoc upto items item fr :
  last_root upto (items ++ [item]) fr =
    if bool_decide (item.1 ≤ upto) then Some (root item.2)
    else last_root upto items fr.
Proof. unfold last_root. by rewrite fold_left_app. Qed.

(** The pass does not touch keys or roots, so a second pass sees the same
    candidates for [final_root]. *)
Lemma last_root_finalized upto items fr :
  last_root upto (finalize_node upto <$> items) fr = last_root upto items fr.
Proof.
  induction items as [|item items IH] using rev_ind; [done|].
  rewrite fmap_app. simpl. rewrite !last_root_snoc, IH.
  destruct item as [e node]. unfold finalize_node. simpl.
  destruct (bool_decide (e ≤ upto)) eqn:E; simpl; by rewrite ?E.
Qed.

Lemma last_root_twice upto items fr :
  last_root upto items (last_root upto items fr) = last_root upto items fr.
Proof.
  induction items as [|item items IH] using rev_ind; [done|].
  rewrite !last_root_snoc. case_bool_decide; [done|].
  by rewrite IH.
Qed.

Lemma dict_get_finalized upto d k :
  dict_get (finalize_node upto <$> d) k =
    (λ n, if bool_decide (k ≤ upto) then set_finalized n else n) <$> dict_get d k.
Proof.
  induction d as [|[k' n'] d IH]; simpl; [done|].
  unfold finalize_node at 1. simpl.
  destruct (bool_decide (k' ≤ upto)) eqn:E; simpl;
    destruct (decide (k' = k)) as [->|Hne]; simpl; by rewrite ?E.
Qed.

Lemma finalize_node_commitment upto k n :
  same_commitment n (finalize_node upto (k, n)).2
  ∧ (finalize_node upto (k, n)).1 = k.
Proof.
  unfold finalize_node, same_commitment. simpl.
  by destruct (bool_decide (k ≤ upto)).
Qed.

Section WithHash.

Variable hash : Z → option Z → Z.

Lemma dict_set_keyed d k n :
  keyed_by_epoch d → epoch n = k → keyed_by_epoch (dict_set d k n).
Proof.
  unfold keyed_by_epoch. intros Hd Hn.
  induction d as [|[k' n'] d IH]; simpl.
  - by repeat constructor.
  - inversion_clear Hd as [|? ? Hhd Htl].
    destruct (decide (k' = k)); constructor; auto.
Qed.

Lemma run_op_keyed o L :
  keyed_by_epoch (nodes L) → keyed_by_epoch (nodes (run_op hash o L)).
Proof.
  intros HL. destruct o as [e p|e|e p]; simpl.
  - by apply dict_set_keyed.
  - rewrite finalize_up_to_eq. simpl. unfold keyed_by_epoch in *.
    rewrite Forall_fmap. eapply Forall_impl; [exact HL|].
    intros [k n] Hk. simpl in *. unfold finalize_node. simpl.
    by destruct (bool_decide (k ≤ e)).
  - unfold try_late_injection.
    destruct (match dict_get (nodes L) p with Some n => finalized n | None => false end);
      simpl; [done|]. by apply dict_set_keyed.
Qed.

Lemma run_ops_keyed os L :
  keyed_by_epoch (nodes L) → keyed_by_epoch (nodes (run_ops hash os L)).
Proof.
  revert L. induction os as [|o os IH]; intros L HL; simpl; [done|].
  apply IH. by apply run_op_keyed.
Qed.

Lemma run_op_keeps_keys o L e :
  is_Some (dict_get (nodes L) e) →
  is_Some (dict_get (nodes (run_op hash o L)) e).
Proof.
  intros He. destruct o as [e' p|e'|e' p]; simpl.
  - by apply dict_set_keeps_keys.
  - rewrite finalize_up_to_eq. simpl. rewrite dict_get_finalized.
    by apply fmap_is_Some.
  - unfold try_late_injection.
    destruct (match dict_get (nodes L) p with Some n => finalized n | None => false end);
      simpl; [done|]. by apply dict_set_keeps_keys.
Qed.

Lemma run_ops_keeps_keys os L e :
  is_Some (dict_get (nodes L) e) →
  is_Some (dict_get (nodes (run_ops hash os L)) e).
Proof.
  revert L. induction os as [|o os IH]; intros L He; simpl; [done|].
  apply IH. by apply run_op_keeps_keys.
Qed.

(** C2.  [try_late_injection e p] answers [False] exactly when [p] is a key
    of the node map whose node is finalized, and then the node map is left
    as it was; in every other case it answers [True] and the node map
    gets, under [e], a fresh unfinalized node with parent [p].  Either way
    the call is counted once and [final_root] is not touched. *)
Theorem try_late_injection_rule (L : EpochLedger) (e p : Z) :
  let parent_final :=
    ∃ n, dict_get (nodes L) p = Some n ∧ finalized n = true in
  let res := try_late_injection hash e p L in
  (res.1 = false ↔ parent_final)
  ∧ (parent_final → nodes res.2 = nodes L)
  ∧ (¬ parent_final →
       res.1 = true
       ∧ nodes res.2 =
           dict_set (nodes L) e (fresh_node e (Some p) (hash e (Some p)))
       ∧ dict_get (nodes res.2) e =
           Some (fresh_node e (Some p) (hash e (Some p)))
       ∧ parent (fresh_node e (Some p) (hash e (Some p))) = Some p)
  ∧ verifier_ops res.2 = S (verifier_ops L)
  ∧ final_root res.2 = final_root L.
Proof.
  intros parent_final res. subst parent_final res.
  unfold try_late_injection.
  destruct (dict_get (nodes L) p) as [n|] eqn:Hp; [destruct (finalized n) eqn:Hf|];
    simpl.
  - assert (Hyes : ∃ n0, Some n = Some n0 ∧ finalized n0 = true) by eauto.
    split; [by split|]. split; [done|]. split; [|done].
    intros Hno. by destruct Hno.
  - assert (Hno : ¬ ∃ n0, Some n = Some n0 ∧ finalized n0 = true).
    { intros (n0 & [= <-] & Hf'). congruence. }
    split; [by split|]. split; [done|]. split; [|done].
    intros _. by rewrite dict_get_set_eq.
  - assert (Hno : ¬ ∃ n0 : EpochNode, None = Some n0 ∧ finalized n0 = true).
    { by intros (n0 & ? & _). }
    split; [by split|]. split; [done|]. split; [|done].
    intros _. by rewrite dict_get_set_eq.
Qed.

(** C5, as the code has it.  No operation removes an epoch from the node
    map, over any sequence of operations; [finalize_up_to] changes nothing
    of a node but its flag; a rejected [try_late_injection] leaves the node
    map as it was; [add_epoch] and an accepted [try_late_injection] leave
    the nodes of all other epochs as they were. *)
Theorem ledger_epochs_never_removed :
  (∀ os L e, is_Some (dict_get (nodes L) e) →
             is_Some (dict_get (nodes (run_ops hash os L)) e))
  ∧ (∀ upto L e n, dict_get (nodes L) e = Some n →
       ∃ n', dict_get (nodes (finalize_up_to upto L)) e = Some n'
             ∧ same_commitment n n')
  ∧ (∀ e p L, (try_late_injection hash e p L).1 = false →
       nodes (try_late_injection hash e p L).2 = nodes L)
  ∧ (∀ e p L e', e ≠ e' →
       dict_get (nodes (add_epoch hash e p L).2) e' = dict_get (nodes L) e')
  ∧ (∀ e p L e', e ≠ e' →
       dict_get (nodes (try_late_injection hash e p L).2) e'
       = dict_get (nodes L) e').
Proof.
  repeat split.
  - intros os L e. apply run_ops_keeps_keys.
  - intros upto L e n Hn. rewrite finalize_up_to_eq. simpl.
    rewrite dict_get_finalized, Hn. simpl. eexists. split; [done|].
    unfold same_commitment. by destruct (bool_decide (e ≤ upto)).
  - intros e p L. unfold try_late_injection.
    by destruct (match dict_get (nodes L) p with Some n => finalized n | None => false end).
  - intros e p L e' Hne. simpl. by rewrite dict_get_set_ne.
  - intros e p L e' Hne. unfold try_late_injection.
    destruct (match dict_get (nodes L) p with Some n => finalized n | None => false end);
      simpl; [done|]. by rewrite dict_get_set_ne.
Qed.

(** [final_root] after the loop: the root of the last item whose key is
    within the bound, and the old value when there is none. *)
Lemma last_root_last (upto : Z) (items : list (Z * EpochNode)) (fr : option Z) :
  last_root upto items fr
  = match last (filter (λ item, item.1 ≤ upto) items) with
    | Some item => Some (root item.2)
    | None => fr
    end.
Proof.
  induction items as [|item items IH] using rev_ind; [done|].
  rewrite last_root_snoc, filter_app, filter_cons, filter_nil.
  case_bool_decide as Hitem.
  - rewrite decide_True by done. by rewrite last_snoc.
  - rewrite decide_False by done. by rewrite app_nil_r.
Qed.

(** C8.  A second [finalize_up_to e] right after the first changes nothing
    (node map, flags, [final_root], counter).  The call itself keeps every
    item of the node map in its place, under its key and with the epoch,
    parent and root of its node; it sets the flag of the items whose key
    is at most [e] and leaves the other flags as they are; [final_root]
    becomes the root of the last item within the bound (and stays when
    there is none), and the counter stays.  So after the call every item
    whose key is at most [e] is finalized; in a ledger built by the three
    operations the key of an item is the epoch of its node, so there every
    node that was stored is still stored under its epoch afterwards, and
    is finalized when its own [epoch] field is at most [e]. *)
Theorem finalize_up_to_idempotent (e : Z) (L : EpochLedger) :
  finalize_up_to e (finalize_up_to e L) = finalize_up_to e L
  ∧ length (nodes (finalize_up_to e L)) = length (nodes L)
  ∧ (∀ i k n, nodes L !! i = Some (k, n) →
       ∃ n', nodes (finalize_up_to e L) !! i = Some (k, n')
             ∧ epoch n' = epoch n ∧ parent n' = parent n ∧ root n' = root n
             ∧ finalized n' = (if bool_decide (k ≤ e) then true else finalized n))
  ∧ final_root (finalize_up_to e L)
    = match last (filter (λ item, item.1 ≤ e) (nodes L)) with
      | Some item => Some (root item.2)
      | None => final_root L
      end
  ∧ verifier_ops (finalize_up_to e L) = verifier_ops L
  ∧ (∀ k n, (k, n) ∈ nodes (finalize_up_to e L) → k ≤ e → finalized n = true)
  ∧ (∀ os k n,
       (k, n) ∈ nodes (finalize_up_to e (run_ops hash os new_ledger)) →
       epoch n ≤ e → finalized n = true)
  ∧ (∀ os k n,
       dict_get (nodes (run_ops hash os new_ledger)) k = Some n →
       ∃ n', dict_get (nodes (finalize_up_to e (run_ops hash os new_ledger))) k
             = Some n'
             ∧ epoch n' = epoch n ∧ parent n' = parent n ∧ root n' = root n
             ∧ finalized n'
               = (if bool_decide (epoch n ≤ e) then true else finalized n)).
Proof.
  assert (Hfin : ∀ L' k n,
    (k, n) ∈ nodes (finalize_up_to e L') → k ≤ e → finalized n = true).
  { intros L' k n Hin Hk. rewrite finalize_up_to_eq in Hin. simpl in Hin.
    apply list_elem_of_fmap in Hin as ([k' n'] & Heq & _).
    unfold finalize_node in Heq. simpl in Heq.
    case_bool_decide; simplify_eq; [done|lia]. }
  assert (Hkeyed : ∀ os, keyed_by_epoch (nodes (run_ops hash os new_ledger))).
  { intros os. apply run_ops_keyed. constructor. }
  split; [|split; [|split; [|split; [|split; [|split; [|split]]]]]].
  - rewrite !finalize_up_to_eq. simpl. f_equal.
    + rewrite <- list_fmap_compose. apply list_fmap_ext.
      intros i x _. apply finalize_node_idemp.
    + by rewrite last_root_finalized, last_root_twice.
  - rewrite finalize_up_to_eq. cbn [nodes]. by rewrite length_fmap.
  - intros i k n Hi. rewrite finalize_up_to_eq. cbn [nodes].
    rewrite list_lookup_fmap, Hi. cbn [fmap option_fmap option_map].
    unfold finalize_node. cbn [fst snd].
    case_bool_decide; eexists; (split; [reflexivity|]); done.
  - rewrite finalize_up_to_eq. cbn [final_root]. apply last_root_last.
  - by rewrite finalize_up_to_eq.
  - apply Hfin.
  - intros os k n Hin Hk. eapply Hfin; [exact Hin|].
    assert (Hk' : keyed_by_epoch
      (nodes (run_op hash (FinalizeUpTo e) (run_ops hash os new_ledger)))).
    { apply run_op_keyed, Hkeyed. }
    simpl in Hk'. unfold keyed_by_epoch in Hk'.
    rewrite Forall_forall in Hk'. specialize (Hk' _ Hin).
    simpl in Hk'. lia.
  - intros os k n Hget.
    assert (Hep : epoch n = k).
    { specialize (Hkeyed os). unfold keyed_by_epoch in Hkeyed.
      rewrite Forall_forall in Hkeyed.
      assert (Hin : (k, n) ∈ nodes (run_ops hash os new_ledger)).
      { clear -Hget. induction (nodes (run_ops hash os new_ledger))
          as [|[k' n'] d IH]; [done|].
        simpl in Hget. case_decide.
        - simplify_eq. left.
        - right. by apply IH. }
      by apply (Hkeyed _ Hin). }
    rewrite finalize_up_to_eq. cbn [nodes].
    rewrite (dict_get_finalized e _ k), Hget. cbn [fmap option_fmap option_map].
    rewrite Hep. case_bool_decide; eexists; (split; [reflexivity|]); done.
Qed.

End WithHash.

(** C5 as stated fails: [add_epoch] on an epoch that already has a node
    replaces that node.  After [add_epoch(1, None)] the node of epoch 1 has
    no parent; a further [add_epoch(1, 0)] leaves under epoch 1 a node with
    parent 0, whatever the hash function. *)
Lemma add_epoch_replaces_node :
  parent <$> dict_get (nodes (run_ops sample_hash [AddEpoch 1 None] new_ledger)) 1
  = Some None
  ∧ parent <$> dict_get
        (nodes (run_ops sample_hash [AddEpoch 1 None; AddEpoch 1 (Some 0)]
                  new_ledger)) 1
    = Some (Some 0)
  ∧ ¬ (∃ n n',
         dict_get (nodes (run_ops sample_hash [AddEpoch 1 None] new_ledger)) 1
         = Some n
         ∧ dict_get
             (nodes (run_ops sample_hash [AddEpoch 1 None; AddEpoch 1 (Some 0)]
                       new_ledger)) 1
           = Some n'
         ∧ same_commitment n n').
Proof.
  vm_compute. split; [done|]. split; [done|].
  intros (n & n' & [= <-] & [= <-] & (_ & Hparent & _)). discriminate.
Qed.

(** Runs of the ledger on the stand-in hash: a second [add_epoch] for a
    finalized epoch, and a [try_late_injection] for it under a parent that
    is not in the ledger. *)
Example insertions_on_finalized_epoch :
  let L1 := run_ops sample_hash [AddEpoch 1 None; FinalizeUpTo 1] new_ledger in
  dict_get (nodes L1) 1 = Some (mkNode 1 None 1000003 true)
  ∧ dict_get (nodes (add_epoch sample_hash 1 (Some 0) L1).2) 1
    = Some (mkNode 1 (Some 0) 1000004 false)
  ∧ try_late_injection sample_hash 1 999 L1
    = (true, {| nodes := [(1, mkNode 1 (Some 999) 1001003 false)];
                final_root := Some 1000003; verifier_ops := 2 |}).
Proof. vm_compute. done. Qed.

(** Scenario of the script, on the stand-in hash: epochs 0 to 127 each on
    its predecessor, finalized up to [e - 8] at each step; the late
    injection of epoch 160 under the finalized parent 100 is rejected. *)
Example scenario_late_injection_rejected :
  let build :=
    flat_map (λ e : nat,
      AddEpoch (Z.of_nat e) (if decide (e = 0%nat) then None else Some (Z.of_nat e - 1))
      :: (if decide (8 ≤ e)%nat then [FinalizeUpTo (Z.of_nat e - 8)] else []))
      (seq 0 128) in
  let L := run_ops sample_hash build new_ledger in
  (try_late_injection sample_hash 160 100 L).1 = false
  ∧ verifier_ops (try_late_injection sample_hash 160 100 L).2 = 129%nat
  ∧ final_root L = Some (sample_hash 119 (Some 118)).
Proof. vm_compute. done. Qed.

End LedgerFacts.

(** ** The folding engine and the divergence detector *)

Module FoldingFacts.

Import IvcFoldingAudit.

Section AnyArithmetic.

Context {R : Type} `{Arith R}.

(** What [fold] returns does not depend on the engine's own fields. *)
Lemma fold_state (prev : FoldState R) (w : R) (eng : FoldingEngine R) :
  (fold prev w eng).1 =
    {| accumulator := fadd (fmul (lit 0.5) (accumulator prev)) (fmul (lit 0.5) w);
       residual :=
         fabs (fsub (fadd (fmul (lit 0.5) (accumulator prev)) (fmul (lit 0.5) w))
                    (accumulator prev)) |}.
Proof. reflexivity. Qed.

Lemma fold_ops (prev : FoldState R) (w : R) (eng : FoldingEngine R) :
  verifier_ops (fold prev w eng).2 = S (verifier_ops eng).
Proof. reflexivity. Qed.

Lemma fold_all_ops (ws : list R) (st : FoldState R) (eng : FoldingEngine R) :
  verifier_ops (fold_all ws st eng).2 = (verifier_ops eng + length ws)%nat.
Proof.
  revert st eng. induction ws as [|w ws IH]; intros st eng; simpl; [lia|].
  rewrite IH. simpl. lia.
Qed.

(** Before the perturbed depth both sequences fold the same witnesses from
    the same state: the loop runs through any prefix that ends before depth
    [k] without breaking, with the two states still equal. *)
Lemma audit_loop_prefix (k : nat) (delta bound : R) (pre rest : list R) :
  silent_on_equal bound →
  ∀ (depth : nat) (eA eB : FoldingEngine R) (s : FoldState R),
    (depth + length pre ≤ k)%nat →
    audit_loop k delta bound (pre ++ rest) depth eA eB s s =
      audit_loop k delta bound rest (depth + length pre)
        (fold_all pre s eA).2 (fold_all pre s eB).2
        (fold_all pre s eA).1 (fold_all pre s eA).1.
Proof.
  intros Hsilent. induction pre as [|w pre IH]; intros depth eA eB s Hk; simpl.
  - by rewrite Nat.add_0_r.
  - simpl in Hk. rewrite decide_False by lia.
    rewrite Hsilent, IH by lia.
    by replace (S depth + length pre)%nat with (depth + S (length pre))%nat by lia.
Qed.

(** On a schedule that ends before depth [k] the detector never fires. *)
Lemma audit_loop_short (k : nat) (delta bound : R) (ws : list R) :
  silent_on_equal bound →
  ∀ (depth : nat) (eA eB : FoldingEngine R) (s : FoldState R),
    (depth + length ws ≤ k)%nat →
    equivocation_detected (audit_loop k delta bound ws depth eA eB s s) = false.
Proof.
  intros Hsilent depth eA eB s Hk.
  rewrite <- (app_nil_r ws), audit_loop_prefix by done. reflexivity.
Qed.




End AnyArithmetic.

(** *** IEEE 754 doubles *)

Section Binary64.

(** A double minus itself is [+0] or NaN, and so is its absolute value. *)
Lemma SFsub_self (s : spec_float) :
  SFabs (SF64sub s s) = S754_zero false ∨ SFabs (SF64sub s s) = S754_nan.
Proof.
  destruct s as [sg|sg| |sg m e]; unfold SF64sub, SFsub.
  - left. by destruct sg.
  - right. by destruct sg.
  - by right.
  - left. rewrite Z.sub_diag. reflexivity.
Qed.

(** With a bound that is not negative, the detector's test is silent on
    equal accumulators in double arithmetic too (also on infinities and
    NaN, where the difference is NaN and every comparison is false). *)
Lemma binary64_silent_on_equal (bound : float) :
  PrimFloat.ltb bound 0 = false → silent_on_equal bound.
Proof.
  intros Hb x. cbn [fgt fabs fsub binary64].
  rewrite ltb_spec, abs_spec, sub_spec.
  rewrite ltb_spec in Hb.
  destruct (SFsub_self (Prim2SF x)) as [-> | ->].
  - exact Hb.
  - unfold SFltb, SFcompare. by destruct (Prim2SF bound).
Qed.

(** In double arithmetic, with the bound of the script, the detector fires
    on no schedule that stops before the perturbed depth. *)
Lemma binary64_never_fires_early (ws : list float) (k j : nat) (delta : float) :
  (j < k)%nat →
  equivocation_detected (divergence_audit k delta RESIDUAL_BOUND (take j ws))
  = false.
Proof.
  intros Hj. unfold divergence_audit. apply audit_loop_short.
  - by apply binary64_silent_on_equal.
  - rewrite length_take. lia.
Qed.


End Binary64.


(** The perturbation of the script, [0.25] at depth 32, is caught at depth
    32 in double arithmetic on a sample schedule. *)
Example divergence_caught_binary64 :
  let r := run_ivc_folding_equivocation_audit (R:=float)
             (replicate 64 (lit 0.3)) in
  equivocation_detected r = true ∧ detection_depth r = 32%Z
  ∧ res_verifier_ops r = 64%nat.
Proof. vm_compute. by repeat split. Qed.

(** Rounding decides at the boundary.  On witnesses [0.6] a perturbation
    of [2.0000000001e-6], whose half exceeds the bound, is missed; on
    witnesses [0.8] one of [1.9999999999e-6], whose half is within the
    bound, is caught at depth 32; and on witnesses [1e17], which absorb
    it, the perturbation [0.25] of the script is never seen. *)
Example rounding_decides_at_the_boundary :
  equivocation_detected
    (divergence_audit (R:=float) 32 (lit 2.0000000001e-6) RESIDUAL_BOUND
       (replicate 64 (lit 0.6))) = false
  ∧ detection_depth
      (divergence_audit (R:=float) 32 (lit 1.9999999999e-6) RESIDUAL_BOUND
         (replicate 64 (lit 0.8))) = 32
  ∧ equivocation_detected
      (run_ivc_folding_equivocation_audit (R:=float) (replicate 64 (lit 1e17)))
    = false.
Proof. vm_compute. by repeat split. Qed.


End FoldingFacts.

(** ** The aggregator *)

Module AggregatorFacts.

Import AdversarialAudit.

Section AnyArithmetic.

Context {R : Type} `{Arith R}.

Lemma process_all_snoc (frames : list (Frame R)) (f : Frame R)
    (agg : Aggregator R) :
  process_all (frames ++ [f]) agg = process f (process_all frames agg).
Proof. unfold process_all. by rewrite fold_left_app. Qed.

(** Over a delivered sequence every frame is counted once and every valid
    frame leaves one residual. *)
Lemma process_all_counts (frames : list (Frame R)) (agg : Aggregator R) :
  verifier_ops (process_all frames agg)
  = (verifier_ops agg + length frames)%nat
  ∧ length (residuals (process_all frames agg))
    = (length (residuals agg) + length (filter (λ f, valid f = true) frames))%nat.
Proof.
  induction frames as [|f frames IH] using rev_ind; [simpl; lia|].
  rewrite process_all_snoc, filter_app, !length_app.
  destruct IH as [IHops IHres]. unfold process.
  destruct (valid f) eqn:Hv; simpl.
  - rewrite IHops, length_app, IHres, filter_cons_True by done. simpl. lia.
  - rewrite IHops, IHres, filter_cons_False by congruence. simpl. lia.
Qed.

(** C9.  [process] counts every frame as one verifier operation.  An
    invalid frame changes nothing else: state and residual list stay.  A
    valid frame moves the state to [0.9 * state + 0.1 * value] and appends
    the residual [|state_after - state_before|] to the list. *)
Theorem process_frame_effect (frame : Frame R) (agg : Aggregator R) :
  verifier_ops (process frame agg) = S (verifier_ops agg)
  ∧ (valid frame = false →
       state (process frame agg) = state agg
       ∧ residuals (process frame agg) = residuals agg)
  ∧ (valid frame = true →
       state (process frame agg)
       = fadd (fmul (lit 0.9) (state agg)) (fmul (lit 0.1) (value frame))
       ∧ residuals (process frame agg)
         = residuals agg
           ++ [fabs (fsub (state (process frame agg)) (state agg))]).
Proof.
  unfold process. destruct (valid frame); simpl.
  - split; [done|]. split; [discriminate|]. by intros _.
  - split; [done|]. split; [by intros _|discriminate].
Qed.

End AnyArithmetic.

(** In double arithmetic, from the initial state [0.0], a valid frame of
    value [1.0] gives the state [0.1] and the residual [0.1], and an invalid
    frame after it only bumps the counter. *)
Example process_binary64_sample :
  let a1 := process (R:=float) (mkFrame 0 (lit 1.0) true false) new_aggregator in
  let a2 := process (mkFrame 1 (lit 5.0) false false) a1 in
  state a1 = lit 0.1 ∧ residuals a1 = [lit 0.1] ∧ verifier_ops a1 = 1%nat
  ∧ state a2 = lit 0.1 ∧ residuals a2 = [lit 0.1] ∧ verifier_ops a2 = 2%nat.
Proof. vm_compute. by repeat split. Qed.

End AggregatorFacts.

(** ** Operation counters *)

Module CounterFacts.

(** C6.  Every [observe] call adds exactly one to the verifier's counter,
    whatever its outcome (first observation, same root again, conflict),
    and every [fold] call adds exactly one to the engine's counter; so
    after any [N] calls on a fresh verifier, or on a fresh engine, the
    counter is [N], whatever has been accumulated on the way. *)
Theorem operation_counters_linear :
  (∀ c b v,
     EquivocationAudit.ops (EquivocationAudit.observe c b v).2
     = S (EquivocationAudit.ops v))
  ∧ (∀ calls,
       EquivocationAudit.ops
         (EquivocationAudit.observe_all calls EquivocationAudit.new_verifier)
       = length calls)
  ∧ (∀ R (A : Arith R) prev w eng,
       IvcFoldingAudit.verifier_ops (IvcFoldingAudit.fold prev w eng).2
       = S (IvcFoldingAudit.verifier_ops eng))
  ∧ (∀ R (A : Arith R) ws st,
       IvcFoldingAudit.verifier_ops
         (IvcFoldingAudit.fold_all ws st IvcFoldingAudit.new_engine).2
       = length ws).
Proof.
  split; [|split; [|split]].
  - apply EquivocationFacts.observe_ops.
  - intros calls. by rewrite EquivocationFacts.observe_all_ops.
  - intros R A prev w eng. apply FoldingFacts.fold_ops.
  - intros R A ws st. by rewrite FoldingFacts.fold_all_ops.
Qed.

End CounterFacts.

(** ** The signed replay and equivocation detector *)

Module SignedReplayFacts.

Import SignedReplayAudit.

Section Detector.

Context {State Sig : Type} `{Countable State} `{Countable Sig}.

Variable verify : Z → State → Sig → bool.

#[local] Abbreviation Frame := (SignedFrame State Sig).
#[local] Abbreviation Log := (list (SignedFrame State Sig * Outcome)).

(** The replay test comes first: a verified frame whose identity is in
    [seen_frames] is a replay, and neither [seen_frames] nor [seen_epochs]
    changes. *)
Lemma deliver_frame_replay (now : Z) (f : Frame) (t : Tracker State Sig) :
  verify (epoch f) (state f) (signature f) = true →
  frame_id f ∈ seen_frames t →
  ∃ t', deliver_frame verify now f t = Ok (ReplayRejected, t')
        ∧ seen_frames t' = seen_frames t
        ∧ seen_epochs t' = seen_epochs t.
Proof.
  intros Hv Hin. unfold deliver_frame. rewrite Hv. simpl.
  rewrite bool_decide_eq_true_2 by done. eauto.
Qed.

(** The three ways out of [deliver_frame], with what each does to the two
    tracking containers. *)
Lemma deliver_frame_cases (now : Z) (f : Frame) (t t' : Tracker State Sig)
    (o : Outcome) :
  deliver_frame verify now f t = Ok (o, t') →
  verify (epoch f) (state f) (signature f) = true
  ∧ ((o = ReplayRejected ∧ frame_id f ∈ seen_frames t
      ∧ seen_frames t' = seen_frames t ∧ seen_epochs t' = seen_epochs t)
     ∨ (o = EquivocationRejected ∧ (frame_id f ∉ seen_frames t)
        ∧ seen_frames t' = seen_frames t ∧ seen_epochs t' = seen_epochs t)
     ∨ (o = Accepted ∧ (frame_id f ∉ seen_frames t)
        ∧ seen_frames t' = {[frame_id f]} ∪ seen_frames t
        ∧ seen_epochs t' = <[epoch f := state f]> (seen_epochs t))).
Proof.
  unfold deliver_frame.
  destruct (verify (epoch f) (state f) (signature f)); simpl; [|done].
  case_bool_decide as Hin.
  { intros [= <- <-]. split; [done|]. left. done. }
  destruct (match seen_epochs t !! epoch f with
            | Some s => bool_decide (s ≠ state f)
            | None => false
            end).
  - intros [= <- <-]. split; [done|]. right; left. done.
  - intros [= <- <-]. split; [done|]. right; right. done.
Qed.

Lemma accepted_in_snoc (log : Log) (f : Frame) (o : Outcome) id :
  accepted_in (log ++ [(f, o)]) id
  ↔ accepted_in log id ∨ (o = Accepted ∧ frame_id f = id).
Proof.
  unfold accepted_in. split.
  - intros (g & Hin & Hid). apply elem_of_app in Hin as [Hin|Hin].
    + left. eauto.
    + apply list_elem_of_singleton in Hin as [= -> <-]. by right.
  - intros [(g & Hin & Hid)|[-> Hid]].
    + exists g. split; [|done]. apply elem_of_app. by left.
    + exists f. split; [|done]. apply elem_of_app. right.
      by apply list_elem_of_singleton.
Qed.

Lemma consistent_initial : consistent verify [] new_tracker.
Proof.
  split; [|split; [|split]].
  - intros id. split.
    + intros Hin. by apply not_elem_of_empty in Hin.
    + intros (f & Hin & _). by apply not_elem_of_nil in Hin.
  - intros i j f g o _ Hi. by rewrite lookup_nil in Hi.
  - intros f o Hin. by apply not_elem_of_nil in Hin.
  - intros e s. simpl. by rewrite lookup_empty.
Qed.

(** Delivering one frame keeps the record and the tracker consistent. *)
Lemma deliver_frame_consistent (now : Z) (f : Frame) (log : Log)
    (t t' : Tracker State Sig) (o : Outcome) :
  consistent verify log t →
  deliver_frame verify now f t = Ok (o, t') →
  consistent verify (log ++ [(f, o)]) t'.
Proof.
  intros (Hseen & Hsafe & Hver & Hep) Hdel.
  apply deliver_frame_cases in Hdel as [Hv Hcases].
  assert (Hnew : ∀ i g, (i < length log)%nat →
            log !! i = Some (g, Accepted) → frame_id f = frame_id g →
            o = ReplayRejected).
  { intros i g _ Hi Hid.
    assert (Hin : frame_id f ∈ seen_frames t).
    { apply Hseen. exists g. split; [|done]. by eapply list_elem_of_lookup_2. }
    destruct Hcases as [(-> & _)|[(_ & Hnot & _)|(_ & Hnot & _)]]; done. }
  split; [|split; [|split]].
  - intros id. rewrite accepted_in_snoc.
    destruct Hcases as [(-> & _ & -> & _)|[(-> & _ & -> & _)|(-> & _ & -> & _)]].
    + rewrite Hseen. split; [by left|]. by intros [?|[? _]].
    + rewrite Hseen. split; [by left|]. by intros [?|[? _]].
    + rewrite elem_of_union, elem_of_singleton, Hseen.
      split; [intros [->|?]|intros [?|[_ <-]]]; auto.
  - intros i j g1 g2 o2 Hij Hi Hj Hid.
    apply lookup_snoc_Some in Hj as [[Hjlt Hj]|[-> [= <- <-]]].
    + apply lookup_snoc_Some in Hi as [[_ Hi]|[-> _]]; [|lia].
      by eapply (Hsafe i j).
    + apply lookup_snoc_Some in Hi as [[Hilt Hi]|[? _]]; [|lia].
      by eapply Hnew.
  - intros g o' Hin. apply elem_of_app in Hin as [Hin|Hin]; [by eapply Hver|].
    by apply list_elem_of_singleton in Hin as [= -> ->].
  - intros e s Hes.
    assert (Hold : seen_epochs t !! e = Some s →
              ∃ g, (g, Accepted) ∈ log ++ [(f, o)] ∧ epoch g = e ∧ state g = s).
    { intros Hs. destruct (Hep _ _ Hs) as (g & Hin & ? & ?).
      exists g. split; [|done]. apply elem_of_app. by left. }
    destruct Hcases as [(_ & _ & _ & Heq)|[(_ & _ & _ & Heq)|(-> & _ & _ & Heq)]];
      rewrite Heq in Hes; [by apply Hold..|].
    destruct (decide (epoch f = e)) as [<-|Hne].
    + rewrite lookup_insert_eq in Hes. injection Hes as <-.
      exists f. split; [|done]. apply elem_of_app. right.
      by apply list_elem_of_singleton.
    + rewrite lookup_insert_ne in Hes by done. by apply Hold.
Qed.

Lemma delivery_phase_consistent (now : Z) (inbox : list (Frame * nat)) :
  ∀ (next : list (Frame * nat)) (log : Log) (t : Tracker State Sig)
    next' log' t',
    consistent verify log t →
    delivery_phase verify now inbox next log t = Ok (next', log', t') →
    consistent verify log' t'.
Proof.
  induction inbox as [|[f [|d]] inbox IH]; intros next log t next' log' t' Hc Hrun;
    simpl in Hrun.
  - by injection Hrun as <- <- <-.
  - destruct (deliver_frame verify now f t) as [[o t1]|msg] eqn:Hdel;
      simpl in Hrun; [|done].
    eapply IH; [|exact Hrun]. by eapply deliver_frame_consistent.
  - by eapply IH.
Qed.

Lemma epoch_loop_consistent (arrivals : Z → list (Frame * nat)) (n : nat) :
  ∀ (now : Z) (inbox : list (Frame * nat)) (log : Log)
    (t : Tracker State Sig) inbox' log' t',
    consistent verify log t →
    epoch_loop verify arrivals n now inbox log t = Ok (inbox', log', t') →
    consistent verify log' t'.
Proof.
  induction n as [|n IH]; intros now inbox log t inbox' log' t' Hc Hrun;
    simpl in Hrun.
  - by injection Hrun as <- <- <-.
  - match type of Hrun with
    | context [delivery_phase ?v ?e ?i ?nx ?l ?t0] =>
        destruct (delivery_phase v e i nx l t0) as [[[nx1 log1] t1]|msg] eqn:Hphase
    end; simpl in Hrun; [|done].
    eapply IH; [|exact Hrun].
    eapply delivery_phase_consistent; [|exact Hphase]. exact Hc.
Qed.

(** C3.  Take any run of the detector that ends without a signature
    failure, whatever frames arrive in whatever epochs with whatever
    delays.  Then [seen_frames] holds exactly the identities of the frames
    that were accepted, and every entry of [seen_epochs] comes from an
    accepted frame; in the delivery record, every later delivery of an
    identity that was accepted is a [ReplayRejected] (so no identity is
    accepted twice, and none is classified as equivocation after being
    accepted); and delivering any frame whose identity is in [seen_frames]
    gives [ReplayRejected] and leaves both containers as they are. *)
Theorem replayed_frame_always_rejected
    (arrivals : Z → list (Frame * nat)) (n : nat)
    (inbox : list (Frame * nat)) (log : Log) (t : Tracker State Sig) :
  run_epochs verify arrivals n = Ok (inbox, log, t) →
  (∀ id, id ∈ seen_frames t ↔ accepted_in log id)
  ∧ (∀ e s, seen_epochs t !! e = Some s →
       ∃ f, (f, Accepted) ∈ log ∧ epoch f = e ∧ state f = s)
  ∧ replay_safe log
  ∧ (∀ now f, frame_id f ∈ seen_frames t →
       ∃ t', deliver_frame verify now f t = Ok (ReplayRejected, t')
             ∧ seen_frames t' = seen_frames t
             ∧ seen_epochs t' = seen_epochs t).
Proof.
  intros Hrun. unfold run_epochs in Hrun.
  apply epoch_loop_consistent in Hrun; [|apply consistent_initial].
  destruct Hrun as (Hseen & Hsafe & Hver & Hep).
  split; [done|]. split; [done|]. split; [done|].
  intros now f Hin. apply deliver_frame_replay; [|done].
  apply Hseen in Hin as (g & Hg & Hid).
  injection Hid as <- <- <-. by eapply Hver.
Qed.

End Detector.

(** On the sample schedule: the frame of epoch 0 is accepted, its second
    delivery is a replay, the conflicting frame for epoch 0 is an
    equivocation, and the frame of epoch 2 is accepted one round late. *)
Example sample_run_result :
  run_epochs sample_verify sample_arrivals 4 = Ok ([], sample_log, sample_tracker).
Proof. vm_compute. reflexivity. Qed.

Lemma replayed_frame_always_rejected_witness :
  run_epochs sample_verify sample_arrivals 4 = Ok ([], sample_log, sample_tracker)
  ∧ (∀ id, id ∈ seen_frames sample_tracker ↔ accepted_in sample_log id)
  ∧ (∀ e s, seen_epochs sample_tracker !! e = Some s →
       ∃ f, (f, Accepted) ∈ sample_log ∧ epoch f = e ∧ state f = s)
  ∧ replay_safe sample_log
  ∧ (∀ now f, frame_id f ∈ seen_frames sample_tracker →
       ∃ t', deliver_frame sample_verify now f sample_tracker
             = Ok (ReplayRejected, t')
             ∧ seen_frames t' = seen_frames sample_tracker
             ∧ seen_epochs t' = seen_epochs sample_tracker).
Proof.
  assert (Hrun : run_epochs sample_verify sample_arrivals 4
                 = Ok ([], sample_log, sample_tracker))
    by (vm_compute; reflexivity).
  split; [exact Hrun|].
  exact (replayed_frame_always_rejected sample_verify sample_arrivals 4
           [] sample_log sample_tracker Hrun).
Defined.

End SignedReplayFacts.

(** ** The gossip rounds of the coupled stress run *)

Module GossipFacts.

Import MegaCoupledStress.

Section Gossip.

Context {R : Type} `{Arith R}.

Variable Rng : Type.
Variable packet_lost : Rng → bool * Rng.
Variable draw_delay : Rng → nat * Rng.

(** Recording history changes neither a node's slot nor its inbox. *)
Lemma wire_record_history (epoch : Z) (v : R) (nodes : list (Node R)) (i : nat) :
  wire <$> alter (record_history epoch v) i nodes = wire <$> nodes.
Proof.
  rewrite (list_fmap_alter wire _ id).
  - by apply list_alter_id.
  - by apply Forall_true.
Qed.

(** A message for a slot no node sits on reaches no inbox. *)
Lemma wire_enqueue_absent (nb : Z) (msg : Z * R * nat) (nodes : list (Node R)) :
  nb ∉ (q_node <$> nodes) →
  wire <$> ((λ m, if bool_decide (q_node m = nb) then enqueue msg m else m)
            <$> nodes)
  = wire <$> nodes.
Proof.
  intros Hnb. rewrite <- list_fmap_compose. apply list_fmap_ext.
  intros i m Hm. simpl. rewrite bool_decide_eq_false_2; [done|].
  intros <-. apply Hnb. apply list_elem_of_fmap. exists m. split; [done|].
  by eapply list_elem_of_lookup_2.
Qed.

Lemma slots_of_wire (nodes nodes' : list (Node R)) :
  wire <$> nodes' = wire <$> nodes → q_node <$> nodes' = q_node <$> nodes.
Proof.
  intros Hw. apply (f_equal (fmap (λ w, w.1.1))) in Hw.
  by rewrite <- !list_fmap_compose in Hw.
Qed.

(** One turn of the send loop towards a slot no node sits on. *)
Lemma send_to_absent (epoch : Z) (i : nat) (nb : Z) (rng : Rng)
    (nodes : list (Node R)) :
  nb ∉ (q_node <$> nodes) →
  wire <$> (send_to Rng packet_lost draw_delay epoch i nb (rng, nodes)).2
  = wire <$> nodes.
Proof.
  intros Hnb. unfold send_to.
  destruct (nodes !! i) as [n|]; [|done].
  destruct (packet_lost rng) as [[|] rng1]; [done|].
  destruct (draw_delay rng1) as [delay rng2]. simpl.
  rewrite wire_enqueue_absent.
  - by rewrite !wire_record_history.
  - erewrite slots_of_wire; [exact Hnb|]. by rewrite !wire_record_history.
Qed.

(** The send loop of a node none of whose neighbour slots is taken. *)
Lemma send_fold_absent (epoch : Z) (i : nat) (nbs : list Z) :
  ∀ (rng : Rng) (nodes : list (Node R)),
    (∀ nb, nb ∈ nbs → nb ∉ (q_node <$> nodes)) →
    wire <$> (fold_left (λ a nb, send_to Rng packet_lost draw_delay epoch i nb a)
                nbs (rng, nodes)).2
    = wire <$> nodes.
Proof.
  induction nbs as [|nb nbs IH]; intros rng nodes Hnbs; [done|].
  cbn [fold_left].
  destruct (send_to Rng packet_lost draw_delay epoch i nb (rng, nodes))
    as [rng1 nodes1] eqn:Hsend.
  assert (Hw : wire <$> nodes1 = wire <$> nodes).
  { change nodes1 with (rng1, nodes1).2. rewrite <- Hsend.
    apply send_to_absent. apply Hnbs. by left. }
  rewrite IH, Hw; [done|].
  intros nb' Hin. rewrite (slots_of_wire _ _ Hw). apply Hnbs. by right.
Qed.

Lemma no_adjacent_slots_isolated (slots : list Z) :
  no_adjacent_slots slots = true → isolated slots.
Proof.
  unfold no_adjacent_slots, isolated. rewrite forallb_forall.
  intros Hall a b Ha Hb.
  apply list_elem_of_In, Hall in Ha. rewrite forallb_forall in Ha.
  apply list_elem_of_In, Ha in Hb. by apply bool_decide_eq_true in Hb.
Qed.

(** With isolated slots the whole send loop of a node, and the whole send
    phase, leave slots, inboxes and states as they were. *)
Lemma send_from_isolated (epoch : Z) (i : nat) (rng : Rng)
    (nodes : list (Node R)) :
  isolated (q_node <$> nodes) →
  wire <$> (send_from Rng packet_lost draw_delay epoch (rng, nodes) i).2
  = wire <$> nodes.
Proof.
  intros Hiso. unfold send_from. cbn [snd].
  destruct (nodes !! i) as [n|] eqn:Hn; [|done].
  apply send_fold_absent. intros nb Hnb Hin.
  refine (Hiso (q_node n) nb _ Hin Hnb).
  apply list_elem_of_fmap. exists n. split; [done|].
  by eapply list_elem_of_lookup_2.
Qed.

Lemma send_fold_isolated (epoch : Z) (positions : list nat) :
  ∀ (rng : Rng) (nodes : list (Node R)),
    isolated (q_node <$> nodes) →
    wire <$> (fold_left (send_from Rng packet_lost draw_delay epoch)
                positions (rng, nodes)).2
    = wire <$> nodes.
Proof.
  induction positions as [|i positions IH]; intros rng nodes Hiso; [done|].
  cbn [fold_left].
  destruct (send_from Rng packet_lost draw_delay epoch (rng, nodes) i)
    as [rng1 nodes1] eqn:Hsend.
  assert (Hw : wire <$> nodes1 = wire <$> nodes).
  { change nodes1 with (rng1, nodes1).2. rewrite <- Hsend.
    by apply send_from_isolated. }
  rewrite IH, Hw; [done|]. by rewrite (slots_of_wire _ _ Hw).
Qed.

Lemma send_phase_isolated (epoch : Z) (rng : Rng) (nodes : list (Node R)) :
  isolated (q_node <$> nodes) →
  wire <$> (send_phase Rng packet_lost draw_delay epoch rng nodes).2
  = wire <$> nodes.
Proof. apply send_fold_isolated. Qed.

(** The receive phase over empty inboxes changes nothing. *)
Lemma receive_node_quiet (epoch : Z) (visited : list (Node R)) (fl : Flags)
    (n : Node R) :
  inbox n = [] → receive_node epoch (visited, fl) n = (visited ++ [n], fl).
Proof.
  destruct n as [id addr q st inb hist]. simpl. intros ->. reflexivity.
Qed.

Lemma receive_fold_quiet (epoch : Z) (nodes : list (Node R)) :
  ∀ (visited : list (Node R)) (fl : Flags),
    Forall (λ n, inbox n = []) nodes →
    fold_left (receive_node epoch) nodes (visited, fl) = (visited ++ nodes, fl).
Proof.
  induction nodes as [|n nodes IH]; intros visited fl Hq; cbn [fold_left].
  - by rewrite app_nil_r.
  - inversion_clear Hq as [|? ? Hn Hrest].
    rewrite receive_node_quiet, IH by done.
    by rewrite <- app_assoc.
Qed.

Lemma quiet_of_wire (nodes nodes' : list (Node R)) :
  wire <$> nodes' = wire <$> nodes →
  Forall (λ n, inbox n = []) nodes → Forall (λ n, inbox n = []) nodes'.
Proof.
  intros Hw Hq.
  assert (Hq' : Forall (λ w : Z * list (Z * R * nat) * R, w.1.2 = []) (wire <$> nodes')).
  { rewrite Hw. by apply Forall_fmap. }
  by apply Forall_fmap in Hq'.
Qed.

(** With isolated slots and empty inboxes, any number of rounds leaves the
    flags, and the slots, inboxes and states of the nodes, as they were. *)
Lemma gossip_loop_isolated (n : nat) :
  ∀ (epoch : Z) (rng : Rng) (nodes : list (Node R)) (fl : Flags),
    isolated (q_node <$> nodes) →
    Forall (λ n, inbox n = []) nodes →
    (gossip_loop Rng packet_lost draw_delay n epoch rng nodes fl).2 = fl
    ∧ wire <$> (gossip_loop Rng packet_lost draw_delay n epoch rng nodes fl).1.2
      = wire <$> nodes.
Proof.
  induction n as [|n IH]; intros epoch rng nodes fl Hiso Hq; [done|].
  cbn [gossip_loop].
  pose proof (send_phase_isolated epoch rng nodes Hiso) as Hw.
  destruct (send_phase Rng packet_lost draw_delay epoch rng nodes)
    as [rng1 nodes1].
  cbn [snd] in Hw. unfold receive_phase.
  rewrite receive_fold_quiet by (by eapply quiet_of_wire). cbn [app].
  destruct (IH (epoch + 1) rng1 nodes1 fl) as [Hfl Hw'].
  - by rewrite (slots_of_wire _ _ Hw).
  - by eapply quiet_of_wire.
  - split; [done|]. by rewrite Hw'.
Qed.

(** The receive phase of a round below [hi] keeps the two detection
    variables in agreement, and so do any number of rounds below [hi]. *)
Lemma receive_msg_flags (hi epoch : Z) (hist : gmap Z R)
    (acc : R * list (Z * R * nat) * Flags) (msg : Z * R * nat) :
  0 ≤ epoch < hi →
  flags_agree hi (equivocation_detected acc.2) (equivocation_epoch acc.2) →
  flags_agree hi
    (equivocation_detected (receive_msg epoch hist acc msg).2)
    (equivocation_epoch (receive_msg epoch hist acc msg).2).
Proof.
  intros Hepoch Hfl. destruct acc as [[st new_inbox] fl].
  destruct msg as [[sender value] [|d]]; [|done].
  cbn [receive_msg snd equivocation_detected equivocation_epoch].
  destruct (match hist !! sender with Some h => fne h value | None => false end);
    [|done].
  right. split; [done|]. by exists epoch.
Qed.

Lemma receive_inbox_flags (hi epoch : Z) (hist : gmap Z R)
    (msgs : list (Z * R * nat)) :
  ∀ acc : R * list (Z * R * nat) * Flags,
    0 ≤ epoch < hi →
    flags_agree hi (equivocation_detected acc.2) (equivocation_epoch acc.2) →
    flags_agree hi
      (equivocation_detected (fold_left (receive_msg epoch hist) msgs acc).2)
      (equivocation_epoch (fold_left (receive_msg epoch hist) msgs acc).2).
Proof.
  induction msgs as [|msg msgs IH]; intros acc Hepoch Hfl; [done|].
  cbn [fold_left]. apply IH; [done|]. by apply receive_msg_flags.
Qed.

Lemma receive_phase_flags (hi epoch : Z) (nodes : list (Node R)) :
  ∀ (visited : list (Node R)) (fl : Flags),
    0 ≤ epoch < hi →
    flags_agree hi (equivocation_detected fl) (equivocation_epoch fl) →
    flags_agree hi
      (equivocation_detected
         (fold_left (receive_node epoch) nodes (visited, fl)).2)
      (equivocation_epoch
         (fold_left (receive_node epoch) nodes (visited, fl)).2).
Proof.
  induction nodes as [|n nodes IH]; intros visited fl Hepoch Hfl; [done|].
  cbn [fold_left]. unfold receive_node at 2 4.
  pose proof (receive_inbox_flags hi epoch (history n) (inbox n)
                (state n, [], fl) Hepoch Hfl) as Hstep.
  destruct (fold_left (receive_msg epoch (history n)) (inbox n) (state n, [], fl))
    as [[st new_inbox] fl1].
  by apply IH.
Qed.

Lemma gossip_loop_flags (hi : Z) (n : nat) :
  ∀ (epoch : Z) (rng : Rng) (nodes : list (Node R)) (fl : Flags),
    0 ≤ epoch → epoch + Z.of_nat n ≤ hi →
    flags_agree hi (equivocation_detected fl) (equivocation_epoch fl) →
    flags_agree hi
      (equivocation_detected
         (gossip_loop Rng packet_lost draw_delay n epoch rng nodes fl).2)
      (equivocation_epoch
         (gossip_loop Rng packet_lost draw_delay n epoch rng nodes fl).2).
Proof.
  induction n as [|n IH]; intros epoch rng nodes fl Hlo Hhi Hfl; [done|].
  cbn [gossip_loop].
  destruct (send_phase Rng packet_lost draw_delay epoch rng nodes)
    as [rng1 nodes1].
  pose proof (receive_phase_flags hi epoch nodes1 [] fl) as Hrecv.
  unfold receive_phase.
  destruct (fold_left (receive_node epoch) nodes1 ([], fl)) as [nodes2 fl2].
  apply IH; [lia|lia|]. apply Hrecv; [lia|done].
Qed.

(** *** Runs in which node 0 has no neighbour *)

Section Calm.

(** The state [s0] all nodes start from is one that the state update maps
    to itself when the received value is [s0], and that compares equal to
    itself. *)
Variable s0 : R.
Hypothesis update_fixes_s0 :
  fadd (fmul DTC_ALPHA s0) (fmul (fsub (lit 1) DTC_ALPHA) s0) = s0.
Hypothesis s0_equals_itself : fne s0 s0 = false.

Variable q0 : Z.

Lemma calm_record_history (epoch : Z) (v : R) (n : Node R) :
  (epoch ≠ EQUIVOCATION_DELAY → v = s0) →
  calm_node q0 s0 n → calm_node q0 s0 (record_history epoch v n).
Proof.
  intros Hv (Hst & Hid & Hq0 & Hnb & Hin & Hh).
  repeat (split; [done|]). intros k h. simpl.
  destruct (decide (epoch = k)) as [<-|Hne].
  - rewrite lookup_insert_eq. intros [= <-] Hk. by apply Hv.
  - rewrite lookup_insert_ne by done. apply Hh.
Qed.

Lemma calm_enqueue (msg : Z * R * nat) (m : Node R) :
  plain_msg s0 msg → calm_node q0 s0 m → calm_node q0 s0 (enqueue msg m).
Proof.
  intros Hmsg (Hst & Hid & Hq0 & Hnb & Hin & Hh).
  repeat (split; [done|]). split; [|done]. simpl.
  apply Forall_app_2; [done|]. by apply Forall_singleton.
Qed.

(** No turn of the send loop changes a slot. *)
Lemma send_to_slots (epoch : Z) (i : nat) (nb : Z) (rng : Rng)
    (nodes : list (Node R)) :
  q_node <$> (send_to Rng packet_lost draw_delay epoch i nb (rng, nodes)).2
  = q_node <$> nodes.
Proof.
  unfold send_to.
  destruct (nodes !! i) as [n|]; [|done].
  destruct (packet_lost rng) as [[|] rng1]; [done|].
  destruct (draw_delay rng1) as [delay rng2]. cbn [snd].
  rewrite <- list_fmap_compose.
  rewrite (list_fmap_ext _ q_node
             (alter _ i (alter (record_history epoch (state n)) i nodes))).
  - rewrite !(list_fmap_alter q_node _ id) by (by apply Forall_true).
    by rewrite !list_alter_id.
  - intros j m _. simpl. by destruct (bool_decide (q_node m = nb)).
Qed.

(** One turn of the send loop towards a neighbour slot of the sender keeps
    all nodes calm: the injected value is only ever addressed to
    neighbour slots of node 0, where no node sits. *)
Lemma send_to_calm (epoch : Z) (i : nat) (nb : Z) (rng : Rng)
    (nodes : list (Node R)) :
  Forall (calm_node q0 s0) nodes →
  (∀ n, nodes !! i = Some n → nb ∈ neighbors_q6 (q_node n)) →
  Forall (calm_node q0 s0)
    (send_to Rng packet_lost draw_delay epoch i nb (rng, nodes)).2.
Proof.
  intros Hcalm Hnb. unfold send_to.
  destruct (nodes !! i) as [n|] eqn:Hn; [|done].
  destruct (packet_lost rng) as [[|] rng1]; [done|].
  destruct (draw_delay rng1) as [delay rng2]. cbn [snd].
  pose proof (Forall_lookup_1 _ _ _ _ Hcalm Hn) as Hncalm.
  destruct Hncalm as (Hst & Hid & Hq0 & _).
  set (value := if bool_decide (epoch = EQUIVOCATION_DELAY ∧ node_id n = 0)
                then fadd (state n) (lit 0.5) else state n).
  assert (Hvalue : ¬ (epoch = EQUIVOCATION_DELAY ∧ node_id n = 0) → value = s0).
  { intros Hno. subst value. by rewrite bool_decide_eq_false_2. }
  apply Forall_fmap. eapply Forall_impl.
  - apply Forall_alter; [apply Forall_alter; [exact Hcalm|]|].
    + intros x _. apply calm_record_history. by intros _.
    + intros x _. apply calm_record_history. intros He. apply Hvalue. tauto.
  - intros m Hm. simpl. case_bool_decide as Hslot; [|done].
    apply calm_enqueue; [|done]. split; [|done]. simpl.
    apply Hvalue. intros [_ Hzero].
    destruct Hm as (_ & _ & _ & Hfar & _). apply Hfar.
    rewrite Hslot, <- (Hq0 Hzero). by apply Hnb.
Qed.

Lemma send_fold_calm (epoch : Z) (i : nat) (q : Z) (nbs : list Z) :
  ∀ (rng : Rng) (nodes : list (Node R)),
    Forall (calm_node q0 s0) nodes →
    q_node <$> nodes !! i = Some q →
    (∀ nb, nb ∈ nbs → nb ∈ neighbors_q6 q) →
    Forall (calm_node q0 s0)
      (fold_left (λ a nb, send_to Rng packet_lost draw_delay epoch i nb a)
         nbs (rng, nodes)).2
    ∧ q_node <$> (fold_left
                    (λ a nb, send_to Rng packet_lost draw_delay epoch i nb a)
                    nbs (rng, nodes)).2
      = q_node <$> nodes.
Proof.
  induction nbs as [|nb nbs IH]; intros rng nodes Hcalm Hq Hnbs; [done|].
  cbn [fold_left].
  pose proof (send_to_slots epoch i nb rng nodes) as Hslots.
  pose proof (send_to_calm epoch i nb rng nodes Hcalm) as Hstep.
  destruct (send_to Rng packet_lost draw_delay epoch i nb (rng, nodes))
    as [rng1 nodes1].
  cbn [snd] in Hslots, Hstep.
  destruct (IH rng1 nodes1) as [Hcalm' Hslots'].
  - apply Hstep. intros n Hn. rewrite Hn in Hq. injection Hq as <-.
    apply Hnbs. by left.
  - rewrite <- list_lookup_fmap, Hslots, list_lookup_fmap. exact Hq.
  - intros nb' Hin. apply Hnbs. by right.
  - split; [done|]. by rewrite Hslots'.
Qed.

Lemma send_phase_fold_calm (epoch : Z) (positions : list nat) :
  ∀ (rng : Rng) (nodes : list (Node R)),
    Forall (calm_node q0 s0) nodes →
    Forall (calm_node q0 s0)
      (fold_left (send_from Rng packet_lost draw_delay epoch)
         positions (rng, nodes)).2
    ∧ q_node <$> (fold_left (send_from Rng packet_lost draw_delay epoch)
                    positions (rng, nodes)).2
      = q_node <$> nodes.
Proof.
  induction positions as [|i positions IH]; intros rng nodes Hcalm; [done|].
  cbn [fold_left].
  assert (Hstep :
    Forall (calm_node q0 s0)
      (send_from Rng packet_lost draw_delay epoch (rng, nodes) i).2
    ∧ q_node <$> (send_from Rng packet_lost draw_delay epoch (rng, nodes) i).2
      = q_node <$> nodes).
  { unfold send_from. cbn [snd].
    destruct (nodes !! i) as [n|] eqn:Hn; [|done].
    apply send_fold_calm with (q := q_node n); [done| |done].
    by rewrite Hn. }
  destruct (send_from Rng packet_lost draw_delay epoch (rng, nodes) i)
    as [rng1 nodes1].
  cbn [snd] in Hstep. destruct Hstep as [Hcalm1 Hslots1].
  destruct (IH rng1 nodes1 Hcalm1) as [Hcalm' Hslots'].
  split; [done|]. by rewrite Hslots'.
Qed.

(** Receiving plain messages at state [s0] with a calm history: the state
    stays [s0], the messages kept for later are plain, and the detection
    variables are not touched. *)
Lemma receive_inbox_calm (epoch : Z) (hist : gmap Z R)
    (msgs : list (Z * R * nat)) :
  (∀ k h, hist !! k = Some h → k ≠ EQUIVOCATION_DELAY → h = s0) →
  Forall (plain_msg s0) msgs →
  ∀ (new_inbox : list (Z * R * nat)) (fl : Flags),
    Forall (plain_msg s0) new_inbox →
    ∃ new_inbox' fl',
      fold_left (receive_msg epoch hist) msgs (s0, new_inbox, fl)
      = (s0, new_inbox', fl')
      ∧ Forall (plain_msg s0) new_inbox'
      ∧ equivocation_detected fl' = equivocation_detected fl
      ∧ equivocation_epoch fl' = equivocation_epoch fl.
Proof using update_fixes_s0 s0_equals_itself.
  intros Hhist Hmsgs.
  induction Hmsgs as [|[[sender value] delay] msgs [Hvalue Hsender] _ IH];
    intros new_inbox fl Hnew; [by exists new_inbox, fl|].
  simpl in Hvalue, Hsender. subst value. cbn [fold_left receive_msg].
  destruct delay as [|d].
  - assert (Hsame : match hist !! sender with
                    | Some h => fne h s0
                    | None => false
                    end = false).
    { destruct (hist !! sender) as [h|] eqn:Hh; [|done].
      by rewrite (Hhist _ _ Hh Hsender). }
    rewrite Hsame, update_fixes_s0.
    destruct (IH new_inbox
                {| equivocation_detected := equivocation_detected fl;
                   equivocation_epoch := equivocation_epoch fl;
                   verifier_ops := S (verifier_ops fl) |} Hnew)
      as (new_inbox' & fl' & Heq & Hplain & Hd & He).
    exists new_inbox', fl'. by rewrite Heq.
  - apply IH. apply Forall_app_2; [done|]. by apply Forall_singleton.
Qed.

Lemma receive_fold_calm (epoch : Z) (nodes : list (Node R)) :
  Forall (calm_node q0 s0) nodes →
  ∀ (visited : list (Node R)) (fl : Flags),
    Forall (calm_node q0 s0) visited →
    ∃ nodes' fl',
      fold_left (receive_node epoch) nodes (visited, fl) = (nodes', fl')
      ∧ Forall (calm_node q0 s0) nodes'
      ∧ q_node <$> nodes' = q_node <$> (visited ++ nodes)
      ∧ equivocation_detected fl' = equivocation_detected fl
      ∧ equivocation_epoch fl' = equivocation_epoch fl.
Proof using update_fixes_s0 s0_equals_itself.
  intros Hcalm.
  induction Hcalm as [|n nodes (Hst & Hid & Hq0 & Hnb & Hin & Hh) _ IH];
    intros visited fl Hvisited.
  - exists visited, fl. by rewrite app_nil_r.
  - cbn [fold_left]. unfold receive_node at 2.
    destruct (receive_inbox_calm epoch (history n) (inbox n) Hh Hin [] fl)
      as (new_inbox & fl1 & Heq & Hplain & Hd & He); [done|].
    rewrite Hst, Heq.
    destruct (IH (visited ++
                  [{| node_id := node_id n; ipv6 := ipv6 n; q_node := q_node n;
                      state := s0; inbox := new_inbox; history := history n |}])
                 fl1)
      as (nodes' & fl' & Heq' & Hcalm' & Hslots' & Hd' & He').
    { apply Forall_app_2; [done|]. by apply Forall_singleton. }
    exists nodes', fl'. rewrite Heq'. split; [done|]. split; [done|].
    split; [|split; congruence].
    by rewrite Hslots', !fmap_app, <- app_assoc.
Qed.

(** Any number of rounds keeps all nodes calm and leaves the detection
    variables as they were. *)
Lemma gossip_loop_calm (n : nat) :
  ∀ (epoch : Z) (rng : Rng) (nodes : list (Node R)) (fl : Flags),
    Forall (calm_node q0 s0) nodes →
    ∃ rng' nodes' fl',
      gossip_loop Rng packet_lost draw_delay n epoch rng nodes fl
      = (rng', nodes', fl')
      ∧ Forall (calm_node q0 s0) nodes'
      ∧ q_node <$> nodes' = q_node <$> nodes
      ∧ equivocation_detected fl' = equivocation_detected fl
      ∧ equivocation_epoch fl' = equivocation_epoch fl.
Proof using update_fixes_s0 s0_equals_itself.
  induction n as [|n IH]; intros epoch rng nodes fl Hcalm;
    [by exists rng, nodes, fl|].
  cbn [gossip_loop]. unfold send_phase.
  destruct (send_phase_fold_calm epoch (seq 0 (length nodes)) rng nodes Hcalm)
    as [Hcalm1 Hslots1].
  destruct (fold_left (send_from Rng packet_lost draw_delay epoch)
              (seq 0 (length nodes)) (rng, nodes)) as [rng1 nodes1].
  cbn [snd] in Hcalm1, Hslots1. unfold receive_phase.
  destruct (receive_fold_calm epoch nodes1 Hcalm1 [] fl)
    as (nodes2 & fl2 & Heq & Hcalm2 & Hslots2 & Hd & He); [done|].
  rewrite Heq.
  destruct (IH (epoch + 1) rng1 nodes2 fl2 Hcalm2)
    as (rng' & nodes' & fl' & Heq' & Hcalm' & Hslots' & Hd' & He').
  exists rng', nodes', fl'. rewrite Heq'. split; [done|]. split; [done|].
  split; [|split; congruence].
  cbn [app] in Hslots2. by rewrite Hslots', Hslots2, Hslots1.
Qed.

End Calm.

(** The largest [|state|] over nodes that all have the same state. *)
Lemma max_abs_state_const (x : R) (n : Node R) (nodes : list (Node R)) :
  Forall (λ m, state m = x) (n :: nodes) →
  max_abs_state (n :: nodes) = Some (fabs x).
Proof.
  intros Hall. inversion_clear Hall as [|? ? Hn Hrest]. simpl. rewrite Hn.
  f_equal. induction Hrest as [|m rest Hm _ IH]; simpl; [done|].
  rewrite Hm. unfold fmax at 2. by destruct (fgt (fabs x) (fabs x)).
Qed.

(** With pairwise non-adjacent slots no message is delivered at all: in
    any arithmetic, if the state left by the local recursion is within
    the contraction threshold, the run returns with nothing detected, the
    states untouched and [2 * 8 + 96 * 8 + 1] operations counted. *)
Lemma run_without_adjacent_slots (address : nat → string)
    (digest_prefix : nat → Z) (rng : Rng) :
  no_adjacent_slots ((λ i, digest_prefix i `mod` Q_NODES) <$> seq 0 NODE_COUNT)
  = true →
  fgt (fabs ivc_state) DTC_THRESHOLD = false →
  run_mega_coupled_stress Rng packet_lost draw_delay address digest_prefix rng
  = Ok {| max_dtc_residual := fabs ivc_state;
          res_equivocation_detected := false;
          res_equivocation_epoch := None;
          res_verifier_ops := 785 |}.
Proof.
  intros Hslots Hsmall. unfold run_mega_coupled_stress.
  set (nodes := (λ i, mkNode _ _ _ _ _ _) <$> seq 0 NODE_COUNT).
  set (fl := mkFlags false None _).
  destruct (gossip_loop_isolated GOSSIP_STEPS 0 rng nodes fl) as [Hfl Hw].
  - apply no_adjacent_slots_isolated. subst nodes.
    by rewrite <- list_fmap_compose.
  - subst nodes. by apply Forall_fmap, Forall_true.
  - destruct (gossip_loop Rng packet_lost draw_delay GOSSIP_STEPS 0 rng nodes fl)
      as [[rng' nodes'] fl'].
    cbn [fst snd] in Hfl, Hw. subst fl'.
    assert (Hstates : Forall (λ m, state m = ivc_state) nodes').
    { assert (Hall : Forall (λ w : Z * list (Z * R * nat) * R, w.2 = ivc_state)
                       (wire <$> nodes')).
      { rewrite Hw. subst nodes. rewrite <- list_fmap_compose.
        by apply Forall_fmap, Forall_true. }
      by apply Forall_fmap in Hall. }
    destruct nodes' as [|n' nodes'].
    { apply (f_equal length) in Hw. by rewrite !length_fmap in Hw. }
    rewrite (max_abs_state_const ivc_state) by done.
    by rewrite Hsmall.
Qed.

(** In a run that returns, the two detection variables agree, and a
    recorded round is one of the 128 rounds of the run. *)
Lemma run_flags_agree (address : nat → string) (digest_prefix : nat → Z)
    (rng : Rng) (res : RunResult R) :
  run_mega_coupled_stress Rng packet_lost draw_delay address digest_prefix rng
  = Ok res →
  flags_agree (Z.of_nat GOSSIP_STEPS)
    (res_equivocation_detected res) (res_equivocation_epoch res).
Proof.
  unfold run_mega_coupled_stress.
  set (nodes := (λ i, mkNode _ _ _ _ _ _) <$> seq 0 NODE_COUNT).
  set (fl := mkFlags false None _).
  pose proof (gossip_loop_flags (Z.of_nat GOSSIP_STEPS) GOSSIP_STEPS 0 rng nodes fl)
    as Hfl.
  destruct (gossip_loop Rng packet_lost draw_delay GOSSIP_STEPS 0 rng nodes fl)
    as [[rng' nodes'] fl'].
  cbn [snd] in Hfl.
  destruct (max_abs_state nodes') as [m|]; [|done].
  destruct (fgt m DTC_THRESHOLD); [done|].
  intros [= <-]. cbn [res_equivocation_detected res_equivocation_epoch].
  apply Hfl; [lia|lia|]. by left.
Qed.

(** When none of the eight slots is a hypercube neighbour of the slot of
    node 0, the run returns with [equivocation_detected = False] and
    [equivocation_epoch = None], whatever the loss and delay draws and
    whatever the other nodes exchange among themselves.  (The three
    conditions on the state [ivc_state] left by the local recursion are
    facts of the arithmetic: the state update maps it to itself when the
    received value is the same, it compares equal to itself, and it is
    within the contraction threshold; they hold for IEEE doubles.) *)
Theorem run_without_neighbour_of_node_0 (address : nat → string)
    (digest_prefix : nat → Z) (rng : Rng) :
  no_neighbour_of (digest_prefix 0%nat `mod` Q_NODES)
    ((λ i, digest_prefix i `mod` Q_NODES) <$> seq 0 NODE_COUNT) = true →
  fadd (fmul DTC_ALPHA ivc_state) (fmul (fsub (lit 1) DTC_ALPHA) ivc_state)
  = ivc_state →
  fne ivc_state ivc_state = false →
  fgt (fabs ivc_state) DTC_THRESHOLD = false →
  ∃ ops,
    run_mega_coupled_stress Rng packet_lost draw_delay address digest_prefix rng
    = Ok {| max_dtc_residual := fabs ivc_state;
            res_equivocation_detected := false;
            res_equivocation_epoch := None;
            res_verifier_ops := ops |}.
Proof.
  intros Hfar Hfix Hrefl Hsmall. unfold run_mega_coupled_stress.
  set (q0 := digest_prefix 0%nat `mod` Q_NODES) in *.
  set (nodes := (λ i, mkNode _ _ _ _ _ _) <$> seq 0 NODE_COUNT).
  set (fl := mkFlags false None _).
  assert (Hcalm : Forall (calm_node q0 ivc_state) nodes).
  { subst nodes. apply Forall_fmap, Forall_seq. intros i Hi.
    unfold NODE_COUNT in Hi. unfold no_neighbour_of in Hfar.
    rewrite forallb_forall in Hfar.
    split; [done|]. split; [unfold EQUIVOCATION_DELAY; simpl; lia|].
    split; [|split; [|split]]; simpl.
    - intros Hzero. by replace i with 0%nat by lia.
    - eapply bool_decide_eq_true_1, Hfar, list_elem_of_In.
      apply list_elem_of_fmap. exists i. split; [done|].
      apply elem_of_seq. unfold NODE_COUNT. lia.
    - constructor.
    - intros k h. by rewrite lookup_empty. }
  destruct (gossip_loop_calm ivc_state Hfix Hrefl q0 GOSSIP_STEPS 0 rng nodes fl Hcalm)
    as (rng' & nodes' & fl' & Heq & Hcalm' & Hslots' & Hd & He).
  rewrite Heq.
  assert (Hstates : Forall (λ m, state m = ivc_state) nodes').
  { eapply Forall_impl; [exact Hcalm'|]. by intros m (Hst & _). }
  destruct nodes' as [|n' nodes'].
  { apply (f_equal length) in Hslots'. by rewrite !length_fmap in Hslots'. }
  rewrite (max_abs_state_const ivc_state) by done.
  rewrite Hsmall, Hd, He. by eexists.
Qed.

End Gossip.

(** On the sample identities, whose slots are pairwise non-adjacent, the
    run in double arithmetic returns with [equivocation_detected = False]
    and [equivocation_epoch = None]: the conflicting value node 0 sends in
    round 12 has no receiver. *)
Lemma gossip_run_without_detection :
  run_mega_coupled_stress (R:=float) nat sample_packet_lost sample_draw_delay
    sample_address sample_digest_prefix 0%nat
  = Ok {| max_dtc_residual := fabs ivc_state;
          res_equivocation_detected := false;
          res_equivocation_epoch := None;
          res_verifier_ops := 785 |}.
Proof. vm_compute. reflexivity. Qed.

(** With the slots [0, 3, 7, 5, 9, 10, 12, 15] the nodes on 3, 7 and 5
    exchange their states round after round (the run counts 744 deliveries
    on top of the 785 fixed operations), node 0 still has no neighbour,
    and nothing is detected. *)
Example run_with_other_neighbours :
  run_mega_coupled_stress (R:=float) nat sample_packet_lost sample_draw_delay
    sample_address (λ i, nth i [0; 3; 7; 5; 9; 10; 12; 15] 0) 0%nat
  = Ok {| max_dtc_residual := fabs ivc_state;
          res_equivocation_detected := false;
          res_equivocation_epoch := None;
          res_verifier_ops := 1529 |}.
Proof. vm_compute. reflexivity. Qed.

(** With the eight nodes on the slots [0..7], where node 0 has three
    neighbours, the conflicting value is delivered and averaged into the
    states, and the run stops at the contraction check instead of
    returning. *)
Example adjacent_slots_run_raises :
  run_mega_coupled_stress (R:=float) nat sample_packet_lost sample_draw_delay
    sample_address (λ i, Z.of_nat i) 0%nat
  = Raise "DTC CONTRACTION FAILURE".
Proof. vm_compute. reflexivity. Qed.

Lemma run_without_neighbour_of_node_0_witness :
  no_neighbour_of (sample_digest_prefix 0%nat `mod` Q_NODES)
    ((λ i, sample_digest_prefix i `mod` Q_NODES) <$> seq 0 NODE_COUNT) = true
  ∧ fadd (R:=float) (fmul DTC_ALPHA ivc_state)
      (fmul (fsub (lit 1) DTC_ALPHA) ivc_state) = ivc_state
  ∧ fne (R:=float) ivc_state ivc_state = false
  ∧ fgt (R:=float) (fabs ivc_state) DTC_THRESHOLD = false
  ∧ ∃ ops,
      run_mega_coupled_stress (R:=float) nat sample_packet_lost
        sample_draw_delay sample_address sample_digest_prefix 5%nat
      = Ok {| max_dtc_residual := fabs ivc_state;
              res_equivocation_detected := false;
              res_equivocation_epoch := None;
              res_verifier_ops := ops |}.
Proof.
  assert (Hfar : no_neighbour_of (sample_digest_prefix 0%nat `mod` Q_NODES)
    ((λ i, sample_digest_prefix i `mod` Q_NODES) <$> seq 0 NODE_COUNT) = true)
    by (vm_compute; reflexivity).
  assert (Hfix : fadd (R:=float) (fmul DTC_ALPHA ivc_state)
                   (fmul (fsub (lit 1) DTC_ALPHA) ivc_state) = ivc_state)
    by (vm_compute; reflexivity).
  assert (Hrefl : fne (R:=float) ivc_state ivc_state = false)
    by (vm_compute; reflexivity).
  assert (Hsmall : fgt (R:=float) (fabs ivc_state) DTC_THRESHOLD = false)
    by (vm_compute; reflexivity).
  split; [exact Hfar|]. split; [exact Hfix|]. split; [exact Hrefl|].
  split; [exact Hsmall|].
  exact (run_without_neighbour_of_node_0 nat sample_packet_lost
           sample_draw_delay sample_address sample_digest_prefix 5%nat
           Hfar Hfix Hrefl Hsmall).
Defined.

End GossipFacts.

(** * Further properties *)

(** ** The ledger: composition of its operations, and the audit runner *)

Module LedgerRunFacts.

Import EpochFinalityAudit EpochFinalityRun.

(** Storing under a key the dict does not have appends an item. *)
Lemma dict_set_fresh d k n :
  dict_get d k = None → dict_set d k n = d ++ [(k, n)].
Proof.
  induction d as [|[k' n'] d IH]; simpl; [done|].
  destruct (decide (k' = k)); [done|]. intros Hk. by rewrite IH.
Qed.

Lemma dict_get_fmap_keys (f : nat → Z * EpochNode) (l : list nat) k :
  (∀ e, (f e).1 = Z.of_nat e) →
  (∀ e, e ∈ l → Z.of_nat e ≠ k) →
  dict_get (f <$> l) k = None.
Proof.
  intros Hkey. induction l as [|e l IH]; intros Hl; simpl; [done|].
  destruct (f e) as [k' n'] eqn:He. specialize (Hkey e). rewrite He in Hkey.
  simpl in Hkey. subst k'.
  rewrite decide_False by (apply Hl; by left).
  apply IH. intros e' He'. apply Hl. by right.
Qed.

Lemma dict_get_fmap_key (f : nat → Z * EpochNode) (m e : nat) :
  (∀ e, (f e).1 = Z.of_nat e) →
  (e < m)%nat →
  dict_get (f <$> seq 0 m) (Z.of_nat e) = Some (f e).2.
Proof.
  intros Hkey He. induction m as [|m IH]; [lia|].
  rewrite seq_S, fmap_app. simpl.
  destruct (decide (e = m)) as [->|Hne].
  - assert (Hnone : dict_get (f <$> seq 0 m) (Z.of_nat m) = None).
    { apply dict_get_fmap_keys; [done|]. intros e' He'%elem_of_seq. lia. }
    clear IH. revert Hnone. generalize (f <$> seq 0 m). intros d.
    induction d as [|[k' n'] d IHd]; simpl.
    + intros _. destruct (f m) as [k n] eqn:Hm. specialize (Hkey m).
      rewrite Hm in Hkey. simpl in *. subst k. by rewrite decide_True.
    + destruct (decide (k' = Z.of_nat m)); [done|]. apply IHd.
  - assert (Hsome : dict_get (f <$> seq 0 m) (Z.of_nat e) = Some (f e).2)
      by (apply IH; lia).
    clear IH. revert Hsome. generalize (f <$> seq 0 m). intros d.
    induction d as [|[k' n'] d IHd]; simpl; [done|].
    destruct (decide (k' = Z.of_nat e)); [done|]. apply IHd.
Qed.

Lemma last_root_unchanged upto items fr :
  (∀ item, item ∈ items → ¬ item.1 ≤ upto) →
  last_root upto items fr = fr.
Proof.
  induction items as [|item items IH] using rev_ind; intros Hitems; [done|].
  rewrite LedgerFacts.last_root_snoc, bool_decide_eq_false_2.
  - apply IH. intros it Hit. apply Hitems, elem_of_app. by left.
  - apply Hitems, elem_of_app. right. by apply list_elem_of_singleton.
Qed.

Lemma last_root_app upto items1 items2 fr :
  last_root upto (items1 ++ items2) fr
  = last_root upto items2 (last_root upto items1 fr).
Proof. unfold last_root. by rewrite fold_left_app. Qed.

Section WithHash.

Variable hash : Z → option Z → Z.

(** One turn of the honest build takes the ledger built for [m] epochs to
    the ledger built for [m + 1]. *)
Lemma honest_build_step (window : Z) (m : nat) :
  0 ≤ window →
  (if bool_decide (window ≤ Z.of_nat m)
   then finalize_up_to (Z.of_nat m - window)
          (add_epoch hash (Z.of_nat m) (honest_parent (Z.of_nat m))
             (built hash window m)).2
   else (add_epoch hash (Z.of_nat m) (honest_parent (Z.of_nat m))
           (built hash window m)).2)
  = built hash window (S m).
Proof.
  intros Hw.
  assert (Hadded :
    nodes (add_epoch hash (Z.of_nat m) (honest_parent (Z.of_nat m))
             (built hash window m)).2
    = built_node hash window m <$> seq 0 (S m)).
  { unfold add_epoch, built. cbn [snd nodes]. rewrite dict_set_fresh.
    - rewrite seq_S, fmap_app. simpl. unfold built_node, fresh_node.
      by rewrite (bool_decide_eq_false_2 (Z.of_nat m ≤ _)) by lia.
    - apply dict_get_fmap_keys; [done|]. intros e He%elem_of_seq. lia. }
  case_bool_decide as Hm.
  - rewrite LedgerFacts.finalize_up_to_eq, Hadded. unfold built. f_equal.
    + rewrite <- list_fmap_compose. apply list_fmap_ext. intros i e _. simpl.
      unfold finalize_node, built_node, set_finalized. simpl.
      case_bool_decide.
      * by rewrite bool_decide_eq_true_2 by lia.
      * by rewrite !bool_decide_eq_false_2 by lia.
    + rewrite (bool_decide_eq_true_2 (window < Z.of_nat (S m))) by lia.
      replace (Z.of_nat (S m) - 1 - window) with (Z.of_nat m - window) by lia.
      set (j := Z.to_nat (Z.of_nat m - window)).
      replace (S m) with (S j + (m - j))%nat by lia.
      rewrite seq_app, fmap_app, last_root_app, last_root_unchanged.
      * rewrite seq_S, fmap_app. simpl. rewrite LedgerFacts.last_root_snoc.
        simpl. rewrite bool_decide_eq_true_2 by lia.
        by replace (Z.of_nat j) with (Z.of_nat m - window) by lia.
      * intros item (e & -> & He%elem_of_seq)%list_elem_of_fmap. simpl. lia.
  - unfold add_epoch in *. cbn [snd nodes] in *. rewrite Hadded.
    unfold built. cbn [nodes final_root verifier_ops]. f_equal.
    + apply list_fmap_ext. intros i e He. apply lookup_seq in He as [-> Hlt].
      unfold built_node. by rewrite !bool_decide_eq_false_2 by lia.
    + by rewrite !bool_decide_eq_false_2 by lia.
Qed.

Lemma built_empty (window : Z) : 0 ≤ window → built hash window 0 = new_ledger.
Proof.
  intros Hw. unfold built, new_ledger. simpl.
  by rewrite bool_decide_eq_false_2 by lia.
Qed.

Lemma honest_build_built (window : Z) (n : nat) :
  0 ≤ window →
  ∀ m, honest_build hash window n (Z.of_nat m) (built hash window m)
       = built hash window (m + n).
Proof.
  intros Hw. induction n as [|n IH]; intros m; simpl.
  - by rewrite Nat.add_0_r.
  - rewrite honest_build_step by done.
    replace (Z.of_nat m + 1) with (Z.of_nat (S m)) by lia.
    rewrite IH. f_equal. lia.
Qed.

(** The honest build of [m] epochs with a finality window [window]: the
    node map holds the epochs [0 .. m - 1] in order, each on its
    predecessor, finalized exactly up to epoch [m - 1 - window]; a late
    injection for any epoch [e] is rejected exactly when its parent [p] is
    one of the finalized epochs [0 .. m - 1 - window], and accepted when
    [p] is still inside the window or not in the ledger at all. *)
Theorem late_injection_after_honest_build (window : Z) (m : nat) (e p : Z) :
  0 ≤ window →
  let ledger := honest_build hash window m 0 new_ledger in
  ledger = built hash window m
  ∧ ((try_late_injection hash e p ledger).1 = false
     ↔ 0 ≤ p ≤ Z.of_nat m - 1 - window).
Proof.
  intros Hw ledger.
  assert (Hbuilt : ledger = built hash window m).
  { subst ledger. rewrite <- (built_empty window Hw).
    exact (honest_build_built window m Hw 0%nat). }
  split; [done|]. rewrite Hbuilt.
  unfold try_late_injection, built. cbn [nodes].
  destruct (decide (0 ≤ p < Z.of_nat m)) as [Hp|Hp].
  - replace p with (Z.of_nat (Z.to_nat p)) at 1 by lia.
    rewrite dict_get_fmap_key by (done || lia). cbn [snd built_node finalized].
    case_bool_decide; simpl; split; intros; (done || lia).
  - rewrite dict_get_fmap_keys; [|done|].
    + simpl. split; [done|lia].
    + intros e' He'%elem_of_seq. lia.
Qed.

(** The audit runner passes for every draw: whatever parent in
    [0 .. 119] the generator picks and whatever the hash function, the
    late injection of epoch 160 is rejected, the result names the epoch
    and the parent, 129 operations are counted (128 insertions and the
    injection), [final_root] is the root of epoch 119, and [main] returns
    without raising. *)
Theorem finality_audit_passes_for_every_draw (target_parent : Z) :
  0 ≤ target_parent ≤ 119 →
  run_epoch_finality_audit hash target_parent
  = {| safety_ok := true;
       res_final_root := Some (hash 119 (Some 118));
       detection_epoch := Some 160;
       rejected_parent := Some target_parent;
       res_verifier_ops := 129 |}
  ∧ main hash target_parent = Ok (run_epoch_finality_audit hash target_parent).
Proof.
  intros Hp.
  assert (Hrun : run_epoch_finality_audit hash target_parent
    = {| safety_ok := true;
         res_final_root := Some (hash 119 (Some 118));
         detection_epoch := Some 160;
         rejected_parent := Some target_parent;
         res_verifier_ops := 129 |}).
  { unfold run_epoch_finality_audit.
    assert (Hw : 0 ≤ FINALITY_WINDOW) by (unfold FINALITY_WINDOW; lia).
    rewrite <- (built_empty FINALITY_WINDOW Hw).
    pose proof (honest_build_built FINALITY_WINDOW MAX_EPOCHS Hw 0%nat) as Hb.
    change (Z.of_nat 0) with 0 in Hb. rewrite Hb. clear Hb.
    unfold try_late_injection, built. cbn [nodes].
    replace target_parent with (Z.of_nat (Z.to_nat target_parent)) at 1 by lia.
    rewrite dict_get_fmap_key;
      [|done|unfold MAX_EPOCHS; cbn [Nat.add]; lia].
    cbn [snd built_node finalized].
    rewrite bool_decide_eq_true_2
      by (unfold MAX_EPOCHS, FINALITY_WINDOW; cbn [Nat.add]; lia).
    reflexivity. }
  split; [done|]. unfold main. by rewrite Hrun.
Qed.

(** [verifier_ops] counts the insertions and the injection attempts, and
    nothing else: after any sequence of operations it has grown by the
    number of [add_epoch] and [try_late_injection] calls in it, accepted
    or rejected, while [finalize_up_to] never counts. *)
Theorem ledger_ops_count_insertions (os : list Op) (L : EpochLedger) :
  verifier_ops (run_ops hash os L)
  = (verifier_ops L + length (filter (λ o, counted o = true) os))%nat.
Proof.
  revert L. induction os as [|o os IH]; intros L; [simpl; lia|].
  change (run_ops hash (o :: os) L) with (run_ops hash os (run_op hash o L)).
  rewrite IH. destruct o as [e p|e|e p]; cbn [run_op].
  - rewrite filter_cons_True by done. simpl. lia.
  - rewrite filter_cons_False by done.
    by rewrite LedgerFacts.finalize_up_to_eq.
  - rewrite filter_cons_True by done. unfold try_late_injection.
    destruct (match dict_get (nodes L) p with
              | Some n => finalized n
              | None => false
              end); simpl; lia.
Qed.

Lemma run_ops_hashed (os : list Op) :
  ∀ L, Forall (λ item, epoch item.2 = item.1
                       ∧ root item.2 = hash item.1 (parent item.2)) (nodes L) →
       Forall (λ item, epoch item.2 = item.1
                       ∧ root item.2 = hash item.1 (parent item.2))
         (nodes (run_ops hash os L)).
Proof.
  induction os as [|o os IH]; intros L HL; [done|].
  change (run_ops hash (o :: os) L) with (run_ops hash os (run_op hash o L)).
  apply IH.
  assert (Hset : ∀ e p, Forall (λ item, epoch item.2 = item.1
                                 ∧ root item.2 = hash item.1 (parent item.2))
                          (dict_set (nodes L) e (fresh_node e p (hash e p)))).
  { intros e p. revert HL. generalize (nodes L). intros d Hd.
    induction Hd as [|[k' n'] d Hhd Htl IHd]; simpl.
    - by repeat constructor.
    - destruct (decide (k' = e)); constructor; auto. }
  destruct o as [e p|e|e p]; cbn [run_op].
  - apply Hset.
  - rewrite LedgerFacts.finalize_up_to_eq. cbn [nodes].
    apply Forall_fmap. eapply Forall_impl; [exact HL|].
    intros [k' n'] Hn'. simpl in *. unfold finalize_node. simpl.
    by destruct (bool_decide (k' ≤ e)).
  - unfold try_late_injection.
    destruct (match dict_get (nodes L) p with
              | Some n => finalized n
              | None => false
              end); cbn [snd nodes]; [done|apply Hset].
Qed.

(** In a ledger built from the empty one by any sequence of operations,
    the node found under a key carries that key as its [epoch], and its
    root is the hash of its epoch and parent. *)
Theorem ledger_nodes_well_formed (os : list Op) (k : Z) (n : EpochNode) :
  dict_get (nodes (run_ops hash os new_ledger)) k = Some n →
  epoch n = k ∧ root n = hash k (parent n).
Proof.
  pose proof (run_ops_hashed os new_ledger (Forall_nil_2 _)) as Hall.
  revert Hall. generalize (nodes (run_ops hash os new_ledger)).
  intros d Hd. induction Hd as [|[k' n'] d Hhd _ IHd]; simpl; [done|].
  destruct (decide (k' = k)) as [<-|]; [|done].
  by intros [= <-].
Qed.

End WithHash.

(** The roots and keys [last_root] reads are not touched by a finalizing
    pass, whatever its bound. *)
Lemma last_root_after_pass upto upto' items fr :
  last_root upto (finalize_node upto' <$> items) fr = last_root upto items fr.
Proof.
  induction items as [|item items IH] using rev_ind; [done|].
  rewrite fmap_app. simpl. rewrite !LedgerFacts.last_root_snoc, IH.
  destruct item as [e node]. unfold finalize_node. simpl.
  by destruct (bool_decide (e ≤ upto')).
Qed.

(** When some item is within the bound, [last_root] does not depend on
    the value it starts from. *)
Lemma last_root_found upto items fr fr' :
  (∃ item, item ∈ items ∧ item.1 ≤ upto) →
  last_root upto items fr = last_root upto items fr'.
Proof.
  induction items as [|item items IH] using rev_ind.
  - intros (item & Hin & _). by apply not_elem_of_nil in Hin.
  - intros (item' & Hin & Hle). rewrite !LedgerFacts.last_root_snoc.
    case_bool_decide as Hitem; [done|].
    apply IH. apply elem_of_app in Hin as [Hin|Hin]; [by eauto|].
    apply list_elem_of_singleton in Hin as ->. done.
Qed.

(** Two [finalize_up_to] calls in a row, in either order of their bounds,
    leave the node map that one call with the larger bound leaves: a
    later call with a smaller bound resets no flag.  But [final_root]
    follows the last call: if any key is within the second bound, it is
    what a single call with the second bound leaves, so a call with a
    smaller bound moves [final_root] back to an older root. *)
Theorem finalize_up_to_twice (e1 e2 : Z) (L : EpochLedger) :
  nodes (finalize_up_to e2 (finalize_up_to e1 L))
  = nodes (finalize_up_to (Z.max e1 e2) L)
  ∧ ((∃ item, item ∈ nodes L ∧ item.1 ≤ e2) →
     final_root (finalize_up_to e2 (finalize_up_to e1 L))
     = final_root (finalize_up_to e2 L))
  ∧ ((¬ ∃ item, item ∈ nodes L ∧ item.1 ≤ e2) →
     final_root (finalize_up_to e2 (finalize_up_to e1 L))
     = final_root (finalize_up_to e1 L)).
Proof.
  rewrite !LedgerFacts.finalize_up_to_eq. cbn [nodes final_root].
  split; [|split].
  - rewrite <- list_fmap_compose. apply list_fmap_ext.
    intros i [k n] _. unfold finalize_node. simpl.
    destruct (bool_decide (k ≤ e1)) eqn:H1; simpl;
      destruct (bool_decide (k ≤ e2)) eqn:H2; simpl;
      [apply bool_decide_eq_true in H1|apply bool_decide_eq_true in H1
      |apply bool_decide_eq_false in H1|apply bool_decide_eq_false in H1];
      [apply bool_decide_eq_true in H2|apply bool_decide_eq_false in H2
      |apply bool_decide_eq_true in H2|apply bool_decide_eq_false in H2].
    + by rewrite bool_decide_eq_true_2 by lia.
    + by rewrite bool_decide_eq_true_2 by lia.
    + by rewrite bool_decide_eq_true_2 by lia.
    + by rewrite bool_decide_eq_false_2 by lia.
  - intros Hfound. rewrite last_root_after_pass. by apply last_root_found.
  - intros Hnone. rewrite last_root_after_pass. apply last_root_unchanged.
    intros item Hin Hle. apply Hnone. eauto.
Qed.

(** Sample: after epochs 1, 2 and 3 are added, [finalize_up_to(3)] then
    [finalize_up_to(1)] leaves all three finalized and [final_root] at the
    root of epoch 1. *)
Example finalize_lower_bound_moves_root_back :
  let L := run_ops sample_hash
             [AddEpoch 1 None; AddEpoch 2 (Some 1); AddEpoch 3 (Some 2);
              FinalizeUpTo 3; FinalizeUpTo 1] new_ledger in
  (finalized ∘ snd) <$> nodes L = [true; true; true]
  ∧ final_root L = Some (sample_hash 1 None).
Proof. vm_compute. done. Qed.

Lemma late_injection_after_honest_build_witness :
  0 ≤ 8
  ∧ honest_build sample_hash 8 20 0 new_ledger = built sample_hash 8 20
  ∧ ((try_late_injection sample_hash 52 11
        (honest_build sample_hash 8 20 0 new_ledger)).1 = false
     ↔ 0 ≤ 11 ≤ Z.of_nat 20 - 1 - 8).
Proof.
  assert (Hw : 0 ≤ 8) by lia. split; [exact Hw|].
  exact (late_injection_after_honest_build sample_hash 8 20 52 11 Hw).
Defined.

Lemma finality_audit_passes_for_every_draw_witness :
  0 ≤ 100 ≤ 119
  ∧ run_epoch_finality_audit sample_hash 100
    = {| safety_ok := true;
         res_final_root := Some (sample_hash 119 (Some 118));
         detection_epoch := Some 160;
         rejected_parent := Some 100;
         res_verifier_ops := 129 |}
  ∧ main sample_hash 100 = Ok (run_epoch_finality_audit sample_hash 100).
Proof.
  assert (Hp : 0 ≤ 100 ≤ 119) by lia. split; [exact Hp|].
  exact (finality_audit_passes_for_every_draw sample_hash 100 Hp).
Defined.

Lemma ledger_nodes_well_formed_witness :
  dict_get
    (nodes (run_ops sample_hash
              [AddEpoch 4 (Some 3); FinalizeUpTo 4; TryLateInjection 9 7]
              new_ledger)) 9
  = Some (mkNode 9 (Some 7) (sample_hash 9 (Some 7)) false)
  ∧ epoch (mkNode 9 (Some 7) (sample_hash 9 (Some 7)) false) = 9
  ∧ root (mkNode 9 (Some 7) (sample_hash 9 (Some 7)) false)
    = sample_hash 9 (parent (mkNode 9 (Some 7) (sample_hash 9 (Some 7)) false)).
Proof.
  assert (Hget : dict_get
    (nodes (run_ops sample_hash
              [AddEpoch 4 (Some 3); FinalizeUpTo 4; TryLateInjection 9 7]
              new_ledger)) 9
    = Some (mkNode 9 (Some 7) (sample_hash 9 (Some 7)) false))
    by (vm_compute; reflexivity).
  split; [exact Hget|].
  exact (ledger_nodes_well_formed sample_hash
           [AddEpoch 4 (Some 3); FinalizeUpTo 4; TryLateInjection 9 7]
           9 _ Hget).
Defined.

End LedgerRunFacts.

(** ** The equivocation audit run *)

Module EquivocationRunFacts.
Import EquivocationAudit EquivocationRun.

Section Run.

Context {R : Type} `{Arith R}.
Variable commit : Z → Z → R → Z.
Variable uniform : Z → R.

#[local] Abbreviation evolve_branch := (evolve_branch commit uniform).
#[local] Abbreviation epoch_loop := (epoch_loop commit uniform).
#[local] Abbreviation honest := (honest commit).
#[local] Abbreviation forced_root := (forced_root commit uniform).
#[local] Abbreviation first_divergence := (first_divergence commit uniform).
#[local] Abbreviation report := (report commit).

(** Right after [evolve_branch], [history[-1]] is the commitment it
    appended. *)
Lemma history_last_evolved (b : BranchState R) e fp adv :
  history_last (evolve_branch b e fp adv)
  = Ok (mkCommitment e
          (match fp with Some p => p | None => current_root b end)
          (current_root (evolve_branch b e fp adv))).
Proof. unfold history_last. simpl. by rewrite last_snoc. Qed.

(** From a state reached after [k] epochs without detection, the loop
    over the next [n] epochs stops at the first epoch in which the forced
    root differs from the honest one. *)
Lemma epoch_loop_report (n : nat) : ∀ (k : nat) (a b : BranchState R) v,
  name a = "Branch_A" →
  state_value a = (honest k).1 →
  current_root a = (honest k).2 →
  name b = "Branch_B" →
  state_value b = forced_state uniform k →
  ops v = (2 * k)%nat →
  (∀ key, is_Some (seen v !! key) → key.1 ≤ Z.of_nat k) →
  epoch_loop (Z.of_nat <$> seq (S k) n) a b v
  = Ok (report (k + n) (first_divergence (seq (S k) n))).
Proof.
  induction n as [|n IH]; intros k a b v Hna Hsa Hra Hnb Hsb Hops Hkeys.
  - simpl. rewrite Nat.add_0_r, Hops, Hra. done.
  - cbn [seq fmap list_fmap EquivocationRun.epoch_loop].
    rewrite history_last_evolved. cbn [mbind result_bind parent_root].
    unfold submit_both. rewrite !history_last_evolved.
    cbn [mbind result_bind].
    set (a' := evolve_branch a (Z.of_nat (S k)) None false).
    set (b' := evolve_branch b (Z.of_nat (S k)) (Some (current_root a)) true).
    assert (Hra' : current_root a' = (honest (S k)).2).
    { subst a'. cbn [EquivocationRun.evolve_branch current_root
        EquivocationRun.honest snd fst].
      unfold next_state. by rewrite Hsa, Hra. }
    assert (Hsa' : state_value a' = (honest (S k)).1).
    { subst a'. cbn [EquivocationRun.evolve_branch state_value
        EquivocationRun.honest snd fst].
      unfold next_state. by rewrite Hsa. }
    assert (Hrb' : current_root b' = forced_root (S k)).
    { subst b'. cbn [EquivocationRun.evolve_branch current_root].
      unfold EquivocationRun.forced_root.
      cbn [pred EquivocationRun.forced_state]. unfold next_state.
      by rewrite Hsb, Hra. }
    assert (Hsb' : state_value b' = forced_state uniform (S k)).
    { subst b'. cbn [EquivocationRun.evolve_branch state_value
        EquivocationRun.forced_state]. unfold next_state. by rewrite Hsb. }
    assert (Hfresh : seen v !! (Z.of_nat (S k), current_root a) = None).
    { destruct (seen v !! (Z.of_nat (S k), current_root a)) eqn:E; [|done].
      specialize (Hkeys (Z.of_nat (S k), current_root a)).
      rewrite E in Hkeys. specialize (Hkeys (mk_is_Some _ _ eq_refl)).
      simpl in Hkeys. lia. }
    change (name a') with (name a). change (name b') with (name b).
    rewrite Hna, Hnb.
    set (cA := mkCommitment (Z.of_nat (S k)) (current_root a) (current_root a')).
    set (cB := mkCommitment (Z.of_nat (S k)) (current_root a) (current_root b')).
    assert (HoA : observe cA "Branch_A" v
      = ((false, None, None),
         {| seen := <[(Z.of_nat (S k), current_root a)
                      := (current_root a', "Branch_A")]> (seen v);
            ops := S (ops v) |})).
    { unfold observe, key_of. cbn [epoch parent_root state_root cA].
      by rewrite Hfresh. }
    rewrite HoA. cbn [fst snd].
    set (v1 := {| seen := _; ops := S (ops v) |}).
    unfold EquivocationRun.first_divergence. rewrite filter_cons.
    unfold observe, key_of. cbn [epoch parent_root state_root cB seen ops v1].
    rewrite lookup_insert_eq.
    destruct (decide (forced_root (S k) ≠ (honest (S k)).2)) as [Hd|Hd].
    + rewrite bool_decide_eq_true_2 by (rewrite Hra', Hrb'; congruence).
      cbn [mbind result_bind head EquivocationRun.report ops].
      rewrite Hra', Hops. do 2 f_equal. lia.
    + apply dec_stable in Hd.
      rewrite bool_decide_eq_false_2
        by (rewrite Hra', Hrb'; intros Hx; by apply Hx).
      cbn [mbind result_bind].
      rewrite (IH (S k)); try done.
      * by rewrite Nat.add_succ_r.
      * cbn [ops]. rewrite Hops. lia.
      * intros key. cbn [seen]. intros Hs.
        destruct (decide (key = (Z.of_nat (S k), current_root a))) as [->|Hne].
        { simpl. lia. }
        rewrite !lookup_insert_ne in Hs by done.
        specialize (Hkeys key Hs). lia.
Qed.

(** The loop started as [run_equivocation_audit] starts it. *)
Lemma epoch_loop_from_genesis (n : nat) :
  epoch_loop (Z.of_nat <$> seq 1 n)
    (mkBranch "Branch_A" (lit 0.0) (genesis_root commit) [])
    (mkBranch "Branch_B" (lit 0.0) (genesis_root commit) [])
    new_verifier
  = Ok (report n (first_divergence (seq 1 n))).
Proof.
  apply (epoch_loop_report n 0); try done.
  intros key [x Hx]. simpl in Hx. by rewrite lookup_empty in Hx.
Qed.

(** The run never raises, and what it reports is fixed by the first epoch
    in which the forced branch commits to a root other than the honest
    one: detection in that epoch, [Branch_B] rejected, two verifier
    operations per epoch run, and the honest root of that epoch as
    [final_root]; with no such epoch among the 64, no detection and 128
    operations. *)
Theorem run_reports_first_divergence :
  run_equivocation_audit commit uniform
  = Ok (report MAX_EPOCHS (first_divergence (seq 1 MAX_EPOCHS))).
Proof. apply epoch_loop_from_genesis. Qed.

(** [main] raises exactly when, in every one of the 64 epochs, the forced
    branch commits to the root the honest branch commits to. *)
Theorem main_raises_iff_roots_coincide :
  main commit uniform = Raise "EQUIVOCATION NOT DETECTED — SAFETY FAILURE"
  ↔ ∀ e : nat, (1 ≤ e ≤ MAX_EPOCHS)%nat → forced_root e = (honest e).2.
Proof.
  unfold main, run_equivocation_audit.
  rewrite epoch_loop_from_genesis.
  cbn [mbind result_bind]. unfold EquivocationRun.first_divergence.
  destruct (filter _ (seq 1 MAX_EPOCHS)) as [|e l] eqn:E; cbn [head report
    EquivocationRun.report equivocation_detected negb].
  - split; [|done]. intros _ e He.
    destruct (decide (forced_root e = (honest e).2)) as [|Hne]; [done|].
    assert (Hin : e ∈ filter (λ e, forced_root e ≠ (honest e).2)
                        (seq 1 MAX_EPOCHS)).
    { apply list_elem_of_filter. split; [done|].
      apply elem_of_seq. lia. }
    rewrite E in Hin. by apply not_elem_of_nil in Hin.
  - split; [done|]. intros Hall.
    assert (Hin : e ∈ filter (λ e, forced_root e ≠ (honest e).2)
                        (seq 1 MAX_EPOCHS)) by (rewrite E; left).
    apply list_elem_of_filter in Hin as [Hne Hin].
    apply elem_of_seq in Hin. exfalso. apply Hne, Hall. lia.
Qed.

End Run.

End EquivocationRunFacts.

(** ** The folding audit run *)

Module FoldingRunFacts.
Import IvcFoldingAudit IvcFoldingRun.

Section AnyArithmetic.

Context {R : Type} `{Arith R}.

(** Where the loop stops and what it has counted by then: either it breaks
    at one of the depths it was given, after two folds per depth run, or it
    runs through all of them. *)
Lemma audit_loop_report (k : nat) (delta bound : R) (ws : list R) :
  ∀ (depth : nat) (eA eB : FoldingEngine R) (sA sB : FoldState R),
    let r := audit_loop k delta bound ws depth eA eB sA sB in
    (equivocation_detected r = true
     ∧ ∃ j, (j < length ws)%nat
          ∧ detection_depth r = Z.of_nat (depth + j)
          ∧ res_verifier_ops r
            = (verifier_ops eA + verifier_ops eB + 2 * S j)%nat)
    ∨ (equivocation_detected r = false
       ∧ detection_depth r = -1
       ∧ res_verifier_ops r
         = (verifier_ops eA + verifier_ops eB + 2 * length ws)%nat).
Proof.
  induction ws as [|w ws IH]; intros depth eA eB sA sB r; subst r.
  - right. cbn [audit_loop equivocation_detected detection_depth
      res_verifier_ops length]. repeat split. lia.
  - cbn [audit_loop fold].
    match goal with |- context [if fgt ?a ?b then _ else _] =>
      destruct (fgt a b) eqn:Hgt end.
    + left. cbn [equivocation_detected detection_depth res_verifier_ops
        verifier_ops]. split; [done|]. exists 0%nat.
      cbn [length]. rewrite Nat.add_0_r. repeat split; lia.
    + match goal with |- context [audit_loop k delta bound ws ?d ?a ?b ?x ?y] =>
        destruct (IH d a b x y) as [(Hdet & j & Hj & Hdepth & Hops)
                                   |(Hdet & Hdepth & Hops)] end.
      * left. split; [done|]. exists (S j). cbn [length].
        split; [lia|]. rewrite Hdepth, Hops. cbn [verifier_ops].
        split; [f_equal; lia|lia].
      * right. split; [done|]. split; [done|]. rewrite Hops.
        cbn [verifier_ops length]. lia.
Qed.

(** The audit from fresh engines runs two folds per depth, one on each
    engine: a run that detects at depth [d] reports [2 * d] verifier
    operations, with [d] one of the depths of the schedule, and a run that
    detects nothing reports depth [-1] and two operations per depth of the
    schedule. *)
Theorem audit_counts_two_folds_per_depth (k : nat) (delta bound : R)
    (ws : list R) :
  let r := divergence_audit k delta bound ws in
  if equivocation_detected r
  then ∃ d, (1 ≤ d ≤ length ws)%nat
          ∧ detection_depth r = Z.of_nat d
          ∧ res_verifier_ops r = (2 * d)%nat
  else detection_depth r = -1
       ∧ res_verifier_ops r = (2 * length ws)%nat.
Proof.
  intros r. subst r. unfold divergence_audit.
  match goal with |- context [audit_loop k delta bound ws ?d ?a ?b ?x ?y] =>
    destruct (audit_loop_report k delta bound ws d a b x y)
      as [(Hdet & j & Hj & Hdepth & Hops)|(Hdet & Hdepth & Hops)] end;
    rewrite Hdet.
  - exists (S j). rewrite Hdepth, Hops. cbn [new_engine verifier_ops].
    repeat split; lia.
  - rewrite Hdepth, Hops. cbn [new_engine verifier_ops]. split; lia.
Qed.

End AnyArithmetic.

(** In double arithmetic, whatever the draws are (NaN and infinities
    included), the script's run cannot fire before the perturbed depth: a
    detection lies at a depth from 32 to 64, after twice that many
    verifier operations. *)
Theorem binary64_run_detects_from_depth_32_on (draws : list float) :
  let r := run_ivc_folding_equivocation_audit (R:=float) draws in
  if equivocation_detected r
  then 32 ≤ detection_depth r ≤ 64
       ∧ Z.of_nat (res_verifier_ops r) = 2 * detection_depth r
  else detection_depth r = -1.
Proof.
  intros r. subst r. unfold run_ivc_folding_equivocation_audit, divergence_audit.
  set (ws := take MAX_DEPTH draws).
  assert (Hlen : (length ws ≤ 64)%nat).
  { subst ws. rewrite length_take. unfold MAX_DEPTH. lia. }
  rewrite <- (take_drop 31 ws).
  rewrite FoldingFacts.audit_loop_prefix.
  2: { apply FoldingFacts.binary64_silent_on_equal. reflexivity. }
  2: { rewrite length_take. change (MAX_DEPTH / 2)%nat with 32%nat. lia. }
  match goal with |- context [audit_loop ?k ?dl ?bd ?l ?d ?a ?b ?x ?y] =>
    destruct (audit_loop_report k dl bd l d a b x y)
      as [(Hdet & j & Hj & Hdepth & Hops)|(Hdet & Hdepth & Hops)] end;
    rewrite Hdet; [|done].
  rewrite Hdepth, Hops, !FoldingFacts.fold_all_ops.
  cbn [new_engine verifier_ops].
  rewrite length_drop in Hj. rewrite length_take. split; lia.
Qed.

(** Sample: on draws [0.3] the run detects at depth 32 and [main] passes
    its gate; on draws [1e17], which absorb the perturbation, it detects
    nothing and [main] raises. *)
Example main_gate_binary64 :
  main (R:=float) (replicate 64 (lit 0.3))
  = Ok (run_ivc_folding_equivocation_audit (replicate 64 (lit 0.3)))
  ∧ detection_depth
      (run_ivc_folding_equivocation_audit (R:=float) (replicate 64 (lit 0.3)))
    = 32
  ∧ main (R:=float) (replicate 64 (lit 1e17))
    = Raise "IVC FOLDING EQUIVOCATION NOT DETECTED — SAFETY FAILURE".
Proof. vm_compute. by repeat split. Qed.

End FoldingRunFacts.

(** ** The adversarial scheduler, the fault injector and the run *)

Module AdversarialRunFacts.
Import AdversarialAudit AdversarialRun.

Section Scheduler.

Context {R : Type} `{Arith R}.

(** The first [m] blocks, put back together, are the first
    [m * MAX_DELAY] frames. *)
Lemma concat_blocks_take (l : list (Frame R)) (m : nat) :
  mjoin ((λ i, take MAX_DELAY (drop i l))
            <$> ((λ k, k * MAX_DELAY)%nat <$> seq 0 m))
  = take (m * MAX_DELAY) l.
Proof.
  induction m as [|m IH]; [by rewrite take_0|].
  rewrite seq_S, !fmap_app, join_app, IH.
  change (0 + m)%nat with m. cbn [fmap list_fmap mjoin list_join].
  rewrite app_nil_r, take_take_drop. f_equal. lia.
Qed.

Lemma concat_blocks (buffer : list (Frame R)) :
  mjoin (blocks buffer) = buffer.
Proof.
  unfold blocks, block_starts. rewrite concat_blocks_take.
  apply take_ge. unfold MAX_DELAY.
  pose proof (Nat.div_mod_eq (length buffer + 32 - 1) 32) as Hdiv.
  pose proof (Nat.mod_upper_bound (length buffer + 32 - 1) 32). lia.
Qed.

(** The block list, one block at a time. *)
Lemma blocks_cons (buffer : list (Frame R)) :
  buffer ≠ [] →
  blocks buffer = take MAX_DELAY buffer :: blocks (drop MAX_DELAY buffer).
Proof.
  intros Hne. unfold blocks, block_starts.
  assert (Hlen : (0 < length buffer)%nat).
  { destruct buffer; [done|simpl; lia]. }
  rewrite length_drop.
  replace ((length buffer + MAX_DELAY - 1) / MAX_DELAY)%nat
    with (S ((length buffer - MAX_DELAY + MAX_DELAY - 1) / MAX_DELAY)).
  2: { unfold MAX_DELAY.
       destruct (decide (32 ≤ length buffer)%nat) as [Hge|Hlt].
       - replace (length buffer + 32 - 1)%nat
           with (1 * 32 + (length buffer - 32 + 32 - 1))%nat by lia.
         by rewrite Nat.div_add_l.
       - replace (length buffer - 32 + 32 - 1)%nat with 31%nat by lia.
         replace (length buffer + 32 - 1)%nat
           with (1 * 32 + (length buffer - 1))%nat by lia.
         rewrite Nat.div_add_l by done.
         rewrite (Nat.div_small (length buffer - 1)) by lia. done. }
  cbn [seq fmap list_fmap]. rewrite drop_0. f_equal.
  rewrite <- fmap_S_seq, <- !list_fmap_compose.
  apply list_fmap_ext. intros _ k _. unfold compose.
  by rewrite drop_drop.
Qed.

Lemma reverse_blocks_nil : reverse_blocks (R:=R) [] = [].
Proof. reflexivity. Qed.

Lemma reverse_blocks_cons (buffer : list (Frame R)) :
  buffer ≠ [] →
  reverse_blocks buffer
  = reverse (take MAX_DELAY buffer) ++ reverse_blocks (drop MAX_DELAY buffer).
Proof.
  intros Hne. unfold reverse_blocks. by rewrite blocks_cons.
Qed.

(** Reversing block by block moves no frame out of its block. *)
Lemma reverse_blocks_same_block (n : nat) : ∀ (buffer : list (Frame R)),
  (length buffer ≤ n)%nat →
  ∀ i x, buffer !! i = Some x →
    ∃ j, reverse_blocks buffer !! j = Some x
         ∧ (j / MAX_DELAY = i / MAX_DELAY)%nat.
Proof.
  induction n as [|n IH]; intros buffer Hn i x Hi.
  { destruct buffer; [done|simpl in Hn; lia]. }
  assert (Hne : buffer ≠ []) by (by destruct buffer).
  rewrite reverse_blocks_cons by done.
  destruct (decide (i < MAX_DELAY)%nat) as [Hlt|Hge].
  - pose proof (lookup_lt_Some _ _ _ Hi) as Hlen.
    set (b := take MAX_DELAY buffer).
    assert (Hb : (i < length b)%nat) by (subst b; rewrite length_take; lia).
    exists (length b - S i)%nat. split.
    + rewrite lookup_app_l by (rewrite length_reverse; lia).
      rewrite reverse_lookup by lia.
      replace (length b - S (length b - S i))%nat with i by lia.
      subst b. by rewrite lookup_take_lt.
    + assert (length b ≤ MAX_DELAY)%nat by (subst b; rewrite length_take; lia).
      rewrite !Nat.div_small; [done|lia|lia].
  - pose proof (lookup_lt_Some _ _ _ Hi) as Hlen.
    destruct (IH (drop MAX_DELAY buffer)) with (i := (i - MAX_DELAY)%nat) (x := x)
      as (j & Hj & Hblock).
    + rewrite length_drop. unfold MAX_DELAY. lia.
    + rewrite lookup_drop. rewrite <- Hi. f_equal. lia.
    + exists (MAX_DELAY + j)%nat. split.
      * rewrite lookup_app_r by (rewrite length_reverse, length_take; lia).
        rewrite length_reverse, length_take. rewrite <- Hj. f_equal. lia.
      * replace (MAX_DELAY + j)%nat with (1 * MAX_DELAY + j)%nat by lia.
        rewrite Nat.div_add_l by done. rewrite Hblock.
        replace i with (1 * MAX_DELAY + (i - MAX_DELAY))%nat at 2 by lia.
        by rewrite Nat.div_add_l.
Qed.

(** The first stage of [schedule] reorders and nothing else: its output is
    a permutation of the buffer, and every frame stays inside its block of
    [MAX_DELAY] positions, so no frame is moved by [MAX_DELAY] positions or
    more. *)
Theorem reverse_blocks_bounded_delay (buffer : list (Frame R)) :
  reverse_blocks buffer ≡ₚ buffer
  ∧ ∀ i x, buffer !! i = Some x →
      ∃ j, reverse_blocks buffer !! j = Some x
           ∧ (j / MAX_DELAY = i / MAX_DELAY)%nat.
Proof.
  split.
  - rewrite <- (concat_blocks buffer) at 2. unfold reverse_blocks.
    induction (blocks buffer) as [|b bs IH]; [done|].
    simpl. by rewrite IH, reverse_Permutation.
  - by apply (reverse_blocks_same_block (length buffer)).
Qed.

(** Popping positions leaves a sublist. *)
Lemma pop_all_sublist (positions : list nat) : ∀ (l : list (Frame R)),
  pop_all positions l `sublist_of` l.
Proof.
  induction positions as [|i positions IH]; intros l; [done|].
  simpl. etrans; [apply IH|]. apply sublist_delete.
Qed.

Lemma pop_all_length (positions : list nat) : ∀ (l : list (Frame R)),
  pops_in_range (length l) positions →
  length (pop_all positions l) = (length l - length positions)%nat.
Proof.
  induction positions as [|i positions IH]; intros l Hrange; simpl; [lia|].
  pose proof (Hrange 0%nat i eq_refl) as Hi.
  assert (Hdel : length (delete i l) = (length l - 1)%nat).
  { apply length_delete. apply lookup_lt_is_Some. lia. }
  rewrite IH; [lia|].
  intros k j Hj. rewrite Hdel. specialize (Hrange (S k) j Hj). lia.
Qed.

Lemma replays_length (l : list (Frame R)) (positions : list nat) :
  Forall (λ i, i < length l)%nat positions →
  length (omap (λ i, l !! i) positions) = length positions.
Proof.
  induction 1 as [|i positions Hi _ IH]; [done|].
  destruct (lookup_lt_is_Some_2 l i Hi) as [x Hx].
  cbn [omap list_omap]. rewrite Hx. cbn [length]. by rewrite IH.
Qed.

Lemma replays_from (l : list (Frame R)) (positions : list nat) (x : Frame R) :
  x ∈ omap (λ i, l !! i) positions → x ∈ l.
Proof.
  intros Hx. apply list_elem_of_omap in Hx as (i & _ & Hi).
  by apply list_elem_of_lookup_2 in Hi.
Qed.

(** The scheduler invents no frame: whatever the draws, every frame it
    hands on is a submitted frame, or a copy of a submitted frame (same
    index, same value) marked valid and stale. *)
Theorem schedule_provenance (buffer : list (Frame R))
    (replay_positions pop_positions : list nat) (j : nat) (f : Frame R) :
  schedule buffer replay_positions pop_positions !! j = Some f →
  f ∈ buffer ∨ ∃ g, g ∈ buffer ∧ f = stale_copy g.
Proof.
  intros Hj. apply list_elem_of_lookup_2 in Hj. unfold schedule in Hj.
  eapply elem_of_sublist in Hj; [|apply pop_all_sublist].
  assert (Hperm : ∀ x, x ∈ reverse_blocks buffer → x ∈ buffer).
  { intros x Hx. unfold reverse_blocks in Hx.
    rewrite <- (concat_blocks buffer).
    apply list_elem_of_join in Hx as (b & Hxb & Hb).
    apply list_elem_of_fmap in Hb as (b' & -> & Hb').
    apply list_elem_of_join. exists b'. split; [|done].
    by apply elem_of_reverse. }
  apply elem_of_app in Hj as [Hj|Hj]; [left; by apply Hperm|].
  right. apply list_elem_of_fmap in Hj as (g & -> & Hg).
  exists g. split; [|done]. apply Hperm. by eapply replays_from.
Qed.

(** The same, as an equation to rewrite with. *)
Lemma schedule_length_eq (buffer : list (Frame R))
    (replay_positions pop_positions : list nat) :
  (Nat.min MAX_REPLAYS (length buffer) ≤ length replay_positions)%nat →
  Forall (λ i, i < length buffer)%nat
    (take (Nat.min MAX_REPLAYS (length buffer)) replay_positions) →
  (scaled_length (float_of_decimal 0.05)
     (length buffer + Nat.min MAX_REPLAYS (length buffer))
   ≤ length pop_positions)%nat →
  pops_in_range (length buffer + Nat.min MAX_REPLAYS (length buffer))
    (take (scaled_length (float_of_decimal 0.05)
             (length buffer + Nat.min MAX_REPLAYS (length buffer)))
          pop_positions) →
  length (schedule buffer replay_positions pop_positions)
  = (length buffer + Nat.min MAX_REPLAYS (length buffer)
     - scaled_length (float_of_decimal 0.05)
         (length buffer + Nat.min MAX_REPLAYS (length buffer)))%nat.
Proof.
  set (n := length buffer). set (k := Nat.min MAX_REPLAYS n).
  set (drops := scaled_length (float_of_decimal 0.05) (n + k)).
  intros Hk Hreplay Hdrops Hpops.
  assert (Hlen : length (reverse_blocks buffer) = n).
  { apply Permutation_length.
    rewrite <- (concat_blocks buffer) at 2. unfold reverse_blocks.
    induction (blocks buffer) as [|b bs IH]; [done|].
    simpl. by rewrite IH, reverse_Permutation. }
  unfold schedule. rewrite Hlen. fold n k.
  assert (Hall : length (reverse_blocks buffer
                   ++ (stale_copy <$> omap (λ i, reverse_blocks buffer !! i)
                                        (take k replay_positions)))
                 = (n + k)%nat).
  { rewrite length_app, length_fmap, replays_length, Hlen, length_take
      by (by rewrite Hlen). lia. }
  rewrite Hall. fold drops.
  rewrite pop_all_length by (by rewrite Hall).
  rewrite Hall, length_take. lia.
Qed.

(** With draws as the generator can return them (replay positions inside
    the list, each pop position inside the list as it shrinks), the length
    of the schedule is fixed by the length of the buffer: the submitted
    frames, plus up to [MAX_REPLAYS] replays, less the drops, which are
    [int(0.05 * len)] in double arithmetic. *)
Theorem schedule_length (buffer : list (Frame R))
    (replay_positions pop_positions : list nat) :
  let n := length buffer in
  let k := Nat.min MAX_REPLAYS n in
  let drops := scaled_length (float_of_decimal 0.05) (n + k) in
  (k ≤ length replay_positions)%nat →
  Forall (λ i, i < n)%nat (take k replay_positions) →
  (drops ≤ length pop_positions)%nat →
  pops_in_range (n + k) (take drops pop_positions) →
  length (schedule buffer replay_positions pop_positions)
  = (n + k - drops)%nat.
Proof. intros n k drops. apply schedule_length_eq. Qed.

End Scheduler.

Section Injector.

Context {R : Type} `{Arith R}.

(** The in-place updates of [inject], one sampled position after the
    other. *)
Lemma corrupt_all_lookup (ops : list (nat * R)) :
  ∀ (frames : list (Frame R)) (i : nat) (f' : Frame R),
    fold_left (λ fs p, alter (corrupt p.2) p.1 fs) ops frames !! i = Some f' →
    ∃ f, frames !! i = Some f
         ∧ index f' = index f ∧ stale f' = stale f
         ∧ (i ∉ ops.*1 → f' = f)
         ∧ (i ∈ ops.*1 → valid f' = false).
Proof.
  induction ops as [|[p d] ops IH]; intros frames i f' Hi.
  - exists f'. cbn [fold_left] in Hi. repeat split; [done..|].
    intros Hin. by apply not_elem_of_nil in Hin.
  - cbn [fold_left fst snd] in Hi.
    destruct (IH _ _ _ Hi) as (f1 & Hf1 & Hidx & Hst & Hout & Hin).
    destruct (decide (p = i)) as [->|Hne].
    + rewrite list_lookup_alter_eq in Hf1.
      destruct (frames !! i) as [f|] eqn:Hf; [|done].
      simpl in Hf1. injection Hf1 as <-.
      exists f. split; [done|]. split; [done|]. split; [done|].
      split.
      * intros Hnot. exfalso. apply Hnot. cbn [fmap list_fmap fst]. left.
      * intros _. destruct (decide (i ∈ ops.*1)) as [Hi'|Hi'].
        { by apply Hin. }
        { by rewrite (Hout Hi'). }
    + rewrite list_lookup_alter_ne in Hf1 by done.
      exists f1. split; [done|]. split; [done|]. split; [done|].
      cbn [fmap list_fmap fst]. split.
      * intros Hnot. apply Hout. intros Hi'. apply Hnot. by right.
      * intros Hi'. apply Hin. apply elem_of_cons in Hi' as [?|?]; [congruence|done].
Qed.

Lemma corrupt_all_length (ops : list (nat * R)) : ∀ (frames : list (Frame R)),
  length (fold_left (λ fs p, alter (corrupt p.2) p.1 fs) ops frames)
  = length frames.
Proof.
  induction ops as [|[p d] ops IH]; intros frames; [done|].
  cbn [fold_left]. by rewrite IH, length_alter.
Qed.

(** [inject] keeps the list as it is, position by position, and marks what
    it changes: the list has the same length, every frame keeps its index
    and its stale flag, and a frame that is still valid afterwards is the
    frame that was there before, value included. *)
Theorem inject_marks_what_it_changes (fraction : float)
    (frames : list (Frame R)) (positions : list nat) (deltas : list R) :
  length (inject fraction frames positions deltas) = length frames
  ∧ ∀ i f', inject fraction frames positions deltas !! i = Some f' →
      ∃ f, frames !! i = Some f
           ∧ index f' = index f ∧ stale f' = stale f
           ∧ (valid f' = true → f' = f).
Proof.
  unfold inject. split; [apply corrupt_all_length|].
  intros i f' Hi.
  destruct (corrupt_all_lookup _ _ _ _ Hi) as (f & Hf & Hidx & Hst & Hout & Hin).
  exists f. repeat split; [done..|].
  intros Hvalid.
  match type of Hout with (_ ∉ ?l) → _ =>
    destruct (decide (i ∈ l)) as [Hi'|Hi'] end.
  - rewrite (Hin Hi') in Hvalid. done.
  - by apply Hout.
Qed.

(** Two aggregators with the same state and residual list stay so frame
    after frame, whatever their counters are. *)
Lemma process_all_same_data (frames : list (Frame R)) :
  ∀ a b : Aggregator R,
    state a = state b → residuals a = residuals b →
    state (process_all frames a) = state (process_all frames b)
    ∧ residuals (process_all frames a) = residuals (process_all frames b).
Proof.
  unfold process_all.
  induction frames as [|f frames IH]; intros a b Hs Hr; [done|].
  cbn [fold_left]. apply IH; unfold process; destruct (valid f);
    cbn [negb state residuals]; by rewrite ?Hs, ?Hr.
Qed.

(** The aggregator discards invalid frames: a sequence of frames and the
    sequence of its valid frames leave the same state and the same
    residual list; only the operation counter sees the invalid ones. *)
Theorem process_all_discards_invalid (frames : list (Frame R))
    (agg : Aggregator R) :
  let kept := filter (λ f, valid f = true) frames in
  state (process_all frames agg) = state (process_all kept agg)
  ∧ residuals (process_all frames agg) = residuals (process_all kept agg)
  ∧ verifier_ops (process_all frames agg)
    = (verifier_ops (process_all kept agg)
       + length (filter (λ f, valid f = false) frames))%nat.
Proof.
  revert agg. induction frames as [|f frames IH]; intros agg kept; subst kept.
  { cbn. repeat split. lia. }
  rewrite !filter_cons. destruct (valid f) eqn:Hv.
  - rewrite decide_True by done. rewrite decide_False by done.
    unfold process_all. cbn [fold_left]. apply IH.
  - rewrite decide_False by done. rewrite decide_True by done.
    unfold process_all. cbn [fold_left].
    fold (process_all frames (process f agg)).
    fold (process_all (filter (λ f, valid f = true) frames) agg).
    destruct (IH (process f agg)) as (Hs & Hr & Ho).
    destruct (process_all_same_data (filter (λ f, valid f = true) frames)
                (process f agg) agg) as [Hs' Hr'].
    { unfold process. by rewrite Hv. }
    { unfold process. by rewrite Hv. }
    rewrite Hs, Hr, Ho, Hs', Hr'. repeat split.
    cbn [length].
    assert (Hops : ∀ (l : list (Frame R)) a b,
              verifier_ops a = S (verifier_ops b) →
              state a = state b → residuals a = residuals b →
              verifier_ops (process_all l a) = S (verifier_ops (process_all l b))).
    { unfold process_all. clear.
      induction l as [|g l IHl]; intros a b Ho Hs Hr; [done|].
      cbn [fold_left]. apply IHl; unfold process; destruct (valid g);
        cbn [negb state residuals verifier_ops]; by rewrite ?Hs, ?Hr, ?Ho. }
    rewrite (Hops _ (process f agg) agg); [lia| | |];
      unfold process; by rewrite Hv.
Qed.

(** Frames that are either untouched or invalid leave, once the invalid
    ones are filtered out, a subsequence of the original frames. *)
Lemma valid_after_sublist (after : list (Frame R)) :
  ∀ before : list (Frame R),
    length after = length before →
    (∀ i f', after !! i = Some f' →
       ∃ f, before !! i = Some f ∧ (valid f' = true → f' = f)) →
    filter (λ f, valid f = true) after `sublist_of` before.
Proof.
  induction after as [|f' after IH]; intros before Hlen Hpt.
  { apply sublist_nil_l. }
  destruct before as [|f before]; [done|].
  assert (Hrest : filter (λ f, valid f = true) after `sublist_of` before).
  { apply IH; [simpl in Hlen; lia|].
    intros i g Hg. apply (Hpt (S i) g Hg). }
  rewrite filter_cons. destruct (decide (valid f' = true)) as [Hv|Hv].
  - destruct (Hpt 0%nat f' eq_refl) as (f0 & Hf0 & Heq).
    injection Hf0 as <-. rewrite (Heq Hv). by apply sublist_skip.
  - by apply sublist_cons.
Qed.

(** Corrupted values never reach the aggregate.  The state and the
    residuals the aggregator reaches on the list [inject] returns are
    those it reaches on the frames of that list that are still valid, and
    these are a subsequence of the frames as they were before the
    injection. *)
Theorem corrupted_values_never_reach_state (fraction : float)
    (frames : list (Frame R)) (positions : list nat) (deltas : list R)
    (agg : Aggregator R) :
  let corrupted := inject fraction frames positions deltas in
  let kept := filter (λ f, valid f = true) corrupted in
  kept `sublist_of` frames
  ∧ state (process_all corrupted agg) = state (process_all kept agg)
  ∧ residuals (process_all corrupted agg) = residuals (process_all kept agg).
Proof.
  intros corrupted kept. subst kept. split.
  - subst corrupted. unfold inject. apply valid_after_sublist.
    + apply corrupt_all_length.
    + intros i f' Hi.
      destruct (corrupt_all_lookup _ _ _ _ Hi)
        as (f & Hf & _ & _ & Hout & Hin).
      exists f. split; [done|]. intros Hvalid.
      match type of Hout with (_ ∉ ?l) → _ =>
        destruct (decide (i ∈ l)) as [Hi'|Hi'] end.
      * rewrite (Hin Hi') in Hvalid. done.
      * by apply Hout.
  - generalize corrupted. clear. intros l. revert agg.
    induction l as [|f l IH]; intros agg; [done|].
    rewrite filter_cons. unfold process_all. cbn [fold_left].
    destruct (valid f) eqn:Hv.
    + rewrite decide_True by done. cbn [fold_left]. apply IH.
    + rewrite decide_False by done.
      fold (process_all l (process f agg)).
      fold (process_all (filter (λ f, valid f = true) l) agg).
      destruct (IH (process f agg)) as [Hs Hr]. rewrite Hs, Hr.
      apply process_all_same_data; unfold process; by rewrite Hv.
Qed.

(** [process] counts every frame. *)
Lemma process_counts_one (f : Frame R) (agg : Aggregator R) :
  verifier_ops (process f agg) = S (verifier_ops agg).
Proof. unfold process. by destruct (valid f). Qed.

(** Below the operation cap the loop of the run processes every frame. *)
Lemma process_loop_all (frames : list (Frame R)) :
  ∀ i agg recovered_epoch,
    Z.of_nat (verifier_ops agg + length frames) ≤ MAX_VERIFIER_OPS →
    (process_loop frames i agg recovered_epoch).1 = process_all frames agg.
Proof.
  induction frames as [|f frames IH]; intros i agg rec Hcap; [done|].
  cbn [process_loop]. cbn [length] in Hcap.
  rewrite bool_decide_eq_false_2 by (rewrite process_counts_one; lia).
  rewrite IH by (rewrite process_counts_one; lia).
  reflexivity.
Qed.

(** A recovery epoch noted by the loop is the position of one of its
    frames. *)
Lemma process_loop_recovered (frames : list (Frame R)) :
  ∀ i agg recovered_epoch j,
    (process_loop frames i agg recovered_epoch).2 = Some j →
    recovered_epoch = Some j ∨ (i ≤ j < i + length frames)%nat.
Proof.
  induction frames as [|f frames IH]; intros i agg rec j Hj; [by left|].
  cbn [process_loop] in Hj.
  assert (Hnote : ∀ a, note_recovery i a rec = rec
                       ∨ note_recovery i a rec = Some i).
  { intros a. unfold note_recovery.
    destruct (last (residuals a)); [|by left].
    destruct (fgt RESIDUAL_BOUND r); [|by left].
    destruct rec; [by left|by right]. }
  cbn [length].
  destruct (bool_decide _) in Hj.
  - cbn [snd] in Hj. destruct (Hnote (process f agg)) as [Hn|Hn];
      rewrite Hn in Hj; [by left|]. right. injection Hj as <-. lia.
  - apply IH in Hj as [Hj|Hj]; [|right; lia].
    destruct (Hnote (process f agg)) as [Hn|Hn]; rewrite Hn in Hj;
      [by left|]. right. injection Hj as <-. lia.
Qed.

(** The counters of the run do not depend on the draws.  With the
    configuration of the script and draws as the generator can return
    them, the schedule has 2048 + 64 - 105 = 2007 frames, the run reports
    2007 verifier operations, and the recovery epoch it reports is at most
    2007. *)
Theorem run_processes_2007_frames (values : list R)
    (replay_positions pop_positions inject_positions : list nat)
    (deltas : list R) :
  (MAX_FRAMES ≤ length values)%nat →
  (MAX_REPLAYS ≤ length replay_positions)%nat →
  Forall (λ i, i < MAX_FRAMES)%nat (take MAX_REPLAYS replay_positions) →
  (105 ≤ length pop_positions)%nat →
  pops_in_range 2112 (take 105 pop_positions) →
  let r := run_adversarial_audit values replay_positions pop_positions
             inject_positions deltas in
  res_verifier_ops r = 2007%nat ∧ (epochs_to_recover r ≤ 2007)%nat.
Proof.
  intros Hvalues Hrp Hrange Hpp Hpops r. subst r.
  unfold run_adversarial_audit, audit_frames.
  set (frames := imap _ (take MAX_FRAMES values)).
  assert (Hframes : length frames = 2048%nat).
  { subst frames. rewrite length_imap, length_take.
    change MAX_FRAMES with 2048%nat in *. lia. }
  set (scheduled := schedule frames replay_positions pop_positions).
  assert (Hscheduled : length scheduled = 2007%nat).
  { subst scheduled.
    rewrite schedule_length_eq; rewrite Hframes;
      change (Nat.min MAX_REPLAYS 2048) with 64%nat;
      change (2048 + 64)%nat with 2112%nat;
      change (scaled_length (float_of_decimal 0.05) 2112) with 105%nat;
      done. }
  set (corrupted := inject FAULT_FRACTION scheduled inject_positions deltas).
  assert (Hcorrupted : length corrupted = 2007%nat).
  { subst corrupted. unfold inject. by rewrite corrupt_all_length. }
  destruct (process_loop corrupted 0 new_aggregator None)
    as [agg recovered] eqn:Hloop.
  cbn [res_verifier_ops epochs_to_recover].
  split.
  - pose proof (process_loop_all corrupted 0 new_aggregator None) as Hall.
    rewrite Hloop in Hall. cbn [fst] in Hall. rewrite Hall.
    + destruct (AggregatorFacts.process_all_counts corrupted new_aggregator)
        as [-> _]. rewrite Hcorrupted. reflexivity.
    + rewrite Hcorrupted. by vm_compute.
  - rewrite Hcorrupted. destruct recovered as [j|]; [|done].
    pose proof (process_loop_recovered corrupted 0 new_aggregator None j) as Hrec.
    rewrite Hloop in Hrec. destruct (Hrec eq_refl) as [?|?]; [done|].
    cbn [from_option]. unfold id. lia.
Qed.

End Injector.

(** Sample: 70 frames are handed on in three blocks, each back to front. *)
Example reverse_blocks_sample :
  index <$> reverse_blocks (sample_frames 70)
  = Z.of_nat <$> (reverse (seq 0 32) ++ reverse (seq 32 32) ++ reverse (seq 64 6)).
Proof. vm_compute. reflexivity. Qed.

Lemma schedule_provenance_witness :
  schedule (sample_frames 3) [0%nat] [] !! 3%nat
  = Some (stale_copy (mkFrame 2 (lit 0.5) true false))
  ∧ (stale_copy (mkFrame 2 (lit 0.5) true false) ∈ sample_frames 3
     ∨ ∃ g, g ∈ sample_frames 3
            ∧ stale_copy (mkFrame 2 (lit 0.5) true false) = stale_copy g).
Proof.
  assert (Hj : schedule (sample_frames 3) [0%nat] [] !! 3%nat
               = Some (stale_copy (mkFrame 2 (lit 0.5) true false)))
    by (vm_compute; reflexivity).
  split; [exact Hj|].
  exact (schedule_provenance (sample_frames 3) [0%nat] [] 3 _ Hj).
Defined.

Lemma schedule_length_witness :
  (20 ≤ length (seq 0 20))%nat
  ∧ Forall (λ i, i < 20)%nat (take 20 (seq 0 20))
  ∧ (2 ≤ length [5; 0])%nat
  ∧ pops_in_range 40 (take 2 [5; 0])%nat
  ∧ length (schedule (sample_frames 20) (seq 0 20) [5; 0]%nat) = 38%nat.
Proof.
  assert (H1 : (20 ≤ length (seq 0 20))%nat) by (vm_compute; lia).
  assert (H2 : Forall (λ i, i < 20)%nat (take 20 (seq 0 20))).
  { apply Forall_forall. intros i Hi.
    change (take 20 (seq 0 20)) with (seq 0 20) in Hi.
    apply elem_of_seq in Hi. lia. }
  assert (H3 : (2 ≤ length [5; 0]%nat)%nat) by (vm_compute; lia).
  assert (H4 : pops_in_range 40 (take 2 [5; 0])%nat).
  { intros [|[|k]] i Hi; simpl in Hi; [injection Hi as <-; lia..|done]. }
  repeat (split; [assumption|]).
  exact (schedule_length (sample_frames 20) (seq 0 20) [5; 0]%nat H1 H2 H3 H4).
Defined.

Lemma run_processes_2007_frames_witness :
  (MAX_FRAMES ≤ length sample_values)%nat
  ∧ (MAX_REPLAYS ≤ length sample_replays)%nat
  ∧ Forall (λ i, i < MAX_FRAMES)%nat (take MAX_REPLAYS sample_replays)
  ∧ (105 ≤ length sample_pops)%nat
  ∧ pops_in_range 2112 (take 105 sample_pops)
  ∧ res_verifier_ops
      (run_adversarial_audit sample_values sample_replays sample_pops
         sample_faults sample_deltas)
    = 2007%nat
  ∧ (epochs_to_recover
       (run_adversarial_audit sample_values sample_replays sample_pops
         sample_faults sample_deltas)
     ≤ 2007)%nat.
Proof.
  assert (H1 : (MAX_FRAMES ≤ length sample_values)%nat) by exact (le_n _).
  assert (H2 : (MAX_REPLAYS ≤ length sample_replays)%nat) by exact (le_n _).
  assert (H3 : Forall (λ i, i < MAX_FRAMES)%nat
                 (take MAX_REPLAYS sample_replays)).
  { apply Forall_forall. intros i Hi.
    change (take MAX_REPLAYS sample_replays) with (seq 0 64) in Hi.
    apply elem_of_seq in Hi. unfold MAX_FRAMES. lia. }
  assert (H4 : (105 ≤ length sample_pops)%nat) by exact (le_n _).
  assert (H5 : pops_in_range 2112 (take 105 sample_pops)).
  { intros k i Hi. apply lookup_take_Some in Hi as [Hi Hk].
    apply lookup_replicate in Hi as [-> _]. lia. }
  repeat (split; [assumption|]).
  exact (run_processes_2007_frames sample_values sample_replays sample_pops
           sample_faults sample_deltas H1 H2 H3 H4 H5).
Defined.

(** Whether the run passes its gate depends on the draws.  With frame
    values [0.5] throughout and the faults in the last 301 frames, the
    last residual falls below the bound at position 16 and [main] returns;
    when the faults hit the first 301 frames, no residual exists before
    position 301 and [main] raises. *)
Example gate_depends_on_draws :
  epochs_to_recover
    (run_adversarial_audit sample_values sample_replays sample_pops
         sample_faults sample_deltas)
  = 16%nat
  ∧ safety_ok
      (run_adversarial_audit sample_values sample_replays sample_pops
         sample_faults sample_deltas)
    = true
  ∧ main sample_values sample_replays sample_pops (seq 0 301) sample_deltas
    = Raise "SAFETY VIOLATION DETECTED".
Proof. vm_compute. repeat split. Qed.

End AdversarialRunFacts.

(** ** The inbox of the signed detector *)

Module SignedDeliveryFacts.
Import SignedReplayAudit SignedDelivery.

Lemma bind_bind {A B C} (f : A → list B) (g : B → list C) (l : list A) :
  (l ≫= f) ≫= g = l ≫= (λ x, f x ≫= g).
Proof.
  induction l as [|x l IH]; [done|].
  by rewrite !bind_cons, bind_app, IH.
Qed.

Lemma bind_return {A} (l : list A) : l ≫= (λ x, [x]) = l.
Proof.
  induction l as [|x l IH]; [done|].
  by rewrite bind_cons, IH.
Qed.

Section Delivery.

Context {State Sig : Type} `{Countable State} `{Countable Sig}.

Variable verify : Z → State → Sig → bool.

#[local] Abbreviation Frame := (SignedFrame State Sig).
#[local] Abbreviation Log := (list (SignedFrame State Sig * Outcome)).

(** One delivery phase delivers the frames at delay zero, in order, and
    keeps the others with one round less to go. *)
Lemma delivery_phase_split (now : Z) (inbox : list (Frame * nat)) :
  ∀ (next : list (Frame * nat)) (log : Log) (t : Tracker State Sig),
    delivery_phase verify now inbox next log t
    = '(log', t') ← deliver_all verify now (zero_delay inbox) log t;
      Ok (next ++ decremented inbox, log', t').
Proof.
  induction inbox as [|[f [|d]] inbox IH]; intros next log t.
  - simpl. by rewrite app_nil_r.
  - cbn [delivery_phase]. unfold zero_delay, decremented.
    rewrite !bind_cons. cbn [fst snd app deliver_all].
    destruct (deliver_frame verify now f t) as [[o t1]|msg];
      cbn [mbind result_bind]; [|done].
    apply IH.
  - cbn [delivery_phase]. rewrite IH. unfold zero_delay, decremented.
    rewrite !bind_cons. cbn [fst snd app]. by rewrite <- app_assoc.
Qed.

Variable arrivals : Z → list (Frame * nat).

#[local] Abbreviation pending := (pending arrivals).
#[local] Abbreviation due := (due arrivals).
#[local] Abbreviation delivered := (delivered arrivals).

(** The inbox of epoch [k] once the arrivals of epoch [k] are appended. *)
Lemma pending_arrivals (k : nat) :
  pending k ++ arrivals (Z.of_nat k)
  = seq 0 (S k) ≫= λ a, arrivals (Z.of_nat a) ≫= waiting k a.
Proof.
  rewrite seq_S, bind_app. change (0 + k)%nat with k.
  rewrite bind_singleton. unfold SignedDelivery.pending. f_equal.
  rewrite <- (bind_return (arrivals (Z.of_nat k))) at 1.
  apply list_bind_ext; [|done]. intros [f d]. unfold waiting. cbn [fst snd].
  rewrite decide_True by lia. do 2 f_equal. lia.
Qed.

Lemma zero_delay_inbox (k : nat) :
  zero_delay (pending k ++ arrivals (Z.of_nat k)) = due k.
Proof.
  rewrite pending_arrivals. unfold zero_delay, SignedDelivery.due.
  rewrite bind_bind. apply list_bind_ext; [|done]. intros a.
  rewrite bind_bind. apply list_bind_ext; [|done]. intros [f d].
  unfold waiting. cbn [fst snd].
  destruct (decide (k ≤ a + d)%nat) as [Hle|Hgt].
  - rewrite bind_singleton. cbn [fst snd].
    destruct (a + d - k)%nat eqn:Hr.
    + by rewrite decide_True by lia.
    + by rewrite decide_False by lia.
  - by rewrite decide_False by lia.
Qed.

Lemma decremented_inbox (k : nat) :
  decremented (pending k ++ arrivals (Z.of_nat k)) = pending (S k).
Proof.
  rewrite pending_arrivals. unfold decremented, SignedDelivery.pending.
  rewrite bind_bind. apply list_bind_ext; [|done]. intros a.
  rewrite bind_bind. apply list_bind_ext; [|done]. intros [f d].
  unfold waiting. cbn [fst snd].
  destruct (decide (k ≤ a + d)%nat) as [Hle|Hgt].
  - rewrite bind_singleton. cbn [fst snd].
    destruct (a + d - k)%nat eqn:Hr.
    + by rewrite decide_False by lia.
    + rewrite decide_True by lia. do 2 f_equal. lia.
  - by rewrite decide_False by lia.
Qed.

Lemma epoch_loop_due (n : nat) :
  ∀ (k : nat) (log : Log) (t : Tracker State Sig),
    epoch_loop verify arrivals n (Z.of_nat k) (pending k) log t
    = '(log', t') ← deliver_epochs verify arrivals n k log t;
      Ok (pending (k + n), log', t').
Proof.
  induction n as [|n IH]; intros k log t.
  - simpl. by rewrite Nat.add_0_r.
  - cbn [epoch_loop deliver_epochs].
    rewrite delivery_phase_split, zero_delay_inbox, decremented_inbox.
    fold (count_epoch t). cbn [app].
    destruct (deliver_all verify (Z.of_nat k) (due k) log (count_epoch t))
      as [[log1 t1]|msg]; cbn [mbind result_bind]; [|done].
    replace (Z.of_nat k + 1) with (Z.of_nat (S k)) by lia.
    rewrite IH. by replace (S k + n)%nat with (k + S n)%nat by lia.
Qed.

(** The inbox loses and duplicates nothing.  The run with its inbox of
    counted-down delays is the run that delivers, in each epoch [k], the
    frames that arrived in an epoch [a] with a delay [d] such that
    [a + d = k], earlier arrivals first; the frames with [a + d] beyond the
    last epoch are those left in the inbox, with [a + d - n] rounds to
    go. *)
Theorem run_epochs_by_due_epoch (n : nat) :
  run_epochs verify arrivals n
  = '(log, t) ← deliver_epochs verify arrivals n 0 [] new_tracker;
    Ok (pending n, log, t).
Proof. unfold run_epochs. apply (epoch_loop_due n 0). Qed.

(** *** The tracker against the delivered sequence *)

Lemma first_state_snoc (frames : list Frame) (x : Frame) (e : Z) :
  first_state (frames ++ [x]) e
  = match first_state frames e with
    | Some s => Some s
    | None => if decide (epoch x = e) then Some (state x) else None
    end.
Proof.
  unfold first_state. rewrite filter_app.
  destruct (filter (λ f, epoch f = e) frames) as [|h l]; [|done].
  rewrite filter_cons, filter_nil. by case_decide.
Qed.

Lemma first_state_elem (frames : list Frame) (f : Frame) :
  f ∈ frames → is_Some (first_state frames (epoch f)).
Proof.
  intros Hin. unfold first_state.
  assert (Hf : f ∈ filter (λ g, epoch g = epoch f) frames)
    by (by apply list_elem_of_filter).
  destruct (filter _ frames); [by apply not_elem_of_nil in Hf|].
  simpl. eauto.
Qed.

Lemma first_state_from (frames : list Frame) (e : Z) (s : State) :
  first_state frames e = Some s →
  ∃ h, h ∈ frames ∧ epoch h = e ∧ state h = s.
Proof.
  unfold first_state. intros Hs.
  destruct (filter (λ f, epoch f = e) frames) as [|h l] eqn:Hf; [done|].
  injection Hs as <-.
  assert (Hin : h ∈ filter (λ f, epoch f = e) frames) by (rewrite Hf; left).
  apply list_elem_of_filter in Hin as [? ?]. eauto.
Qed.

Lemma first_state_grows (frames : list Frame) (x : Frame) (e : Z) (s : State) :
  first_state frames e = Some s → first_state (frames ++ [x]) e = Some s.
Proof. intros Hs. by rewrite first_state_snoc, Hs. Qed.

(** Without a detected equivocation, every delivered frame carries the
    state of the first frame delivered for its epoch. *)
Lemma tracks_one_state (frames : list Frame) (t : Tracker State Sig)
    (f : Frame) :
  tracks frames t → equivocation_detected t ≠ true → f ∈ frames →
  first_state frames (epoch f) = Some (state f).
Proof.
  intros (_ & _ & Heq & _) Hnot Hin.
  destruct (first_state_elem frames f Hin) as [s Hs].
  rewrite Hs. f_equal.
  destruct (decide (s = state f)) as [|Hne]; [done|].
  exfalso. apply Hnot, Heq.
  apply first_state_from in Hs as (h & Hh & He & <-).
  exists h, f. done.
Qed.

Lemma tracks_initial : tracks (State:=State) (Sig:=Sig) [] new_tracker.
Proof.
  split; [|split; [|split]].
  - intros e. cbn. apply lookup_empty.
  - intros id. split.
    + intros Hin. by apply not_elem_of_empty in Hin.
    + intros [(f & Hin & _) _]. by apply not_elem_of_nil in Hin.
  - split; [done|]. intros (f & g & Hin & _). by apply not_elem_of_nil in Hin.
  - split; [done|]. intros (i & j & f & g & _ & Hi & _).
    by rewrite lookup_nil in Hi.
Qed.

Lemma tracks_count_epoch (frames : list Frame) (t : Tracker State Sig) :
  tracks frames t → tracks frames (count_epoch t).
Proof. done. Qed.

Lemma first_state_back (frames : list Frame) (x f : Frame) (s : State) :
  f ∈ frames →
  first_state (frames ++ [x]) (epoch f) = Some s →
  first_state frames (epoch f) = Some s.
Proof.
  intros Hin. rewrite first_state_snoc.
  by destruct (first_state_elem frames f Hin) as [s' ->].
Qed.

(** A conflicting pair in the sequence extended by [x] is a pair of the
    sequence, or [x] against a frame of the sequence. *)
Lemma conflict_snoc (frames : list Frame) (x : Frame) :
  (∃ f g, f ∈ frames ++ [x] ∧ g ∈ frames ++ [x]
          ∧ epoch f = epoch g ∧ state f ≠ state g) →
  (∃ f g, f ∈ frames ∧ g ∈ frames ∧ epoch f = epoch g ∧ state f ≠ state g)
  ∨ (∃ g, g ∈ frames ∧ epoch g = epoch x ∧ state g ≠ state x).
Proof.
  intros (f & g & Hf & Hg & He & Hs).
  apply elem_of_app in Hf as [Hf|Hf]; apply elem_of_app in Hg as [Hg|Hg].
  - left. exists f, g. done.
  - apply list_elem_of_singleton in Hg as ->. right. exists f. done.
  - apply list_elem_of_singleton in Hf as ->. right. exists g.
    split; [done|]. split; [done|]. congruence.
  - apply list_elem_of_singleton in Hf as ->.
    apply list_elem_of_singleton in Hg as ->. done.
Qed.

Lemma conflict_grows (frames : list Frame) (x : Frame) :
  (∃ f g, f ∈ frames ∧ g ∈ frames ∧ epoch f = epoch g ∧ state f ≠ state g) →
  ∃ f g, f ∈ frames ++ [x] ∧ g ∈ frames ++ [x]
         ∧ epoch f = epoch g ∧ state f ≠ state g.
Proof.
  intros (f & g & Hf & Hg & He & Hs). exists f, g.
  repeat split; try done; apply elem_of_app; by left.
Qed.

(** A repeated identity in the sequence extended by [x] is one of the
    sequence, or [x] repeats a frame of the sequence. *)
Lemma repeat_snoc (frames : list Frame) (x : Frame) :
  (∃ i j f g, (i < j)%nat
     ∧ (frames ++ [x]) !! i = Some f ∧ (frames ++ [x]) !! j = Some g
     ∧ frame_id f = frame_id g
     ∧ first_state (frames ++ [x]) (epoch g) = Some (state g)) →
  (∃ i j f g, (i < j)%nat
     ∧ frames !! i = Some f ∧ frames !! j = Some g
     ∧ frame_id f = frame_id g
     ∧ first_state frames (epoch g) = Some (state g))
  ∨ ((∃ f, f ∈ frames ∧ frame_id f = frame_id x)
     ∧ first_state frames (epoch x) = Some (state x)).
Proof.
  intros (i & j & f & g & Hij & Hi & Hj & Hid & Hfs).
  apply lookup_snoc_Some in Hj as [[Hjlt Hj]|[-> <-]].
  - left. exists i, j, f, g. split; [done|].
    rewrite lookup_app_l in Hi by lia. split; [done|]. split; [done|].
    split; [done|]. eapply first_state_back; [|done].
    by eapply list_elem_of_lookup_2.
  - right. rewrite lookup_app_l in Hi by lia.
    assert (Hf : f ∈ frames) by (by eapply list_elem_of_lookup_2).
    split; [eauto|].
    assert (He : epoch f = epoch x) by (by injection Hid).
    rewrite <- He in *. by eapply first_state_back.
Qed.

Lemma repeat_grows (frames : list Frame) (x : Frame) :
  (∃ i j f g, (i < j)%nat
     ∧ frames !! i = Some f ∧ frames !! j = Some g
     ∧ frame_id f = frame_id g
     ∧ first_state frames (epoch g) = Some (state g)) →
  ∃ i j f g, (i < j)%nat
     ∧ (frames ++ [x]) !! i = Some f ∧ (frames ++ [x]) !! j = Some g
     ∧ frame_id f = frame_id g
     ∧ first_state (frames ++ [x]) (epoch g) = Some (state g).
Proof.
  intros (i & j & f & g & Hij & Hi & Hj & Hid & Hfs).
  exists i, j, f, g. split; [done|].
  split; [by apply lookup_app_l_Some|]. split; [by apply lookup_app_l_Some|].
  split; [done|]. by apply first_state_grows.
Qed.

Lemma repeat_last (frames : list Frame) (x f : Frame) :
  f ∈ frames → frame_id f = frame_id x →
  first_state frames (epoch x) = Some (state x) →
  ∃ i j f g, (i < j)%nat
     ∧ (frames ++ [x]) !! i = Some f ∧ (frames ++ [x]) !! j = Some g
     ∧ frame_id f = frame_id g
     ∧ first_state (frames ++ [x]) (epoch g) = Some (state g).
Proof.
  intros Hf Hid Hfs. apply list_elem_of_lookup_1 in Hf as [i Hi].
  exists i, (length frames), f, x.
  split; [by eapply lookup_lt_Some|]. split; [by apply lookup_app_l_Some|].
  split; [by rewrite lookup_app_r, Nat.sub_diag by lia|].
  split; [done|]. by apply first_state_grows.
Qed.

(** The identities that have been delivered with the first state of their
    epoch, before and after one more frame. *)
Lemma known_grows (frames : list Frame) (x : Frame) id :
  (∃ f, f ∈ frames ∧ frame_id f = id) ∧ first_state frames id.1.1 = Some id.1.2 →
  (∃ f, f ∈ frames ++ [x] ∧ frame_id f = id)
  ∧ first_state (frames ++ [x]) id.1.1 = Some id.1.2.
Proof.
  intros [(f & Hf & Hid) Hfs]. split; [|by apply first_state_grows].
  exists f. split; [|done]. apply elem_of_app. by left.
Qed.

Lemma known_snoc (frames : list Frame) (x : Frame) id :
  (∃ f, f ∈ frames ++ [x] ∧ frame_id f = id)
  ∧ first_state (frames ++ [x]) id.1.1 = Some id.1.2 →
  ((∃ f, f ∈ frames ∧ frame_id f = id) ∧ first_state frames id.1.1 = Some id.1.2)
  ∨ (id = frame_id x
     ∧ first_state (frames ++ [x]) (epoch x) = Some (state x)).
Proof.
  intros [(f & Hf & Hid) Hfs]. apply elem_of_app in Hf as [Hf|Hf].
  - left. split; [eauto|]. subst id. by eapply first_state_back.
  - right. apply list_elem_of_singleton in Hf as ->. by subst id.
Qed.

(** Delivering one verified frame returns, counts one operation, and
    keeps the tracker tied to the delivered sequence. *)
Lemma deliver_frame_tracks (now : Z) (x : Frame) (frames : list Frame)
    (t : Tracker State Sig) :
  tracks frames t →
  verify (epoch x) (state x) (signature x) = true →
  ∃ o t', deliver_frame verify now x t = Ok (o, t')
          ∧ tracks (frames ++ [x]) t'
          ∧ verifier_ops t' = S (verifier_ops t).
Proof.
  intros (Hi & Hii & Hiii & Hiv) Hv.
  assert (Hepochs : ∀ e, epoch x ≠ e →
            seen_epochs t !! e = first_state (frames ++ [x]) e).
  { intros e Hne. rewrite first_state_snoc, <- Hi.
    destruct (seen_epochs t !! e); [done|]. by rewrite decide_False. }
  unfold deliver_frame. rewrite Hv. cbn [negb].
  case_bool_decide as Hseen.
  { (* the identity has been accepted before *)
    pose proof Hseen as Hknown.
    apply Hii in Hknown as [(f0 & Hf0 & Hid0) Hfirst].
    cbn [frame_id fst snd] in Hfirst.
    eexists _, _. split; [reflexivity|]. split; [|reflexivity].
    split; [|split; [|split]];
      cbn [seen_epochs seen_frames equivocation_detected replay_detected].
    - intros e. destruct (decide (epoch x = e)) as [<-|Hne]; [|by apply Hepochs].
      rewrite Hi, Hfirst. symmetry. by apply first_state_grows.
    - intros id. rewrite Hii. split; [apply known_grows|].
      intros Hnew. apply known_snoc in Hnew as [Hold|[-> _]]; [done|].
      by apply Hii.
    - rewrite Hiii. split; [apply conflict_grows|].
      intros Hnew. apply conflict_snoc in Hnew as [Hold|(g & Hg & He & Hs)];
        [done|].
      apply first_state_from in Hfirst as (h & Hh & Heh & Hsh).
      exists h, g. repeat split; [done|done|congruence|congruence].
    - split; [intros _|done]. by eapply repeat_last. }
  destruct (seen_epochs t !! epoch x) as [s|] eqn:Hep.
  - case_bool_decide as Hs.
    { (* another state is on record for the epoch *)
      rewrite Hi in Hep.
      eexists _, _. split; [reflexivity|]. split; [|reflexivity].
      split; [|split; [|split]];
        cbn [seen_epochs seen_frames equivocation_detected replay_detected].
      - intros e. destruct (decide (epoch x = e)) as [<-|Hne]; [|by apply Hepochs].
        rewrite Hi, Hep. symmetry. by apply first_state_grows.
      - intros id. rewrite Hii. split; [apply known_grows|].
        intros Hnew. apply known_snoc in Hnew as [Hold|[-> Hfs]]; [done|].
        rewrite (first_state_grows _ _ _ _ Hep) in Hfs. congruence.
      - split; [intros _|done].
        apply first_state_from in Hep as (h & Hh & Heh & Hsh).
        exists h, x. split; [apply elem_of_app; by left|].
        split; [apply elem_of_app; right; by apply list_elem_of_singleton|].
        split; [done|]. congruence.
      - rewrite Hiv. split; [apply repeat_grows|].
        intros Hnew. apply repeat_snoc in Hnew as [Hold|Hknown]; [done|].
        exfalso. apply Hseen, Hii. done. }
    { (* the state on record is the state of the frame *)
      subst s.
      pose proof Hep as Hfirst. rewrite Hi in Hfirst.
      eexists _, _. split; [reflexivity|]. split; [|reflexivity].
      split; [|split; [|split]];
        cbn [seen_epochs seen_frames equivocation_detected replay_detected].
      - intros e. destruct (decide (epoch x = e)) as [<-|Hne].
        + rewrite lookup_insert_eq. symmetry. by apply first_state_grows.
        + rewrite lookup_insert_ne by done. by apply Hepochs.
      - intros id. rewrite elem_of_union, elem_of_singleton, Hii. split.
        + intros [->|Hold]; [|by apply known_grows].
          split; [|by apply first_state_grows].
          exists x. split; [|done]. apply elem_of_app. right.
          by apply list_elem_of_singleton.
        + intros Hnew. apply known_snoc in Hnew as [Hold|[-> _]]; [by right|].
          by left.
      - rewrite Hiii. split; [apply conflict_grows|].
        intros Hnew. apply conflict_snoc in Hnew as [Hold|(g & Hg & He & Hsg)];
          [done|].
        apply first_state_from in Hfirst as (h & Hh & Heh & Hsh).
        exists h, g. repeat split; [done|done|congruence|congruence].
      - rewrite Hiv. split; [apply repeat_grows|].
        intros Hnew. apply repeat_snoc in Hnew as [Hold|Hknown]; [done|].
        exfalso. apply Hseen, Hii. done. }
  - (* the first frame for its epoch *)
    pose proof Hep as Hnone. rewrite Hi in Hnone.
    assert (Hfresh : ∀ g, g ∈ frames → epoch g ≠ epoch x).
    { intros g Hg He. destruct (first_state_elem frames g Hg) as [s Hs].
      rewrite He, Hnone in Hs. done. }
    assert (Hnew_first : first_state (frames ++ [x]) (epoch x) = Some (state x)).
    { by rewrite first_state_snoc, Hnone, decide_True. }
    eexists _, _. split; [reflexivity|]. split; [|reflexivity].
    split; [|split; [|split]];
      cbn [seen_epochs seen_frames equivocation_detected replay_detected].
    + intros e. destruct (decide (epoch x = e)) as [<-|Hne].
      * by rewrite lookup_insert_eq.
      * rewrite lookup_insert_ne by done. by apply Hepochs.
    + intros id. rewrite elem_of_union, elem_of_singleton, Hii. split.
      * intros [->|Hold]; [|by apply known_grows].
        split; [|done].
        exists x. split; [|done]. apply elem_of_app. right.
        by apply list_elem_of_singleton.
      * intros Hnew. apply known_snoc in Hnew as [Hold|[-> _]]; [by right|].
        by left.
    + rewrite Hiii. split; [apply conflict_grows|].
      intros Hnew. apply conflict_snoc in Hnew as [Hold|(g & Hg & He & Hsg)];
        [done|].
      by apply Hfresh in Hg.
    + rewrite Hiv. split; [apply repeat_grows|].
      intros Hnew. apply repeat_snoc in Hnew as [Hold|Hknown]; [done|].
      exfalso. apply Hseen, Hii. done.
Qed.

#[local] Abbreviation verified :=
  (λ f : Frame, verify (epoch f) (state f) (signature f) = true).

Lemma deliver_all_tracks (now : Z) (frames : list Frame) :
  ∀ (log : Log) (t : Tracker State Sig),
    tracks log.*1 t →
    Forall verified frames →
    ∃ log' t', deliver_all verify now frames log t = Ok (log', t')
               ∧ log'.*1 = log.*1 ++ frames
               ∧ tracks log'.*1 t'
               ∧ verifier_ops t' = (verifier_ops t + length frames)%nat.
Proof.
  induction frames as [|f frames IH]; intros log t Ht Hv.
  - exists log, t. rewrite app_nil_r. split; [done|]. split; [done|].
    split; [done|]. cbn [length]. lia.
  - apply Forall_cons in Hv as [Hf Hv].
    destruct (deliver_frame_tracks now f _ _ Ht Hf) as (o & t1 & Hdel & Ht1 & Hops).
    cbn [deliver_all]. rewrite Hdel. cbn [mbind result_bind].
    destruct (IH (log ++ [(f, o)]) t1) as (log' & t' & Hrun & Hlog & Ht' & Hops').
    { by rewrite fmap_app. }
    { done. }
    exists log', t'. split; [done|]. rewrite fmap_app in Hlog. cbn in Hlog.
    rewrite <- app_assoc in Hlog. split; [done|]. split; [done|].
    rewrite Hops', Hops. cbn [length]. lia.
Qed.

Lemma deliver_epochs_tracks (n : nat) :
  ∀ (k : nat) (log : Log) (t : Tracker State Sig),
    tracks log.*1 t →
    Forall verified (seq k n ≫= due) →
    ∃ log' t', deliver_epochs verify arrivals n k log t = Ok (log', t')
               ∧ log'.*1 = log.*1 ++ (seq k n ≫= due)
               ∧ tracks log'.*1 t'
               ∧ verifier_ops t'
                 = (verifier_ops t + n + length (seq k n ≫= due))%nat.
Proof.
  induction n as [|n IH]; intros k log t Ht Hv.
  - exists log, t. cbn [seq]. change ([] ≫= due) with (@nil Frame).
    rewrite app_nil_r. split; [done|]. split; [done|]. split; [done|].
    cbn [length]. lia.
  - cbn [seq] in *. rewrite bind_cons in *. apply Forall_app in Hv as [Hk Hv].
    destruct (deliver_all_tracks (Z.of_nat k) (due k) log (count_epoch t))
      as (log1 & t1 & Hrun1 & Hlog1 & Ht1 & Hops1); [done..|].
    cbn [deliver_epochs]. rewrite Hrun1. cbn [mbind result_bind].
    destruct (IH (S k) log1 t1 Ht1 Hv) as (log' & t' & Hrun & Hlog & Ht' & Hops).
    exists log', t'. split; [done|].
    rewrite Hlog, Hlog1, <- app_assoc. split; [done|].
    rewrite Hlog, Hlog1, <- app_assoc in Ht'. split; [done|].
    rewrite Hops, Hops1, length_app. cbn [count_epoch verifier_ops]. lia.
Qed.

(** When every delivered frame passes verification the run returns, its
    record lists the frames in delivery order, and the tracker is tied to
    that sequence. *)
Lemma run_epochs_tracks (n : nat) :
  Forall verified (delivered n) →
  ∃ log t, run_epochs verify arrivals n = Ok (pending n, log, t)
           ∧ log.*1 = delivered n
           ∧ tracks (delivered n) t
           ∧ verifier_ops t = (n + length (delivered n))%nat.
Proof.
  intros Hv. unfold run_epochs.
  rewrite (epoch_loop_due n 0).
  destruct (deliver_epochs_tracks n 0 [] new_tracker tracks_initial Hv)
    as (log & t & Hrun & Hlog & Ht & Hops).
  rewrite Hrun. cbn [mbind result_bind]. exists log, t.
  cbn in Hlog. rewrite Hlog in Ht. done.
Qed.

(** A verified frame is disposed of without raising. *)
Lemma deliver_frame_returns (now : Z) (f : Frame) (t : Tracker State Sig) :
  verified f → ∃ o t', deliver_frame verify now f t = Ok (o, t').
Proof.
  intros Hv. unfold deliver_frame. rewrite Hv. cbn [negb].
  case_bool_decide; [by eauto|].
  destruct (match seen_epochs t !! epoch f with
            | Some s => bool_decide (s ≠ state f)
            | None => false
            end); eauto.
Qed.

Lemma deliver_all_raises (now : Z) (frames : list Frame) :
  ∀ (log : Log) (t : Tracker State Sig),
    ¬ Forall verified frames →
    deliver_all verify now frames log t
    = Raise "SIGNATURE VERIFICATION FAILURE".
Proof.
  induction frames as [|f frames IH]; intros log t Hbad.
  - exfalso. by apply Hbad.
  - cbn [deliver_all].
    destruct (verify (epoch f) (state f) (signature f)) eqn:Hf.
    + destruct (deliver_frame_returns now f t Hf) as (o & t1 & ->).
      cbn [mbind result_bind]. apply IH. intros Hrest. apply Hbad.
      by constructor.
    + unfold deliver_frame. by rewrite Hf.
Qed.

Lemma deliver_all_result (now : Z) (frames : list Frame) (log : Log)
    (t : Tracker State Sig) :
  (∃ r, deliver_all verify now frames log t = Ok r)
  ∨ deliver_all verify now frames log t = Raise "SIGNATURE VERIFICATION FAILURE".
Proof.
  destruct (decide (Forall verified frames)) as [Hall|Hbad].
  - left. revert log t. induction Hall as [|f frames Hf _ IH]; intros log t.
    + by eexists.
    + cbn [deliver_all].
      destruct (deliver_frame_returns now f t Hf) as (o & t1 & ->).
      cbn [mbind result_bind]. apply IH.
  - right. by apply deliver_all_raises.
Qed.

Lemma deliver_epochs_raises (n : nat) :
  ∀ (k : nat) (log : Log) (t : Tracker State Sig),
    ¬ Forall verified (seq k n ≫= due) →
    deliver_epochs verify arrivals n k log t
    = Raise "SIGNATURE VERIFICATION FAILURE".
Proof.
  induction n as [|n IH]; intros k log t Hbad.
  - exfalso. by apply Hbad.
  - cbn [seq] in Hbad. rewrite bind_cons in Hbad. cbn [deliver_epochs].
    destruct (deliver_all_result (Z.of_nat k) (due k) log (count_epoch t))
      as [[[log1 t1] Hok]|Hraise].
    + rewrite Hok. cbn [mbind result_bind]. apply IH.
      intros Hrest. apply Hbad. apply Forall_app. split; [|done].
      destruct (decide (Forall verified (due k))) as [|Hk]; [done|].
      by rewrite deliver_all_raises in Hok.
    + by rewrite Hraise.
Qed.

(** The run raises on a signature failure and on nothing else: it returns
    when every frame that comes due within the run passes verification
    (the record then lists these frames in delivery order, and the
    operation counter is the number of epochs plus the number of
    deliveries), and it raises [SIGNATURE VERIFICATION FAILURE] otherwise.
    A frame that fails verification but is still waiting when the run ends
    goes unnoticed. *)
Theorem run_returns_iff_deliveries_verify (n : nat) :
  (Forall verified (delivered n) →
     ∃ log t, run_epochs verify arrivals n = Ok (pending n, log, t)
              ∧ log.*1 = delivered n
              ∧ verifier_ops t = (n + length (delivered n))%nat)
  ∧ (¬ Forall verified (delivered n) →
     run_epochs verify arrivals n = Raise "SIGNATURE VERIFICATION FAILURE").
Proof.
  split.
  - intros Hv. destruct (run_epochs_tracks n Hv) as (log & t & ? & ? & _ & ?).
    by exists log, t.
  - intros Hbad. unfold run_epochs. rewrite (epoch_loop_due n 0).
    by rewrite deliver_epochs_raises.
Qed.

(** The detector flags an equivocation exactly when two of the delivered
    frames are for the same epoch and carry different states. *)
Theorem equivocation_flag_iff_conflicting_states (n : nat) :
  Forall verified (delivered n) →
  ∃ log t, run_epochs verify arrivals n = Ok (pending n, log, t)
           ∧ (equivocation_detected t = true
              ↔ ∃ f g, f ∈ delivered n ∧ g ∈ delivered n
                       ∧ epoch f = epoch g ∧ state f ≠ state g).
Proof.
  intros Hv.
  destruct (run_epochs_tracks n Hv) as (log & t & ? & _ & (_ & _ & ? & _) & _).
  by exists log, t.
Qed.

(** The detector flags a replay exactly when a frame identity is delivered
    a second time and carries the state of the first frame delivered for
    its epoch.  (A repeated identity with another state is turned away as
    an equivocation each time, and the replay flag stays down.) *)
Theorem replay_flag_iff_repeated_identity (n : nat) :
  Forall verified (delivered n) →
  ∃ log t, run_epochs verify arrivals n = Ok (pending n, log, t)
           ∧ (replay_detected t = true
              ↔ ∃ i j f g, (i < j)%nat
                   ∧ delivered n !! i = Some f ∧ delivered n !! j = Some g
                   ∧ frame_id f = frame_id g
                   ∧ first_state (delivered n) (epoch g) = Some (state g)).
Proof.
  intros Hv.
  destruct (run_epochs_tracks n Hv) as (log & t & ? & _ & (_ & _ & _ & ?) & _).
  by exists log, t.
Qed.

(** First come, first served: the state on record for an epoch is the state
    of the first frame delivered for that epoch, and the accepted
    identities are the delivered ones that carry that state.  A frame with
    another state that is delivered first takes the epoch. *)
Theorem first_delivered_state_is_recorded (n : nat) :
  Forall verified (delivered n) →
  ∃ log t, run_epochs verify arrivals n = Ok (pending n, log, t)
           ∧ (∀ e, seen_epochs t !! e = first_state (delivered n) e)
           ∧ (∀ f, frame_id f ∈ seen_frames t
                   ↔ (∃ g, g ∈ delivered n ∧ frame_id g = frame_id f)
                     ∧ first_state (delivered n) (epoch f) = Some (state f)).
Proof.
  intros Hv.
  destruct (run_epochs_tracks n Hv) as (log & t & ? & _ & (? & Hii & _) & _).
  exists log, t. split; [done|]. split; [done|]. intros f. apply Hii.
Qed.

(** Which frames come due, and in which order. *)
Lemma due_elem (k : nat) (f : Frame) :
  f ∈ due k
  ↔ ∃ a d, (f, d) ∈ arrivals (Z.of_nat a) ∧ (a + d = k)%nat.
Proof.
  unfold SignedDelivery.due. rewrite list_elem_of_bind. split.
  - intros (a & Hf & _). apply list_elem_of_bind in Hf as ([g d] & Hf & Hin).
    cbn [fst snd] in Hf. case_decide; [|by apply not_elem_of_nil in Hf].
    apply list_elem_of_singleton in Hf as ->. eauto.
  - intros (a & d & Hin & Hk). exists a. split.
    + apply list_elem_of_bind. exists (f, d). split; [|done].
      cbn [fst snd]. rewrite decide_True by done.
      by apply list_elem_of_singleton.
    + apply elem_of_seq. lia.
Qed.

Lemma delivered_elem (n : nat) (f : Frame) :
  f ∈ delivered n
  ↔ ∃ a d, (f, d) ∈ arrivals (Z.of_nat a) ∧ (a + d < n)%nat.
Proof.
  unfold SignedDelivery.delivered. rewrite list_elem_of_bind. split.
  - intros (k & Hf & Hk). apply due_elem in Hf as (a & d & Hin & <-).
    apply elem_of_seq in Hk. exists a, d. split; [done|]. lia.
  - intros (a & d & Hin & Hlt). exists (a + d)%nat. split.
    + apply due_elem. eauto.
    + apply elem_of_seq. lia.
Qed.

Lemma delivered_order (n k1 k2 : nat) (f g : Frame) :
  (k1 < k2 < n)%nat → f ∈ due k1 → g ∈ due k2 →
  ∃ i j, (i < j)%nat
         ∧ delivered n !! i = Some f ∧ delivered n !! j = Some g.
Proof.
  intros [H12 H2n] Hf Hg. unfold SignedDelivery.delivered.
  replace n with (k2 + (n - k2))%nat by lia.
  rewrite seq_app, bind_app. change (0 + k2)%nat with k2.
  assert (Hf' : f ∈ seq 0 k2 ≫= due).
  { apply list_elem_of_bind. exists k1. split; [done|]. apply elem_of_seq. lia. }
  assert (Hg' : g ∈ seq k2 (n - k2) ≫= due).
  { apply list_elem_of_bind. exists k2. split; [done|]. apply elem_of_seq. lia. }
  apply list_elem_of_lookup_1 in Hf' as [i Hi].
  apply list_elem_of_lookup_1 in Hg' as [j Hj].
  exists i, (length (seq 0 k2 ≫= due) + j)%nat.
  pose proof (lookup_lt_Some _ _ _ Hi).
  split; [lia|]. split; [by apply lookup_app_l_Some|].
  rewrite lookup_app_r by lia. rewrite <- Hj. f_equal. lia.
Qed.

End Delivery.

(** *** The run of the script *)

Section Script.

Context {State Sig : Type} `{Countable State} `{Countable Sig}.

Variable verify : Z → State → Sig → bool.
Variable sign : Z → State → Sig.
Variable evolve : State → State.
Variable forge : State → State.
Variable initial : State.
Variable delay : Z → nat → nat.

#[local] Abbreviation state_at := (state_at evolve initial).
#[local] Abbreviation honest_frame := (honest_frame sign evolve initial).
#[local] Abbreviation script_arrivals :=
  (script_arrivals sign evolve forge initial delay).

#[local] Abbreviation forged_frame :=
  (mkSignedFrame 12 (forge (state_at 12)) (sign 12 (forge (state_at 12)))).

(** The frames the script puts into the inbox. *)
Lemma script_arrivals_elem (a : Z) (f : SignedFrame State Sig) (d : nat) :
  (f, d) ∈ script_arrivals a →
  f = honest_frame a
  ∨ (a = 12 ∧ f = forged_frame)
  ∨ (a = 20 ∧ f = honest_frame 10).
Proof.
  unfold SignedReplayAudit.script_arrivals. intros Hin.
  apply elem_of_app in Hin as [Hin|Hin].
  { apply list_elem_of_singleton in Hin as [= -> _]. by left. }
  apply elem_of_app in Hin as [Hin|Hin].
  - case_decide as Ha; [|by apply not_elem_of_nil in Hin].
    apply list_elem_of_singleton in Hin as [= -> _]. right; left. by subst a.
  - case_decide as Ha; [|by apply not_elem_of_nil in Hin].
    apply list_elem_of_singleton in Hin as [= -> _]. right; right. by subst a.
Qed.

(** With a signature scheme that verifies what it signs, a forged state
    that differs from the honest one, and delays as [random.randint(0,
    MAX_DELAY)] returns them, the script passes both of its hard
    assertions whatever the delays are: the run does not raise, the
    equivocation at epoch 12 is detected and so is the replay of the frame
    of epoch 10. *)
Theorem script_run_passes_its_assertions :
  (∀ e s, verify e s (sign e s) = true) →
  forge (state_at 12) ≠ state_at 12 →
  (∀ e i, (delay e i ≤ 8)%nat) →
  ∃ t, run_signed_equivocation_replay_audit verify sign evolve forge initial
         delay = Ok t
       ∧ equivocation_detected t = true
       ∧ replay_detected t = true.
Proof.
  intros Hsign Hforge Hdelay.
  assert (Hv : Forall (λ f, verify (epoch f) (state f) (signature f) = true)
                 (delivered script_arrivals EPOCHS)).
  { apply Forall_forall. intros f Hf.
    apply delivered_elem in Hf as (a & d & Hin & _).
    apply script_arrivals_elem in Hin as [->|[[_ ->]|[_ ->]]]; apply Hsign. }
  destruct (run_epochs_tracks verify script_arrivals EPOCHS Hv)
    as (log & t & Hrun & _ & (_ & _ & Heq & Hrep) & _).
  assert (Hh12 : (honest_frame 12, delay 12 0) ∈ script_arrivals 12).
  { unfold SignedReplayAudit.script_arrivals. apply elem_of_app. left.
    by apply list_elem_of_singleton. }
  assert (Hf12 : (forged_frame, delay 12 1) ∈ script_arrivals 12).
  { unfold SignedReplayAudit.script_arrivals. apply elem_of_app. right.
    apply elem_of_app. left. rewrite decide_True by done.
    by apply list_elem_of_singleton. }
  assert (Hh10 : (honest_frame 10, delay 10 0) ∈ script_arrivals 10).
  { unfold SignedReplayAudit.script_arrivals. apply elem_of_app. left.
    by apply list_elem_of_singleton. }
  assert (Hr10 : (honest_frame 10, delay 20 1) ∈ script_arrivals 20).
  { unfold SignedReplayAudit.script_arrivals. apply elem_of_app. right.
    apply elem_of_app. right. rewrite decide_True by done.
    by apply list_elem_of_singleton. }
  assert (Hdetected : equivocation_detected t = true).
  { apply Heq. exists (honest_frame 12), forged_frame.
    split; [|split; [|split]].
    - apply delivered_elem. exists 12%nat, (delay 12 0). split; [done|].
      pose proof (Hdelay 12 0%nat). unfold EPOCHS. lia.
    - apply delivered_elem. exists 12%nat, (delay 12 1). split; [done|].
      pose proof (Hdelay 12 1%nat). unfold EPOCHS. lia.
    - done.
    - cbn [state SignedReplayAudit.honest_frame]. congruence. }
  assert (Hreplayed : replay_detected t = true).
  { apply Hrep.
    destruct (delivered_order script_arrivals EPOCHS
                (10 + delay 10 0) (20 + delay 20 1)
                (honest_frame 10) (honest_frame 10))
      as (i & j & Hij & Hi & Hj).
    - pose proof (Hdelay 10 0%nat). pose proof (Hdelay 20 1%nat).
      unfold EPOCHS. lia.
    - apply due_elem. exists 10%nat, (delay 10 0). done.
    - apply due_elem. exists 20%nat, (delay 20 1). done.
    - exists i, j, (honest_frame 10), (honest_frame 10).
      split; [done|]. split; [done|]. split; [done|]. split; [done|].
      assert (Hin : honest_frame 10 ∈ delivered script_arrivals EPOCHS)
        by (by eapply list_elem_of_lookup_2).
      destruct (first_state_elem _ _ Hin) as [s Hs]. rewrite Hs. f_equal.
      apply first_state_from in Hs as (h & Hh & He & <-).
      apply delivered_elem in Hh as (a & d & Hh & _).
      apply script_arrivals_elem in Hh as [->|[[_ ->]|[_ ->]]].
      + cbn [epoch SignedReplayAudit.honest_frame] in He. by rewrite He.
      + done.
      + done. }
  exists t. unfold run_signed_equivocation_replay_audit.
  rewrite Hrun. cbn [mbind result_bind]. by rewrite Hdetected, Hreplayed.
Qed.

End Script.

Lemma sample_arrivals_verified :
  Forall (λ f, sample_verify (epoch f) (state f) (signature f) = true)
    (delivered sample_arrivals 4).
Proof. apply Forall_forall. intros f _. reflexivity. Defined.

Lemma equivocation_flag_iff_conflicting_states_witness :
  Forall (λ f, sample_verify (epoch f) (state f) (signature f) = true)
    (delivered sample_arrivals 4)
  ∧ ∃ log t, run_epochs sample_verify sample_arrivals 4
             = Ok (pending sample_arrivals 4, log, t)
             ∧ (equivocation_detected t = true
                ↔ ∃ f g, f ∈ delivered sample_arrivals 4
                         ∧ g ∈ delivered sample_arrivals 4
                         ∧ epoch f = epoch g ∧ state f ≠ state g).
Proof.
  split; [exact sample_arrivals_verified|].
  exact (equivocation_flag_iff_conflicting_states sample_verify
           sample_arrivals 4 sample_arrivals_verified).
Defined.

Lemma replay_flag_iff_repeated_identity_witness :
  Forall (λ f, sample_verify (epoch f) (state f) (signature f) = true)
    (delivered sample_arrivals 4)
  ∧ ∃ log t, run_epochs sample_verify sample_arrivals 4
             = Ok (pending sample_arrivals 4, log, t)
             ∧ (replay_detected t = true
                ↔ ∃ i j f g, (i < j)%nat
                     ∧ delivered sample_arrivals 4 !! i = Some f
                     ∧ delivered sample_arrivals 4 !! j = Some g
                     ∧ frame_id f = frame_id g
                     ∧ first_state (delivered sample_arrivals 4) (epoch g)
                       = Some (state g)).
Proof.
  split; [exact sample_arrivals_verified|].
  exact (replay_flag_iff_repeated_identity sample_verify sample_arrivals 4
           sample_arrivals_verified).
Defined.

Lemma first_delivered_state_is_recorded_witness :
  Forall (λ f, sample_verify (epoch f) (state f) (signature f) = true)
    (delivered sample_arrivals 4)
  ∧ ∃ log t, run_epochs sample_verify sample_arrivals 4
             = Ok (pending sample_arrivals 4, log, t)
             ∧ (∀ e, seen_epochs t !! e
                     = first_state (delivered sample_arrivals 4) e)
             ∧ (∀ f, frame_id f ∈ seen_frames t
                     ↔ (∃ g, g ∈ delivered sample_arrivals 4
                             ∧ frame_id g = frame_id f)
                       ∧ first_state (delivered sample_arrivals 4) (epoch f)
                         = Some (state f)).
Proof.
  split; [exact sample_arrivals_verified|].
  exact (first_delivered_state_is_recorded sample_verify sample_arrivals 4
           sample_arrivals_verified).
Defined.

Lemma script_run_passes_its_assertions_witness :
  (∀ e s, sample_check e s (sample_sign e s) = true)
  ∧ sample_forge (state_at sample_evolve sample_initial 12)
    ≠ state_at sample_evolve sample_initial 12
  ∧ (∀ e i, (sample_delay e i ≤ 8)%nat)
  ∧ ∃ t, run_signed_equivocation_replay_audit sample_check sample_sign
           sample_evolve sample_forge sample_initial sample_delay = Ok t
         ∧ equivocation_detected t = true
         ∧ replay_detected t = true.
Proof.
  assert (H1 : ∀ e s, sample_check e s (sample_sign e s) = true).
  { intros e s. unfold sample_check, sample_sign.
    by apply bool_decide_eq_true_2. }
  assert (H2 : sample_forge (state_at sample_evolve sample_initial 12)
               ≠ state_at sample_evolve sample_initial 12).
  { unfold sample_forge. lia. }
  assert (H3 : ∀ e i, (sample_delay e i ≤ 8)%nat).
  { intros e [|i]; simpl; lia. }
  split; [exact H1|]. split; [exact H2|]. split; [exact H3|].
  exact (script_run_passes_its_assertions sample_check sample_sign
           sample_evolve sample_forge sample_initial sample_delay H1 H2 H3).
Defined.

(** On that run the forged frame of epoch 12 comes due first (round 14)
    and takes the epoch; the honest frame, due in round 17, is the one
    turned away, and round 17 is the detection epoch the run reports. *)
Example forged_frame_takes_the_epoch :
  match run_signed_equivocation_replay_audit sample_check sample_sign
          sample_evolve sample_forge sample_initial sample_delay with
  | Ok t =>
      seen_epochs t !! 12
      = Some (sample_forge (state_at sample_evolve sample_initial 12))
      ∧ detection_epoch t = Some 17
      ∧ verifier_ops t = 125%nat
  | Raise _ => False
  end.
Proof. vm_compute. repeat split. Qed.

End SignedDeliveryFacts.

(** ** Address and slot of a node *)

Module IdentityFacts.
Import MegaCoupledStress Identity.
Import Stdlib.Strings.Ascii.

Lemma hex_length (bs : list Byte.byte) : length (hex bs) = (2 * length bs)%nat.
Proof.
  unfold hex. induction bs as [|b bs IH]; [done|].
  rewrite bind_cons, length_app, IH. cbn [length hex_of_byte]. lia.
Qed.

Lemma last_items_length {A} (k : nat) (l : list A) :
  (k ≤ length l)%nat → length (last_items k l) = k.
Proof. intros Hk. unfold last_items. rewrite length_drop. lia. Qed.

Lemma hex_of_byte_digits (b : Byte.byte) :
  Forall (λ c, c ≠ ":"%char) (hex_of_byte b).
Proof. destruct b; repeat constructor; discriminate. Qed.

Lemma hex_digits (bs : list Byte.byte) : Forall (λ c, c ≠ ":"%char) (hex bs).
Proof.
  unfold hex. induction bs as [|b bs IH]; [constructor|].
  rewrite bind_cons. apply Forall_app. split; [apply hex_of_byte_digits|done].
Qed.

Lemma unhex_of_byte (b : Byte.byte) (rest : list ascii) :
  unhex (hex_of_byte b ++ rest) = b :: unhex rest.
Proof. destruct b; reflexivity. Qed.

(** Two hex digits per byte can be read back. *)
Lemma unhex_hex (bs : list Byte.byte) : unhex (hex bs) = bs.
Proof.
  unfold hex. induction bs as [|b bs IH]; [done|].
  by rewrite bind_cons, unhex_of_byte, IH.
Qed.

(** The groups, put back together, are the digits they were cut from. *)
Lemma slices_take {A} (x : list A) (m : nat) :
  mjoin ((λ i, slice i (i + 4) x) <$> ((λ k, 4 * k)%nat <$> seq 0 m))
  = take (4 * m) x.
Proof.
  induction m as [|m IH]; [by rewrite take_0|].
  rewrite seq_S, !fmap_app, join_app, IH.
  change (0 + m)%nat with m. cbn [fmap list_fmap mjoin list_join].
  rewrite app_nil_r. unfold slice.
  replace (4 * m + 4 - 4 * m)%nat with 4%nat by lia.
  rewrite take_take_drop. f_equal. lia.
Qed.

Lemma filter_join (groups : list (list ascii)) :
  Forall (Forall (λ c, c ≠ ":"%char)) groups →
  filter (λ c, c ≠ ":"%char) (join [":"%char] groups) = mjoin groups.
Proof.
  induction 1 as [|g groups Hg Hgroups IH]; [done|].
  assert (Hfg : filter (λ c, c ≠ ":"%char) g = g).
  { clear -Hg. induction Hg as [|c g Hc _ IHg]; [done|].
    by rewrite filter_cons_True, IHg. }
  destruct groups as [|g' groups].
  - cbn [join mjoin list_join]. by rewrite app_nil_r.
  - change (join [":"%char] (g :: g' :: groups))
      with (g ++ [":"%char] ++ join [":"%char] (g' :: groups)).
    rewrite !filter_app, Hfg, IH. reflexivity.
Qed.

Lemma digits_of_address (x : list ascii) :
  (length x ≤ 32)%nat → Forall (λ c, c ≠ ":"%char) x →
  digits_of (address_of_hex x) = ULA_PREFIX ++ x.
Proof.
  intros Hlen Hx. unfold digits_of, address_of_hex.
  rewrite !filter_app, filter_join.
  - unfold group_starts. rewrite slices_take, take_ge by lia. reflexivity.
  - apply Forall_fmap, Forall_forall. intros i _. cbn. unfold slice.
    apply Forall_take, Forall_drop. done.
Qed.





(** The address is a function of the last 15 bytes of the digest and of
    nothing else, and it tells any two such tails apart. *)
Theorem derive_ipv6_tells_tails_apart (h1 h2 : list Byte.byte) :
  (15 ≤ length h1)%nat → (15 ≤ length h2)%nat →
  derive_ipv6 h1 = derive_ipv6 h2 ↔ last_items 15 h1 = last_items 15 h2.
Proof.
  intros H1 H2. split; [|unfold derive_ipv6; by intros ->].
  intros Heq.
  assert (Hd : ∀ h, (15 ≤ length h)%nat →
            unhex (drop 4 (digits_of (String.list_ascii_of_string (derive_ipv6 h))))
            = last_items 15 h).
  { intros h Hh. unfold derive_ipv6.
    rewrite String.list_ascii_of_string_of_list_ascii, digits_of_address.
    - change (drop 4 (ULA_PREFIX ++ ?x)) with x. apply unhex_hex.
    - rewrite hex_length, last_items_length by done. lia.
    - apply hex_digits. }
  rewrite <- (Hd h1 H1), <- (Hd h2 H2). by rewrite Heq.
Qed.

(** The slot of a node is read off the second byte of its digest alone:
    it is that byte modulo 64, whatever the first byte is, and it is one
    of the slots [0 .. 63]. *)
Theorem slot_reads_second_byte (b0 b1 : Byte.byte) (rest : list Byte.byte) :
  slot_of_digest (b0 :: b1 :: rest) = Z.of_nat (Byte.to_nat b1) `mod` 64
  ∧ 0 ≤ slot_of_digest (b0 :: b1 :: rest) < Q_NODES.
Proof.
  unfold slot_of_digest, slice, int_from_bytes_big.
  cbn [drop take Nat.sub fold_left]. change Q_NODES with 64.
  split; [|by apply Z.mod_pos_bound].
  replace (256 * (256 * 0 + Z.of_nat (Byte.to_nat b0)) + Z.of_nat (Byte.to_nat b1))
    with (Z.of_nat (Byte.to_nat b1) + (4 * Z.of_nat (Byte.to_nat b0)) * 64) by lia.
  apply Z_mod_plus_full.
Qed.

(** The slots form a hypercube.  Every slot [0 .. 63] has six neighbours,
    all different, all of them slots, none of them the slot itself, and
    each of them has the slot among its own neighbours. *)
Theorem neighbors_q6_hypercube (n : Z) :
  0 ≤ n < Q_NODES →
  length (neighbors_q6 n) = 6%nat
  ∧ NoDup (neighbors_q6 n)
  ∧ Forall (λ m, 0 ≤ m < Q_NODES ∧ m ≠ n ∧ n ∈ neighbors_q6 m)
      (neighbors_q6 n).
Proof.
  intros Hn.
  assert (Hall : Forall (λ n, length (neighbors_q6 n) = 6%nat
                   ∧ NoDup (neighbors_q6 n)
                   ∧ Forall (λ m, 0 ≤ m < Q_NODES ∧ m ≠ n ∧ n ∈ neighbors_q6 m)
                       (neighbors_q6 n))
                 (Z.of_nat <$> seq 0 64)).
  { apply (bool_decide_unpack _). vm_compute. exact I. }
  rewrite Forall_forall in Hall. apply Hall.
  apply list_elem_of_fmap. exists (Z.to_nat n). split; [lia|].
  apply elem_of_seq. change Q_NODES with 64 in Hn. lia.
Qed.


Lemma derive_ipv6_tells_tails_apart_witness :
  (15 ≤ length sample_digest)%nat
  ∧ (15 ≤ length (drop 10 sample_digest))%nat
  ∧ (derive_ipv6 sample_digest = derive_ipv6 (drop 10 sample_digest)
     ↔ last_items 15 sample_digest = last_items 15 (drop 10 sample_digest)).
Proof.
  assert (H1 : (15 ≤ length sample_digest)%nat) by (vm_compute; lia).
  assert (H2 : (15 ≤ length (drop 10 sample_digest))%nat) by (vm_compute; lia).
  split; [exact H1|]. split; [exact H2|].
  exact (derive_ipv6_tells_tails_apart sample_digest (drop 10 sample_digest) H1 H2).
Defined.

Lemma neighbors_q6_hypercube_witness :
  0 ≤ 5 < Q_NODES
  ∧ length (neighbors_q6 5) = 6%nat
  ∧ NoDup (neighbors_q6 5)
  ∧ Forall (λ m, 0 ≤ m < Q_NODES ∧ m ≠ 5 ∧ 5 ∈ neighbors_q6 m)
      (neighbors_q6 5).
Proof.
  assert (Hn : 0 ≤ 5 < Q_NODES) by (change Q_NODES with 64; lia).
  split; [exact Hn|]. exact (neighbors_q6_hypercube 5 Hn).
Defined.

(** Sample: the digest [00 01 .. 1f] gives an address of nine groups. *)
Example derive_ipv6_sample :
  derive_ipv6 sample_digest = "fd00:1112:1314:1516:1718:191a:1b1c:1d1e:1f"%string
  ∧ slot_of_digest sample_digest = 1.
Proof. vm_compute. done. Qed.

End IdentityFacts.

(** ** Who can reach whom in the gossip rounds *)

Module GossipEdgeFacts.
Import MegaCoupledStress GossipEdges.

Section Edges.

Context {R : Type} `{Arith R}.

Variable Rng : Type.
Variable packet_lost : Rng → bool * Rng.
Variable draw_delay : Rng → nat * Rng.

#[local] Abbreviation send_to := (send_to Rng packet_lost draw_delay).
#[local] Abbreviation send_from := (send_from Rng packet_lost draw_delay).
#[local] Abbreviation send_phase := (send_phase Rng packet_lost draw_delay).
#[local] Abbreviation gossip_loop := (gossip_loop Rng packet_lost draw_delay).

Variable D : list (Z * Z).

#[local] Abbreviation edges_only :=
  (λ nodes : list (Node R), directory nodes = D ∧ Forall (along_edges D) nodes).

Lemma directory_alter_history (epoch : Z) (v : R) (i : nat)
    (nodes : list (Node R)) :
  directory (alter (record_history epoch v) i nodes) = directory nodes.
Proof.
  unfold directory. apply list_eq. intros j. rewrite !list_lookup_fmap.
  destruct (decide (i = j)) as [->|Hne].
  - rewrite list_lookup_alter_eq. by destruct (nodes !! j).
  - by rewrite list_lookup_alter_ne.
Qed.

Lemma edges_alter_history (epoch : Z) (v : R) (i : nat)
    (nodes : list (Node R)) :
  Forall (along_edges D) nodes →
  Forall (along_edges D) (alter (record_history epoch v) i nodes).
Proof.
  intros Hall. apply Forall_alter; [done|]. by intros [].
Qed.

(** One send keeps the directory and puts a message only into the inboxes
    of nodes on the slot it is sent to. *)
Lemma send_to_edges (epoch : Z) (i : nat) (nb : Z) (rng : Rng)
    (nodes : list (Node R)) :
  edges_only nodes →
  (∀ id q, D !! i = Some (id, q) → nb ∈ neighbors_q6 q) →
  edges_only (send_to epoch i nb (rng, nodes)).2.
Proof.
  intros [Hdir Hall] Hnb. unfold MegaCoupledStress.send_to.
  destruct (nodes !! i) as [n|] eqn:Hn; [|done].
  destruct (packet_lost rng) as [[|] rng1]; [done|].
  destruct (draw_delay rng1) as [delay rng2]. cbn [snd].
  set (value := if bool_decide _ then _ else _).
  assert (Hsender : (node_id n, q_node n) ∈ D ∧ nb ∈ neighbors_q6 (q_node n)).
  { assert (Hi : D !! i = Some (node_id n, q_node n)).
    { rewrite <- Hdir. unfold directory. by rewrite list_lookup_fmap, Hn. }
    split; [by eapply list_elem_of_lookup_2|by eapply Hnb]. }
  split.
  - unfold directory. rewrite <- list_fmap_compose.
    rewrite <- Hdir, <- (directory_alter_history epoch (state n) i nodes),
      <- (directory_alter_history epoch value i
            (alter (record_history epoch (state n)) i nodes)).
    unfold directory. apply list_fmap_ext. intros _ m _. cbn.
    by case_bool_decide.
  - apply Forall_fmap.
    apply (edges_alter_history epoch (state n) i) in Hall.
    apply (edges_alter_history epoch value i) in Hall.
    eapply Forall_impl; [exact Hall|].
    intros m Hm. cbn. case_bool_decide as Hq; [|done].
    unfold along_edges. cbn [inbox enqueue q_node].
    apply Forall_app. split; [done|]. apply Forall_singleton.
    exists (q_node n). cbn [fst]. rewrite Hq. done.
Qed.

Lemma send_fold_edges (epoch : Z) (i : nat) (nbs : list Z) :
  ∀ acc : Rng * list (Node R),
    edges_only acc.2 →
    (∀ nb id q, nb ∈ nbs → D !! i = Some (id, q) → nb ∈ neighbors_q6 q) →
    edges_only (fold_left (λ a nb, send_to epoch i nb a) nbs acc).2.
Proof.
  induction nbs as [|nb nbs IH]; intros [rng nodes] Hinv Hnbs; [done|].
  cbn [fold_left]. apply IH.
  - destruct (send_to epoch i nb (rng, nodes)) as [rng' nodes'] eqn:Hsend.
    pose proof (send_to_edges epoch i nb rng nodes Hinv) as Hstep.
    rewrite Hsend in Hstep. apply Hstep.
    intros id q. apply Hnbs. left.
  - intros nb' id q Hin. apply Hnbs. by right.
Qed.

Lemma send_from_edges (epoch : Z) (acc : Rng * list (Node R)) (i : nat) :
  edges_only acc.2 → edges_only (send_from epoch acc i).2.
Proof.
  intros Hinv. unfold MegaCoupledStress.send_from.
  destruct (acc.2 !! i) as [n|] eqn:Hn; [|done].
  apply send_fold_edges; [done|].
  intros nb id q Hnb Hi. destruct Hinv as [Hdir _].
  rewrite <- Hdir in Hi. unfold directory in Hi.
  rewrite list_lookup_fmap, Hn in Hi. by injection Hi as <- <-.
Qed.

Lemma send_phase_edges (epoch : Z) (rng : Rng) (nodes : list (Node R)) :
  edges_only nodes → edges_only (send_phase epoch rng nodes).2.
Proof.
  unfold MegaCoupledStress.send_phase. generalize (seq 0 (length nodes)).
  intros positions. revert rng nodes.
  assert (Hgen : ∀ acc : Rng * list (Node R),
            edges_only acc.2 →
            edges_only (fold_left (send_from epoch) positions acc).2).
  { induction positions as [|i positions IH]; intros acc Hinv; [done|].
    cbn [fold_left]. apply IH. by apply send_from_edges. }
  intros rng nodes Hinv. by apply (Hgen (rng, nodes)).
Qed.

(** What the receive loop of a node keeps is what was in its inbox, with
    the same senders. *)
Lemma receive_fold_senders (epoch : Z) (hist : gmap Z R) (P : Z → Prop)
    (msgs : list (Z * R * nat)) :
  ∀ (st : R) (new_inbox : list (Z * R * nat)) (fl : Flags),
    Forall (λ msg, P msg.1.1) msgs →
    Forall (λ msg, P msg.1.1) new_inbox →
    Forall (λ msg, P msg.1.1)
      (fold_left (receive_msg epoch hist) msgs (st, new_inbox, fl)).1.2.
Proof.
  induction msgs as [|[[sender value] [|d]] msgs IH];
    intros st new_inbox fl Hmsgs Hnew; [done| |];
    apply Forall_cons in Hmsgs as [Hmsg Hmsgs]; cbn [fold_left receive_msg].
  - by apply IH.
  - apply IH; [done|]. apply Forall_app. split; [done|].
    by apply Forall_singleton.
Qed.

Lemma receive_phase_edges (epoch : Z) (nodes : list (Node R)) (fl : Flags) :
  edges_only nodes → edges_only (receive_phase epoch nodes fl).1.
Proof.
  intros [Hdir Hall]. unfold receive_phase.
  assert (Hgen : ∀ (rest visited : list (Node R)) (fl : Flags),
            Forall (along_edges D) rest → Forall (along_edges D) visited →
            directory (fold_left (receive_node epoch) rest (visited, fl)).1
            = directory visited ++ directory rest
            ∧ Forall (along_edges D)
                (fold_left (receive_node epoch) rest (visited, fl)).1).
  { clear. induction rest as [|n rest IH]; intros visited fl Hrest Hvisited.
    { cbn. by rewrite app_nil_r. }
    apply Forall_cons in Hrest as [Hn Hrest].
    cbn [fold_left].
    assert (Hstep : ∃ st new_inbox fl1,
              receive_node epoch (visited, fl) n
              = (visited ++
                   [{| node_id := node_id n; ipv6 := ipv6 n;
                       q_node := q_node n; state := st; inbox := new_inbox;
                       history := history n |}], fl1)
              ∧ Forall (λ msg : Z * R * nat,
                          ∃ q, (msg.1.1, q) ∈ D ∧ q_node n ∈ neighbors_q6 q)
                  new_inbox).
    { unfold receive_node.
      pose proof (receive_fold_senders epoch (history n)
                    (λ sender, ∃ q, (sender, q) ∈ D ∧ q_node n ∈ neighbors_q6 q)
                    (inbox n) (state n) [] fl Hn (Forall_nil_2 _)) as Hkept.
      destruct (fold_left (receive_msg epoch (history n)) (inbox n)
                  (state n, [], fl)) as [[st new_inbox] fl1].
      by exists st, new_inbox, fl1. }
    destruct Hstep as (st & new_inbox & fl1 & -> & Hkept).
    destruct (IH (visited ++
                   [{| node_id := node_id n; ipv6 := ipv6 n;
                       q_node := q_node n; state := st; inbox := new_inbox;
                       history := history n |}]) fl1) as [Hd Ha].
    { done. }
    { apply Forall_app. split; [done|]. by apply Forall_singleton. }
    split; [|done]. rewrite Hd. unfold directory.
    rewrite !fmap_app, <- app_assoc. reflexivity. }
  destruct (Hgen nodes [] fl Hall (Forall_nil_2 _)) as [Hd Ha].
  split; [|done]. by rewrite Hd.
Qed.

Lemma gossip_loop_edges (n : nat) :
  ∀ (epoch : Z) (rng : Rng) (nodes : list (Node R)) (fl : Flags),
    edges_only nodes → edges_only (gossip_loop n epoch rng nodes fl).1.2.
Proof.
  induction n as [|n IH]; intros epoch rng nodes fl Hinv; [done|].
  cbn [MegaCoupledStress.gossip_loop].
  pose proof (send_phase_edges epoch rng nodes Hinv) as Hsend.
  destruct (send_phase epoch rng nodes) as [rng1 nodes1].
  pose proof (receive_phase_edges epoch nodes1 fl Hsend) as Hrecv.
  destruct (receive_phase epoch nodes1 fl) as [nodes2 fl2].
  by apply IH.
Qed.

End Edges.

Section Rounds.

Context {R : Type} `{Arith R}.

Variable Rng : Type.
Variable packet_lost : Rng → bool * Rng.
Variable draw_delay : Rng → nat * Rng.

(** Messages travel along hypercube edges only.  Start the rounds with
    empty inboxes; then, whatever the generator does, after any number of
    rounds, and after the send phase of one more round, every message in
    the inbox of a node names as its sender a node on a slot of which the
    receiver's slot is a neighbour.  No node is reached by a node that
    is not adjacent to it, and none by itself. *)
Theorem messages_travel_along_edges (n : nat) (epoch epoch' : Z) (rng : Rng)
    (nodes : list (Node R)) (fl : Flags) :
  Forall (λ m, inbox m = []) nodes →
  let after := gossip_loop Rng packet_lost draw_delay n epoch rng nodes fl in
  let sent :=
    send_phase Rng packet_lost draw_delay epoch' after.1.1 after.1.2 in
  ∀ m sender value delay,
    m ∈ after.1.2 ∨ m ∈ sent.2 →
    (sender, value, delay) ∈ inbox m →
    ∃ s, s ∈ nodes ∧ node_id s = sender
         ∧ q_node m ∈ neighbors_q6 (q_node s).
Proof.
  intros Hempty after sent m sender value delay Hm Hmsg.
  assert (Hstart : directory nodes = directory nodes
                   ∧ Forall (along_edges (directory nodes)) nodes).
  { split; [done|]. eapply Forall_impl; [exact Hempty|].
    intros x Hx. unfold along_edges. rewrite Hx. constructor. }
  pose proof (gossip_loop_edges Rng packet_lost draw_delay (directory nodes)
                n epoch rng nodes fl Hstart) as Hafter.
  fold after in Hafter.
  pose proof (send_phase_edges Rng packet_lost draw_delay (directory nodes)
                epoch' after.1.1 after.1.2 Hafter) as Hsent.
  fold sent in Hsent.
  assert (Hedges : along_edges (directory nodes) m).
  { destruct Hafter as [_ Ha], Hsent as [_ Hs].
    rewrite Forall_forall in Ha. rewrite Forall_forall in Hs.
    destruct Hm as [Hm|Hm]; auto. }
  unfold along_edges in Hedges. rewrite Forall_forall in Hedges.
  destruct (Hedges _ Hmsg) as (q & Hq & Hnb). cbn [fst] in Hq.
  apply list_elem_of_fmap in Hq as (s & [= -> ->] & Hs).
  exists s. done.
Qed.

End Rounds.

Lemma messages_travel_along_edges_witness :
  Forall (λ m, inbox m = []) sample_nodes
  ∧ ∀ m sender value delay,
      m ∈ (gossip_loop nat sample_packet_lost sample_draw_delay 3 0 0%nat
             sample_nodes (mkFlags false None 0)).1.2
      ∨ m ∈ (send_phase nat sample_packet_lost sample_draw_delay 3
               (gossip_loop nat sample_packet_lost sample_draw_delay 3 0 0%nat
                  sample_nodes (mkFlags false None 0)).1.1
               (gossip_loop nat sample_packet_lost sample_draw_delay 3 0 0%nat
                  sample_nodes (mkFlags false None 0)).1.2).2 →
      (sender, value, delay) ∈ inbox m →
      ∃ s, s ∈ sample_nodes ∧ node_id s = sender
           ∧ q_node m ∈ neighbors_q6 (q_node s).
Proof.
  assert (Hempty : Forall (λ m, inbox m = []) sample_nodes)
    by (repeat constructor).
  split; [exact Hempty|].
  exact (messages_travel_along_edges nat sample_packet_lost sample_draw_delay
           3 0 3 0%nat sample_nodes (mkFlags false None 0) Hempty).
Defined.

(** Sample: after the send phase of the first round on the slots
    [0 .. 7], the senders waiting in the eight inboxes are on slots one
    bit away from the receiver's. *)
Example first_round_senders :
  (λ m, (λ msg : Z * float * nat, msg.1.1) <$> inbox m)
    <$> (send_phase nat sample_packet_lost sample_draw_delay 0 0%nat
           sample_nodes).2
  = [[1; 2; 4]; [0; 3; 5]; [0; 3; 6]; [1; 2; 7]; [0; 5; 6]; [1; 4; 7];
     [2; 4; 7]; [3; 5; 6]].
Proof. vm_compute. reflexivity. Qed.

Lemma run_without_adjacent_slots_witness :
  no_adjacent_slots
    ((λ i, sample_digest_prefix i `mod` Q_NODES) <$> seq 0 NODE_COUNT) = true
  ∧ fgt (R:=float) (fabs ivc_state) DTC_THRESHOLD = false
  ∧ run_mega_coupled_stress (R:=float) nat sample_packet_lost
      sample_draw_delay sample_address sample_digest_prefix 5%nat
    = Ok {| max_dtc_residual := fabs ivc_state;
            res_equivocation_detected := false;
            res_equivocation_epoch := None;
            res_verifier_ops := 785 |}.
Proof.
  assert (Hslots : no_adjacent_slots
            ((λ i, sample_digest_prefix i `mod` Q_NODES) <$> seq 0 NODE_COUNT)
            = true) by (vm_compute; reflexivity).
  assert (Hsmall : fgt (R:=float) (fabs ivc_state) DTC_THRESHOLD = false)
    by (vm_compute; reflexivity).
  split; [exact Hslots|]. split; [exact Hsmall|].
  exact (GossipFacts.run_without_adjacent_slots nat sample_packet_lost
           sample_draw_delay sample_address sample_digest_prefix 5%nat
           Hslots Hsmall).
Defined.

Lemma run_flags_agree_witness :
  run_mega_coupled_stress (R:=float) nat sample_packet_lost sample_draw_delay
    sample_address (λ i, nth i [0; 3; 7; 5; 9; 10; 12; 15] 0) 0%nat
  = Ok {| max_dtc_residual := fabs ivc_state;
          res_equivocation_detected := false;
          res_equivocation_epoch := None;
          res_verifier_ops := 1529 |}
  ∧ flags_agree (Z.of_nat GOSSIP_STEPS) false None.
Proof.
  assert (Hrun : run_mega_coupled_stress (R:=float) nat sample_packet_lost
            sample_draw_delay sample_address
            (λ i, nth i [0; 3; 7; 5; 9; 10; 12; 15] 0) 0%nat
          = Ok {| max_dtc_residual := fabs ivc_state;
                  res_equivocation_detected := false;
                  res_equivocation_epoch := None;
                  res_verifier_ops := 1529 |})
    by (vm_compute; reflexivity).
  split; [exact Hrun|].
  exact (GossipFacts.run_flags_agree nat sample_packet_lost sample_draw_delay
           sample_address (λ i, nth i [0; 3; 7; 5; 9; 10; 12; 15] 0) 0%nat
           _ Hrun).
Defined.

End GossipEdgeFacts.

(** ** Scenario C on the code *)

Module ScenarioCFacts.
Import MegaCoupledStress GossipEdges.

(** C7.  What the code does with the value injected in round 12, in double
    arithmetic, on two placements of the eight nodes, with the sample
    generator.  On the slots [0, 3, 5, 6, 9, 10, 12, 15], none of them
    adjacent to the slot of node 0, the run returns and reports no
    detection.  On the slots [0 .. 7] ([sample_nodes] are the nodes the run
    starts the rounds with there) the value is delivered to the neighbours
    of node 0 in round 13 and flagged there; the test then looks every
    later sender up in a history that is keyed by round, so every later
    round flags again and overwrites the recorded round, which is 127
    after the last one; and the value averaged into the states makes the
    contraction check raise, so that the run returns nothing. *)
Lemma scenario_c_on_the_code :
  let rounds := λ n,
    (gossip_loop nat sample_packet_lost sample_draw_delay n 0 0%nat
       sample_nodes (mkFlags false None (2 * 8 + 96 * 8))).2 in
  run_mega_coupled_stress (R:=float) nat sample_packet_lost sample_draw_delay
    sample_address sample_digest_prefix 0%nat
  = Ok {| max_dtc_residual := fabs ivc_state;
          res_equivocation_detected := false;
          res_equivocation_epoch := None;
          res_verifier_ops := 785 |}
  ∧ sample_nodes
    = (λ i, {| node_id := Z.of_nat i; ipv6 := sample_address i;
               q_node := Z.of_nat i `mod` Q_NODES;
               state := ivc_state; inbox := []; history := ∅ |})
        <$> seq 0 NODE_COUNT
  ∧ equivocation_detected (rounds 13%nat) = false
  ∧ equivocation_detected (rounds 14%nat) = true
  ∧ equivocation_epoch (rounds 14%nat) = Some 13
  ∧ equivocation_detected (rounds 128%nat) = true
  ∧ equivocation_epoch (rounds 128%nat) = Some 127
  ∧ run_mega_coupled_stress (R:=float) nat sample_packet_lost
      sample_draw_delay sample_address (λ i, Z.of_nat i) 0%nat
    = Raise "DTC CONTRACTION FAILURE".
Proof. vm_compute. by repeat split. Qed.

End ScenarioCFacts.
